(** * WinThreadPool: a fixed-size worker pool over one shared FIFO queue

    Shallow embedding of [win_thread_pool.c].  The C heap is a finite map
    from non-null addresses to objects, pointers are optional addresses
    ([None] is [NULL]), and every procedure of the file is a function in a
    small state-and-error monad over the [world].  The worker loop and the
    callers of the pool are also given as a small-step machine over the
    same statements, so that interleavings of several threads can be
    studied. *)

From stdpp Require Import gmap list strings pretty.
From Stdlib Require Import ZArith Lia.

Local Open Scope Z_scope.

(** ** Memory model *)

Module Mem.

(** A non-null address; [ptr] adds [NULL]. *)
Abbreviation addr := positive.
Abbreviation ptr := (option addr).
Abbreviation NULL := (@None positive).

(** The [taskFunc] function-pointer type: callables are opaque to the pool
    and are only named. *)
Abbreviation taskFunc := nat.

(** Windows [HANDLE] values returned by a successful [CreateThread]. *)
Abbreviation HANDLE := positive.

(** [struct Task]. *)
Record Task := mkTask {
  task : taskFunc;
  taskArgs : ptr;
  next : ptr
}.

(** [struct ThreadPool]; the critical section and the condition variable
    are kept by the scheduler model ([Conc]) and not in the struct. *)
Record ThreadPool := mkThreadPool {
  running : Z;                (* int8_t *)
  threadNum : Z;              (* int32_t *)
  threads : ptr;              (* HANDLE* *)
  taskQueueHead : ptr;
  taskQueueTail : ptr
}.

(** What a heap block holds.  [OFresh] is a block returned by [malloc]
    whose contents are still indeterminate. *)
Inductive obj :=
| OFresh (len : N)
| OTask (t : Task)
| OPool (p : ThreadPool)
| OBytes (bs : list Byte.byte)
| OHandles (hs : list HANDLE).

(** Effects that leave the address space. *)
Inductive event :=
| EvStderr (s : string)                  (* fprintf(stderr, ...) *)
| EvEnter                                (* EnterCriticalSection *)
| EvLeave                                (* LeaveCriticalSection *)
| EvWake                                 (* WakeConditionVariable *)
| EvWakeAll                              (* WakeAllConditionVariable *)
| EvSpawn (pool : addr) (h : HANDLE)     (* CreateThread(.., work_loop, pool, ..) *)
| EvWaitAll (n : Z) (hs : ptr)           (* WaitForMultipleObjects *)
| EvCall (f : taskFunc) (arg : ptr).     (* headTask->task(headTask->taskArgs) *)

Record world := mkWorld {
  heap : gmap addr obj;
  trace : list event          (* oldest first *)
}.

Definition set_heap (f : gmap addr obj → gmap addr obj) (w : world) : world :=
  {| heap := f (heap w); trace := trace w |}.

Definition emit (e : event) (w : world) : world :=
  {| heap := heap w; trace := trace w ++ [e] |}.

(** Result of running a procedure: it returns, it ends the process with
    [exit(EXIT_FAILURE)], or it has undefined behaviour (a null or dangling
    pointer is dereferenced, a block is freed twice, a read runs past the
    end of a buffer). *)
Inductive outcome (A : Type) :=
| Ret (a : A) (w : world)
| Exit (w : world)
| Fault.
Arguments Ret {A} a w.
Arguments Exit {A} w.
Arguments Fault {A}.

Definition M (A : Type) := world → outcome A.

Definition ret {A} (a : A) : M A := λ w, Ret a w.
Definition bind {A B} (m : M A) (k : A → M B) : M B :=
  λ w, match m w with
       | Ret a w' => k a w'
       | Exit w' => Exit w'
       | Fault => Fault
       end.
Definition fault {A} : M A := λ _, Fault.
Definition exit_failure {A} : M A := λ w, Exit w.
Definition modify (f : world → world) : M unit := λ w, Ret tt (f w).
Definition get_obj (a : addr) : M obj :=
  λ w, match heap w !! a with Some o => Ret o w | None => Fault end.
Definition put_obj (a : addr) (o : obj) : M unit :=
  λ w, match heap w !! a with
       | Some _ => Ret tt (set_heap (insert a o) w)
       | None => Fault
       end.

End Mem.
Export Mem.

Global Instance M_ret : MRet M := @ret.
Global Instance M_bind : MBind M := λ A B k m, bind m k.

(** ** The C library and the Windows calls used by the file *)

Module Sys.

(** Sizes on 64-bit Windows (LLP64). *)
Definition sizeof_Task : N := 24.
Definition sizeof_ThreadPool : N := 80.
Definition sizeof_HANDLE : N := 8.
Definition size_max : N := 2 ^ 64.

(** [malloc(len)]: the allocator answers [NULL] or a block that is not in
    use; the answer [r] is an input of the model. *)
Definition malloc (len : N) (r : ptr) : M ptr :=
  match r with
  | None => ret NULL
  | Some a => modify (set_heap (insert a (OFresh len)));; ret (Some a)
  end.

(** [free(p)]: nothing for [NULL], undefined for a block that is not
    allocated. *)
Definition free (p : ptr) : M unit :=
  match p with
  | None => ret tt
  | Some a => λ w, match heap w !! a with
                   | Some _ => Ret tt (set_heap (delete a) w)
                   | None => Fault
                   end
  end.

Definition fprintf_stderr (s : string) : M unit := modify (emit (EvStderr s)).

Definition newline : string := String (Ascii.ascii_of_nat 10) EmptyString.

(** [memcpy(dst, src, n)] from one byte block into a fresh block of [n]
    bytes. *)
Definition memcpy (dst src : addr) (n : N) : M unit :=
  s ← get_obj src;
  match s with
  | OBytes bs =>
      if (N.of_nat (length bs) <? n)%N then fault
      else put_obj dst (OBytes (take (N.to_nat n) bs))
  | _ => fault
  end.

End Sys.
Export Sys.

(** ** The procedures of [win_thread_pool.c] *)

Module Pool.

(** [underlying_safe_malloc]. *)
Definition underlying_safe_malloc (len : N) (funcName : string) (lineNum : Z)
    (r : ptr) : M addr :=
  p ← malloc len r;
  match p with
  | None =>
      fprintf_stderr (funcName +:+ ", line: " +:+ pretty lineNum
                        +:+ ": malloc() failed." +:+ newline);;
      exit_failure
  | Some a => ret a
  end.

(** [print_last_system_error]; [fmt] is what [FormatMessageA] produced for
    the last error code, [None] when it failed. *)
Definition print_last_system_error (userDefinedMsg : string)
    (fmt : option string) : M unit :=
  match fmt with
  | Some lpMsgBuf => fprintf_stderr (userDefinedMsg +:+ ", " +:+ lpMsgBuf)
  | None =>
      fprintf_stderr ("print_last_system_error, line: " +:+ pretty 66
                        +:+ ": FormatMessageA() failed." +:+ newline);;
      exit_failure
  end.

(** Access to the pool struct behind a pointer. *)
Definition get_pool (pool : ptr) : M ThreadPool :=
  match pool with
  | None => fault
  | Some a => o ← get_obj a; match o with OPool p => ret p | _ => fault end
  end.

Definition set_pool (pool : ptr) (f : ThreadPool → ThreadPool) : M unit :=
  match pool with
  | None => fault
  | Some a =>
      o ← get_obj a;
      match o with OPool p => put_obj a (OPool (f p)) | _ => fault end
  end.

Definition get_task (t : ptr) : M Task :=
  match t with
  | None => fault
  | Some a => o ← get_obj a; match o with OTask t => ret t | _ => fault end
  end.

Definition set_task (t : ptr) (f : Task → Task) : M unit :=
  match t with
  | None => fault
  | Some a =>
      o ← get_obj a;
      match o with OTask t => put_obj a (OTask (f t)) | _ => fault end
  end.

Definition with_running (v : Z) (p : ThreadPool) : ThreadPool :=
  {| running := v; threadNum := threadNum p; threads := threads p;
     taskQueueHead := taskQueueHead p; taskQueueTail := taskQueueTail p |}.
Definition with_head (v : ptr) (p : ThreadPool) : ThreadPool :=
  {| running := running p; threadNum := threadNum p; threads := threads p;
     taskQueueHead := v; taskQueueTail := taskQueueTail p |}.
Definition with_tail (v : ptr) (p : ThreadPool) : ThreadPool :=
  {| running := running p; threadNum := threadNum p; threads := threads p;
     taskQueueHead := taskQueueHead p; taskQueueTail := v |}.
Definition with_next (v : ptr) (t : Task) : Task :=
  {| task := task t; taskArgs := taskArgs t; next := v |}.


(** *** [thread_pool_add_task] *)

(** Lines 191-203: the record is allocated and filled.  [r1] and [r2] are
    the allocator's answers to the two [safe_malloc] calls.  The record is
    private to the caller until it is linked, so its three fields are
    stored at once. *)
Definition build_task (r1 r2 : ptr) (f : taskFunc) (taskArgs : ptr)
    (argsSize : N) : M addr :=
  temp ← underlying_safe_malloc sizeof_Task "thread_pool_add_task" 191 r1;
  args ← match taskArgs with
         | Some src =>
             b ← underlying_safe_malloc argsSize "thread_pool_add_task" 198 r2;
             memcpy b src argsSize;;
             mret (Some b)
         | None => mret NULL
         end;
  put_obj temp (OTask {| task := f; taskArgs := args; next := NULL |});;
  mret temp.

(** Lines 208-214: the record is linked behind the tail. *)
Definition enqueue (pool : ptr) (temp : addr) : M unit :=
  p ← get_pool pool;
  match taskQueueHead p with
  | None =>
      set_pool pool (with_tail (Some temp));;
      set_pool pool (with_head (Some temp))
  | Some _ =>
      set_task (taskQueueTail p) (with_next (Some temp));;
      p' ← get_pool pool;
      t ← get_task (taskQueueTail p');
      set_pool pool (with_tail (next t))
  end.

Definition thread_pool_add_task (r1 r2 : ptr) (pool : ptr) (f : taskFunc)
    (taskArgs : ptr) (argsSize : N) : M unit :=
  temp ← build_task r1 r2 f taskArgs argsSize;
  modify (emit EvEnter);;
  enqueue pool temp;;
  modify (emit EvLeave);;
  modify (emit EvWake).

(** *** The statements of [thread_pool_work_loop] *)

(** Line 82, the loop condition [head == NULL && running]. *)
Definition must_wait (p : ThreadPool) : bool :=
  bool_decide (taskQueueHead p = NULL) && negb (running p =? 0).

(** Line 89, the exit condition [head == NULL && !running]. *)
Definition must_exit (p : ThreadPool) : bool :=
  bool_decide (taskQueueHead p = NULL) && (running p =? 0).

(** Line 95, [headTask = pool->taskQueueHead]. *)
Definition read_head (pool : ptr) : M ptr :=
  p ← get_pool pool; mret (taskQueueHead p).

(** Line 96, [pool->taskQueueHead = pool->taskQueueHead->next]. *)
Definition advance_head (pool : ptr) : M unit :=
  p ← get_pool pool;
  t ← get_task (taskQueueHead p);
  set_pool pool (with_head (next t)).

(** Lines 95-96 together: the dequeue. *)
Definition pop_head (pool : ptr) : M ptr :=
  headTask ← read_head pool;
  advance_head pool;;
  mret headTask.

(** Line 102, the callable runs; what it does is outside the pool and is
    recorded as an event. *)
Definition call_task (headTask : ptr) : M unit :=
  t ← get_task headTask;
  modify (emit (EvCall (task t) (taskArgs t))).

(** Lines 105-106. *)
Definition free_task (headTask : ptr) : M unit :=
  t ← get_task headTask;
  free (taskArgs t);;
  free headTask.

(** *** [create_thread_pool] *)

(** The byte count [threadNum * sizeof(HANDLE)] in [size_t] arithmetic. *)
Definition handles_size (threadNum : Z) : N :=
  Z.to_N ((threadNum * Z.of_N sizeof_HANDLE) mod Z.of_N size_max).

(** [pool->threads[i] = t]; the array block holds the handles stored so
    far, and the loop stores them in index order. *)
Definition handles_of (o : obj) : option (list HANDLE) :=
  match o with
  | OFresh _ => Some []
  | OHandles hs => Some hs
  | _ => None
  end.

Definition store_handle (arr : ptr) (i : Z) (t : HANDLE) : M unit :=
  match arr with
  | None => fault
  | Some a =>
      o ← get_obj a;
      match handles_of o with
      | Some hs =>
          if decide (i = Z.of_nat (length hs))
          then put_obj a (OHandles (hs ++ [t])) else fault
      | None => fault
      end
  end.

(** Lines 127-141: [n] iterations are left, the next index is [i];
    [spawn i] is what the [i]-th [CreateThread] returned, and [fmt] what
    [FormatMessageA] produces should the error be printed. *)
Fixpoint spawn_workers (spawn : Z → option HANDLE) (fmt : option string)
    (pool : addr) (n : nat) (i : Z) : M unit :=
  match n with
  | O => mret tt
  | S n' =>
      match spawn i with
      | None =>
          print_last_system_error "CreateThread() failed" fmt;;
          exit_failure
      | Some t =>
          modify (emit (EvSpawn pool t));;
          p ← get_pool (Some pool);
          store_handle (threads p) i t;;
          spawn_workers spawn fmt pool n' (i + 1)
      end
  end.

(** [r1] and [r2] are the allocator's answers to the two [safe_malloc]
    calls.  Lines 118-122 write every field of the new struct and read
    none, so they are one store after the second allocation. *)
Definition create_thread_pool (r1 r2 : ptr) (spawn : Z → option HANDLE)
    (fmt : option string) (threadNum : Z) : M addr :=
  pool ← underlying_safe_malloc sizeof_ThreadPool "create_thread_pool" 116 r1;
  arr ← underlying_safe_malloc (handles_size threadNum)
          "create_thread_pool" 120 r2;
  put_obj pool (OPool {| running := 1; threadNum := threadNum;
                         threads := Some arr;
                         taskQueueHead := NULL; taskQueueTail := NULL |});;
  spawn_workers spawn fmt pool (Z.to_nat threadNum) 0;;
  mret pool.

(** *** [thread_pool_join_all] and [thread_pool_destroy] *)

Section Shutdown.

(** What happens in the address space while the caller is blocked in
    [WaitForMultipleObjects]: the workers finish. *)
Variable wait_workers : Z → ptr → M unit.

Definition thread_pool_join_all (pool : ptr) : M unit :=
  match pool with
  | None => mret tt
  | Some _ =>
      p ← get_pool pool;
      if running p =? 0 then mret tt
      else
        modify (emit EvEnter);;
        set_pool pool (with_running 0);;
        modify (emit EvLeave);;
        modify (emit EvWakeAll);;
        p ← get_pool pool;
        modify (emit (EvWaitAll (threadNum p) (threads p)));;
        wait_workers (threadNum p) (threads p)
  end.

(** One round of the loop of lines 175-181, entered with a non-null head. *)
Definition drain_one (pool : ptr) : M unit :=
  p ← get_pool pool;
  h ← get_task (taskQueueHead p);
  let temp := next h in
  free (taskArgs h);;
  p ← get_pool pool;
  free (taskQueueHead p);;
  set_pool pool (with_head temp).

(** The loop of lines 175-181; [n] bounds the number of rounds, and the
    loop that has not ended within [n] rounds yields [None]. *)
Fixpoint drain (pool : ptr) (n : nat) : world → option (outcome unit) :=
  λ w,
  match get_pool pool w with
  | Ret p w' =>
      match taskQueueHead p with
      | None => Some (Ret tt w')
      | Some _ =>
          match n with
          | O => None
          | S n' =>
              match drain_one pool w' with
              | Ret _ w'' => drain pool n' w''
              | Exit w'' => Some (Exit w'')
              | Fault => Some Fault
              end
          end
      end
  | Exit w' => Some (Exit w')
  | Fault => Some Fault
  end.

Definition thread_pool_destroy (n : nat) (pool : ptr)
    : world → option (outcome unit) :=
  λ w,
  match thread_pool_join_all pool w with
  | Ret _ w1 =>
      match drain pool n w1 with
      | Some (Ret _ w2) => Some (free pool w2)
      | r => r
      end
  | Exit w1 => Some (Exit w1)
  | Fault => Some Fault
  end.

End Shutdown.

(** The pool behind [pool] is allocated and has stopped. *)
Definition stopped (pool : ptr) (w : world) : Prop :=
  ∃ a p, pool = Some a ∧ heap w !! a = Some (OPool p) ∧ running p = 0.

End Pool.
Export Pool.

(** ** Shape of the queue in memory *)

Module Rep.

(** The head/tail relation asked of the queue: empty iff both absent. *)
Definition head_tail_iff (p : ThreadPool) : Prop :=
  taskQueueHead p = NULL ↔ taskQueueTail p = NULL.

(** Its half that survives a dequeue: no tail, no head. *)
Definition head_tail_weak (p : ThreadPool) : Prop :=
  taskQueueTail p = NULL → taskQueueHead p = NULL.

(** An operation on a pool keeps [P] when every returning run from a pool
    struct with [P] ends in a pool struct with [P]. *)
Definition preserves {A} (P : ThreadPool → Prop) (op : ptr → M A) : Prop :=
  ∀ a p w r w' p',
    heap w !! a = Some (OPool p) → P p →
    op (Some a) w = Ret r w' →
    heap w' !! a = Some (OPool p') → P p'.

(** The same for a loop given with a bound on its rounds. *)
Definition preserves_loop (P : ThreadPool → Prop)
    (op : ptr → nat → world → option (outcome unit)) : Prop :=
  ∀ n a p w w' p',
    heap w !! a = Some (OPool p) → P p →
    op (Some a) n w = Some (Ret tt w') →
    heap w' !! a = Some (OPool p') → P p'.

(** The records linked from [p] up to the pointer [r], in order: [q] lists
    their addresses. *)
Fixpoint lseg (h : gmap addr obj) (p : ptr) (q : list addr) (r : ptr)
    : Prop :=
  match q with
  | [] => p = r
  | a :: q' => p = Some a ∧ ∃ t, h !! a = Some (OTask t) ∧ lseg h (next t) q' r
  end.

(** A chain is a segment that ends in [NULL]. *)
Definition chain (h : gmap addr obj) (p : ptr) (q : list addr) : Prop :=
  lseg h p q NULL.

(** The queue of pool [p] holds exactly the records [q]: they are linked
    from the head, and the tail is the last one when there is one. *)
Definition queue_rep (h : gmap addr obj) (p : ThreadPool) (q : list addr)
    : Prop :=
  chain h (taskQueueHead p) q ∧ (q ≠ [] → taskQueueTail p = last q).

(** Callable and argument pointer of the record at [a]. *)
Definition info (h : gmap addr obj) (a : addr) : option (taskFunc * ptr) :=
  match h !! a with
  | Some (OTask t) => Some (task t, taskArgs t)
  | _ => None
  end.

Definition arg_of (h : gmap addr obj) (a : addr) : option addr :=
  match h !! a with
  | Some (OTask t) => taskArgs t
  | _ => None
  end.

(** The argument buffers of the records [q]. *)
Definition args_of (h : gmap addr obj) (q : list addr) : list addr :=
  omap (arg_of h) q.

(** The records [q] own their argument buffers: every buffer is an
    allocated byte block and no two records share one. *)
Definition owns_args (h : gmap addr obj) (q : list addr) : Prop :=
  NoDup (args_of h q) ∧
  ∀ b, b ∈ args_of h q → ∃ bs, h !! b = Some (OBytes bs).

(** An object without its queue links. *)
Definition unlink (o : obj) : obj :=
  match o with
  | OTask t => OTask (with_next NULL t)
  | OPool p => OPool (with_head NULL (with_tail NULL p))
  | o => o
  end.

(** Two heaps that differ in queue links only. *)
Definition same_but_links (h h' : gmap addr obj) : Prop :=
  ∀ x, unlink <$> (h' !! x) = unlink <$> (h !! x).

(** An answer of the allocator: [NULL] or a block that is not in use. *)
Definition unused (h : gmap addr obj) (r : ptr) : Prop :=
  ∀ a, r = Some a → h !! a = None.

End Rep.
Export Rep.

(** ** What creation reports *)

Module CreateSpec.

(** The handles [CreateThread] hands out for the indices [i, i+1, ..]. *)
Fixpoint spawned (spawn : Z → option HANDLE) (n : nat) (i : Z) : list HANDLE :=
  match n with
  | O => []
  | S n' => match spawn i with
            | Some t => t :: spawned spawn n' (i + 1)
            | None => []
            end
  end.

Definition all_spawn (spawn : Z → option HANDLE) (n : nat) (i : Z) : Prop :=
  ∀ j, i ≤ j < i + Z.of_nat n → is_Some (spawn j).

Definition createthread_report (fmt : option string) : string :=
  match fmt with
  | Some m => "CreateThread() failed, " +:+ m
  | None => "print_last_system_error, line: 66: FormatMessageA() failed."
              +:+ newline
  end.

Definition malloc_report (funcName : string) (lineNum : Z) : string :=
  funcName +:+ ", line: " +:+ pretty lineNum +:+ ": malloc() failed."
    +:+ newline.

(** The pool of [main]: four workers. *)
Definition main_spawn (i : Z) : option HANDLE := Some (Z.to_pos (i + 100)).

End CreateSpec.
Export CreateSpec.

(** ** The program of [main] *)

Module Main.

(** [int num = 39], four bytes, least significant first. *)
Definition main_num : list Byte.byte := [Byte.x27; Byte.x00; Byte.x00; Byte.x00].

Definition main_pool : ThreadPool :=
  {| running := 1; threadNum := 4; threads := Some 2%positive;
     taskQueueHead := NULL; taskQueueTail := NULL |}.

(** The world right after [create_thread_pool(4)] returned into [main]:
    the pool struct at 1, the handle array at 2, and [num] at 9. *)
Definition main_world : world :=
  {| heap := {[ 1%positive := OPool main_pool;
                2%positive := OHandles [100; 101; 102; 103]%positive;
                9%positive := OBytes main_num ]};
     trace := EvSpawn 1 <$> [100; 101; 102; 103]%positive |}.

(** A stopped pool with two records still queued: the one at 3 owns the
    buffer at 4, the one at 5 has no argument. *)
Definition pending_pool : ThreadPool :=
  {| running := 0; threadNum := 1; threads := Some 2%positive;
     taskQueueHead := Some 3%positive; taskQueueTail := Some 5%positive |}.

Definition pending_world : world :=
  {| heap := {[ 1%positive := OPool pending_pool;
                2%positive := OHandles [100%positive];
                3%positive := OTask {| task := 1%nat;
                                       taskArgs := Some 4%positive;
                                       next := Some 5%positive |};
                4%positive := OBytes main_num;
                5%positive := OTask {| task := 0%nat; taskArgs := NULL;
                                       next := NULL |} ]};
     trace := [] |}.

(** The world [main] starts in: only [num] is allocated. *)
Definition start_world : world :=
  {| heap := {[ 9%positive := OBytes main_num ]}; trace := [] |}.

End Main.
Export Main.

(** ** Threads: the worker loop and the callers, statement by statement *)

Module Conc.

Abbreviation tid := nat.

(** Program points.  [W..] are the statements of [thread_pool_work_loop],
    [C..] those of a thread that calls [thread_pool_add_task] and
    [thread_pool_join_all]. *)
Inductive pc :=
| WEnter                            (* line 79 *)
| WCheck                            (* line 82 *)
| WSleep                            (* line 83, inside the wait *)
| WReport (fmt : option string)     (* lines 84-85, the wait returned 0 *)
| WExitTest                         (* line 89 *)
| WExitLeave                        (* line 90 *)
| WRead                             (* line 95 *)
| WAdvance (headTask : ptr)         (* line 96 *)
| WLeave (headTask : ptr)           (* line 99 *)
| WCall (headTask : ptr)            (* line 102 *)
| WFree (headTask : ptr)            (* lines 105-106 *)
| WExited                           (* line 91, returned *)
| CIdle                             (* between two calls *)
| CAddEnter (temp : addr)           (* line 205 *)
| CAddLink (temp : addr)            (* lines 208-214 *)
| CAddLeave                         (* line 216 *)
| CAddWake                          (* line 219 *)
| CJoinEnter                        (* line 156 *)
| CJoinSet                          (* line 157 *)
| CJoinLeave                        (* line 158 *)
| CJoinWake                         (* line 161 *)
| CJoinWait.                        (* line 164 *)

(** What the environment decides in a step. *)
Inductive choice :=
| Go                                 (* the thread runs its next statement;
                                        for [WSleep]: the wait returns
                                        nonzero *)
| WaitFails (fmt : option string)    (* [SleepConditionVariableCS] returns
                                        0; [fmt] is what [FormatMessageA]
                                        will produce for the error *)
| CallAdd (r1 r2 : ptr) (f : taskFunc) (taskArgs : ptr) (argsSize : N)
                                     (* an idle caller enters
                                        [thread_pool_add_task] *)
| CallJoin.                          (* an idle caller enters
                                        [thread_pool_join_all] *)

Inductive status := Alive | Halted | Undefined.

(** A logged record: its address, callable and argument pointer. *)
Abbreviation entry := (addr * (taskFunc * ptr))%type.

Record state := mkState {
  mem : world;
  pool : addr;                  (* the [pool] every thread was given *)
  mutex : option tid;           (* owner of [taskQueueMutex] *)
  pcs : list pc;                (* thread [t] is at [pcs !! t] *)
  proc : status;
  submitted : list entry;       (* instrumentation: records linked *)
  dequeued : list entry         (* instrumentation: records unlinked *)
}.

Definition with_mem (w : world) (s : state) : state :=
  {| mem := w; pool := pool s; mutex := mutex s; pcs := pcs s;
     proc := proc s; submitted := submitted s; dequeued := dequeued s |}.
Definition with_mutex (m : option tid) (s : state) : state :=
  {| mem := mem s; pool := pool s; mutex := m; pcs := pcs s;
     proc := proc s; submitted := submitted s; dequeued := dequeued s |}.
Definition with_proc (st : status) (s : state) : state :=
  {| mem := mem s; pool := pool s; mutex := mutex s; pcs := pcs s;
     proc := st; submitted := submitted s; dequeued := dequeued s |}.
Definition goto (t : tid) (l : pc) (s : state) : state :=
  {| mem := mem s; pool := pool s; mutex := mutex s;
     pcs := <[t := l]> (pcs s);
     proc := proc s; submitted := submitted s; dequeued := dequeued s |}.
Definition log_submit (e : option entry) (s : state) : state :=
  {| mem := mem s; pool := pool s; mutex := mutex s; pcs := pcs s;
     proc := proc s; submitted := submitted s ++ option_list e;
     dequeued := dequeued s |}.
Definition log_dequeue (e : option entry) (s : state) : state :=
  {| mem := mem s; pool := pool s; mutex := mutex s; pcs := pcs s;
     proc := proc s; submitted := submitted s;
     dequeued := dequeued s ++ option_list e |}.

(** The record behind a pointer, as it is logged. *)
Definition entry_at (h : gmap addr obj) (p : ptr) : option entry :=
  match p with
  | Some a => match info h a with Some i => Some (a, i) | None => None end
  | None => None
  end.

(** A statement of the file run by a thread: its result decides how the
    thread goes on; [exit] halts the process, undefined behaviour is
    recorded. *)
Definition exec {A} (m : M A) (k : A → state → state) (s : state) : state :=
  match m (mem s) with
  | Ret a w' => k a (with_mem w' s)
  | Exit w' => with_proc Halted (with_mem w' s)
  | Fault => with_proc Undefined s
  end.

(** [EnterCriticalSection]: blocks while another thread is the owner. *)
Definition acquire (t : tid) (l : pc) (s : state) : option state :=
  match mutex s with
  | None => Some (goto t l (with_mutex (Some t) (with_mem (emit EvEnter (mem s)) s)))
  | Some _ => None
  end.

(** [LeaveCriticalSection]: undefined when the caller is not the owner. *)
Definition release (t : tid) (l : pc) (s : state) : state :=
  if decide (mutex s = Some t)
  then goto t l (with_mutex None (with_mem (emit EvLeave (mem s)) s))
  else with_proc Undefined s.

(** The allocator hands out blocks that are not in use, and two different
    ones for two calls. *)
Definition alloc_ok (h : gmap addr obj) (r1 r2 : ptr) : bool :=
  match r1 with Some a => bool_decide (h !! a = None) | None => true end &&
  match r2 with Some b => bool_decide (h !! b = None) | None => true end &&
  match r1, r2 with Some a, Some b => bool_decide (a ≠ b) | _, _ => true end.

Definition exited (l : pc) : bool :=
  match l with WExited => true | _ => false end.

Definition is_worker (l : pc) : bool :=
  match l with
  | WEnter | WCheck | WSleep | WReport _ | WExitTest | WExitLeave | WRead
  | WAdvance _ | WLeave _ | WCall _ | WFree _ | WExited => true
  | _ => false
  end.

(** Every worker thread has returned. *)
Definition workers_done (ts : list pc) : bool :=
  forallb (λ l, negb (is_worker l) || exited l) ts.

(** One step of thread [t] under the choice [c]; [None] when the thread
    cannot move (it is blocked, has returned, or the choice does not apply
    to its program point). *)
Definition step (t : tid) (c : choice) (s : state) : option state :=
  match proc s with
  | Alive =>
    let P := Some (pool s) in
    match pcs s !! t, c with
    (* thread_pool_work_loop *)
    | Some WEnter, Go => acquire t WCheck s
    | Some WCheck, Go =>
        Some (exec (get_pool P)
                (λ p s', if must_wait p then release t WSleep s'
                         else goto t WExitTest s') s)
    | Some WSleep, Go => acquire t WCheck s
    | Some WSleep, WaitFails fmt => acquire t (WReport fmt) s
    | Some (WReport fmt), Go =>
        Some (exec (print_last_system_error
                      "SleepConditionVariableCS() failed" fmt)
                (λ _ s', release t WCheck s') s)
    | Some WExitTest, Go =>
        Some (exec (get_pool P)
                (λ p s', if must_exit p then goto t WExitLeave s'
                         else goto t WRead s') s)
    | Some WExitLeave, Go => Some (release t WExited s)
    | Some WRead, Go =>
        Some (exec (read_head P) (λ h s', goto t (WAdvance h) s') s)
    | Some (WAdvance h), Go =>
        Some (exec (advance_head P)
                (λ _ s', goto t (WLeave h)
                           (log_dequeue (entry_at (heap (mem s)) h) s')) s)
    | Some (WLeave h), Go => Some (release t (WCall h) s)
    | Some (WCall h), Go =>
        Some (exec (call_task h) (λ _ s', goto t (WFree h) s') s)
    | Some (WFree h), Go =>
        Some (exec (free_task h) (λ _ s', goto t WEnter s') s)
    (* thread_pool_add_task *)
    | Some CIdle, CallAdd r1 r2 f args n =>
        if alloc_ok (heap (mem s)) r1 r2
        then Some (exec (build_task r1 r2 f args n)
                     (λ temp s', goto t (CAddEnter temp) s') s)
        else None
    | Some (CAddEnter temp), Go => acquire t (CAddLink temp) s
    | Some (CAddLink temp), Go =>
        Some (exec (enqueue P temp)
                (λ _ s', goto t CAddLeave
                           (log_submit (entry_at (heap (mem s)) (Some temp))
                              s')) s)
    | Some CAddLeave, Go => Some (release t CAddWake s)
    | Some CAddWake, Go =>
        Some (exec (modify (emit EvWake)) (λ _ s', goto t CIdle s') s)
    (* thread_pool_join_all, line 151 onwards *)
    | Some CIdle, CallJoin =>
        Some (exec (get_pool P)
                (λ p s', if running p =? 0 then s'
                         else goto t CJoinEnter s') s)
    | Some CJoinEnter, Go => acquire t CJoinSet s
    | Some CJoinSet, Go =>
        Some (exec (set_pool P (with_running 0))
                (λ _ s', goto t CJoinLeave s') s)
    | Some CJoinLeave, Go => Some (release t CJoinWake s)
    | Some CJoinWake, Go =>
        Some (exec (modify (emit EvWakeAll)) (λ _ s', goto t CJoinWait s') s)
    | Some CJoinWait, Go =>
        if workers_done (pcs s)
        then Some (exec (p ← get_pool P;
                         modify (emit (EvWaitAll (threadNum p) (threads p))))
                     (λ _ s', goto t CIdle s') s)
        else None
    | _, _ => None
    end
  | _ => None
  end.

(** A schedule: which thread moves, under which choice. *)
Fixpoint run (ls : list (tid * choice)) (s : state) : option state :=
  match ls with
  | [] => Some s
  | (t, c) :: ls' =>
      match step t c s with
      | Some s' => run ls' s'
      | None => None
      end
  end.

(** The threads once [create_thread_pool] has returned [a] in world [w]:
    [nw] workers about to enter the loop and [nc] idle callers. *)
Definition boot (w : world) (a : addr) (nw nc : nat) : state :=
  {| mem := w; pool := a; mutex := None;
     pcs := replicate nw WEnter ++ replicate nc CIdle;
     proc := Alive; submitted := []; dequeued := [] |}.

Definition initial (s : state) : Prop :=
  ∃ r1 r2 spawn fmt threadNum w0 w a nc,
    create_thread_pool r1 r2 spawn fmt threadNum w0 = Ret a w ∧
    s = boot w a (Z.to_nat threadNum) nc.

(** The wait primitive does not fail in the schedule. *)
Definition wait_ok (l : tid * choice) : bool :=
  match l.2 with WaitFails _ => false | _ => true end.

(** Program points between [EnterCriticalSection] and
    [LeaveCriticalSection] (or the wait, which leaves and enters). *)
Definition in_cs (l : pc) : bool :=
  match l with
  | WCheck | WReport _ | WExitTest | WExitLeave | WRead | WAdvance _
  | WLeave _ | CAddLink _ | CAddLeave | CJoinSet | CJoinLeave => true
  | _ => false
  end.

(** Program points whose statement reads or writes [running], [head] or
    [tail] in the worker loop. *)
Definition touches_queue (l : pc) : bool :=
  match l with
  | WCheck | WExitTest | WRead | WAdvance _ => true
  | _ => false
  end.

(** The pool's fields as thread steps see them. *)
Definition pool_of (s : state) : option ThreadPool :=
  match heap (mem s) !! pool s with
  | Some (OPool p) => Some p
  | _ => None
  end.

(** The threads of [main]: four workers, and [main] itself as thread 4. *)
Definition main_state : state := boot main_world 1%positive 4 1.

(** [main] up to the end of [thread_pool_join_all], the workers taking the
    two tasks in between. *)
Definition main_schedule : list (tid * choice) :=
  [ (4, CallAdd (Some 3%positive) None 0 NULL 8);
    (4, Go); (4, Go); (4, Go); (4, Go);
    (4, CallAdd (Some 5%positive) (Some 6%positive) 1 (Some 9%positive) 4);
    (4, Go); (4, Go); (4, Go); (4, Go);
    (0, Go); (0, Go); (0, Go); (0, Go); (0, Go); (0, Go);
    (1, Go); (1, Go); (1, Go); (1, Go); (1, Go); (1, Go);
    (4, CallJoin); (4, Go); (4, Go); (4, Go); (4, Go);
    (0, Go); (0, Go); (0, Go); (0, Go); (0, Go); (0, Go);
    (1, Go); (1, Go); (1, Go); (1, Go); (1, Go); (1, Go);
    (2, Go); (2, Go); (2, Go); (2, Go);
    (3, Go); (3, Go); (3, Go); (3, Go);
    (4, Go) ]%nat.

(** Worker 0 waits, the wait returns 0, and the failure is reported. *)
Definition failing_schedule : list (tid * choice) :=
  [ (0, Go); (0, Go); (0, WaitFails (Some "timeout")); (0, Go) ]%nat.

(** After that, two tasks are submitted; worker 0 goes on without the
    mutex and worker 1 with it, and both reach line 96 having read the same
    head. *)
Definition racing_schedule : list (tid * choice) :=
  failing_schedule ++
  [ (4, CallAdd (Some 3%positive) None 0 NULL 8);
    (4, Go); (4, Go); (4, Go); (4, Go);
    (4, CallAdd (Some 5%positive) (Some 6%positive) 1 (Some 9%positive) 4);
    (4, Go); (4, Go); (4, Go); (4, Go);
    (0, Go); (0, Go); (0, Go);
    (1, Go); (1, Go); (1, Go); (1, Go);
    (0, Go); (1, Go) ]%nat.

End Conc.
Export Conc.

(** ** The running flag over time *)

Module Flag.

(** The world a procedure leaves behind, also when it ends the process. *)
Definition world_after {A} (o : outcome A) : option world :=
  match o with
  | Ret _ w => Some w
  | Exit w => Some w
  | Fault => None
  end.

(** From heap [h] to heap [h'] no pool struct has appeared at [a], and its
    [running] field has stayed as it was or has become 0. *)
Definition pool_steady (a : addr) (h h' : gmap addr obj) : Prop :=
  ∀ p', h' !! a = Some (OPool p') →
    ∃ p, h !! a = Some (OPool p) ∧ (running p' = running p ∨ running p' = 0).

(** A procedure all of whose runs are steady. *)
Definition Steady {A} (a : addr) (m : M A) : Prop :=
  ∀ w w', world_after (m w) = Some w' → pool_steady a (heap w) (heap w').

(** Client program points between enter and leave. *)
Definition client_cs (l : pc) : bool :=
  match l with
  | CAddLink _ | CAddLeave | CJoinSet | CJoinLeave => true
  | _ => false
  end.

End Flag.
Export Flag.

(** ** Control flow of the threads and its effect on the mutex *)

Module Flow.

Inductive lock_change := Keep | Acq | Rel.

(** [edge l l' k]: a thread can go from [l] to [l'], and doing so it keeps,
    acquires or releases the mutex. *)
Inductive edge : pc → pc → lock_change → Prop :=
| e_enter : edge WEnter WCheck Acq
| e_wait : edge WCheck WSleep Rel
| e_nowait : edge WCheck WExitTest Keep
| e_wake : edge WSleep WCheck Acq
| e_fail fmt : edge WSleep (WReport fmt) Acq
| e_report fmt : edge (WReport fmt) WCheck Rel
| e_exit : edge WExitTest WExitLeave Keep
| e_work : edge WExitTest WRead Keep
| e_exited : edge WExitLeave WExited Rel
| e_read h : edge WRead (WAdvance h) Keep
| e_advance h : edge (WAdvance h) (WLeave h) Keep
| e_leave h : edge (WLeave h) (WCall h) Rel
| e_call h : edge (WCall h) (WFree h) Keep
| e_free h : edge (WFree h) WEnter Keep
| e_add temp : edge CIdle (CAddEnter temp) Keep
| e_add_enter temp : edge (CAddEnter temp) (CAddLink temp) Acq
| e_add_link temp : edge (CAddLink temp) CAddLeave Keep
| e_add_leave : edge CAddLeave CAddWake Rel
| e_add_wake : edge CAddWake CIdle Keep
| e_join : edge CIdle CJoinEnter Keep
| e_join_enter : edge CJoinEnter CJoinSet Acq
| e_join_set : edge CJoinSet CJoinLeave Keep
| e_join_leave : edge CJoinLeave CJoinWake Rel
| e_join_wake : edge CJoinWake CJoinWait Keep
| e_join_wait : edge CJoinWait CIdle Keep.

(** The mutex before and after a move of thread [t]. *)
Definition lock_moves (t : tid) (k : lock_change) (m m' : option tid) : Prop :=
  match k with
  | Keep => m' = m
  | Acq => m = None ∧ m' = Some t
  | Rel => m = Some t ∧ m' = None
  end.

Definition is_report (l : pc) : bool :=
  match l with WReport _ => true | _ => false end.

(** Every thread that is at a client program point inside the critical
    section owns the mutex. *)
Definition callers_own (s : state) : Prop :=
  ∀ t l, pcs s !! t = Some l → client_cs l = true → mutex s = Some t.

(** Every thread is inside the critical section exactly when it owns the
    mutex, and none is reporting a failed wait. *)
Definition lock_discipline (s : state) : Prop :=
  ∀ t l, pcs s !! t = Some l →
    is_report l = false ∧ (in_cs l = true ↔ mutex s = Some t).

(** What a step does to the program points and to the mutex. *)
Definition flows (t : tid) (c : choice) (s s' : state) : Prop :=
  (pcs s' = pcs s ∧ mutex s' = mutex s) ∨
  (∃ l l' k, pcs s !! t = Some l ∧ pcs s' = <[t := l']> (pcs s) ∧
             edge l l' k ∧ lock_moves t k (mutex s) (mutex s') ∧
             (wait_ok (t, c) = true → is_report l' = false)).

(** Continuations of a statement that leave the heap alone. *)
Definition inert (f : state → state) : Prop :=
  ∀ s, pool (f s) = pool s ∧ heap (mem (f s)) = heap (mem s).

End Flow.
Export Flow.

(** ** What holds in every state of a schedule whose waits succeed *)

Module Safety.

(** The record a thread holds outside the queue: a worker between the
    dequeue and the free, a caller before the record is linked. *)
Definition held_rec (l : pc) : option addr :=
  match l with
  | WLeave h | WCall h | WFree h => h
  | CAddEnter temp | CAddLink temp => Some temp
  | _ => None
  end.

Definition held (ts : list pc) : list addr := omap held_rec ts.

(** The log entries of the records [q]. *)
Definition entries (h : gmap addr obj) (q : list addr) : list entry :=
  omap (λ x, entry_at h (Some x)) q.

(** From [h] to [h'] every record keeps its callable and its argument
    pointer, and every byte block its bytes. *)
Definition keeps (h h' : gmap addr obj) : Prop :=
  (∀ x t, h !! x = Some (OTask t) →
     ∃ t', h' !! x = Some (OTask t') ∧
           task t' = task t ∧ taskArgs t' = taskArgs t) ∧
  (∀ b bs, h !! b = Some (OBytes bs) → h' !! b = Some (OBytes bs)).

(** Writing [o'] over [o] keeps records and bytes when [o'] agrees with [o]
    on them; a block that was not allocated can become anything. *)
Definition agrees (o : option obj) (o' : obj) : Prop :=
  match o with
  | Some (OTask t) =>
      ∃ t', o' = OTask t' ∧ task t' = task t ∧ taskArgs t' = taskArgs t
  | Some (OBytes bs) => o' = OBytes bs
  | _ => True
  end.

(** The records [L] are distinct allocated records that own their
    argument buffers. *)
Definition owned (h : gmap addr obj) (L : list addr) : Prop :=
  NoDup L ∧ (∀ x, x ∈ L → ∃ t, h !! x = Some (OTask t)) ∧ owns_args h L.

(** What a thread at [l] can rely on, the pool struct being [p]. *)
Definition point_ok (h : gmap addr obj) (p : ThreadPool) (l : pc) : Prop :=
  match l with
  | WExitTest => must_wait p = false
  | WRead => taskQueueHead p ≠ NULL
  | WAdvance hp => hp = taskQueueHead p ∧ hp ≠ NULL
  | WLeave hp | WCall hp | WFree hp => hp ≠ NULL
  | WExitLeave | WExited => running p = 0
  | CAddEnter temp | CAddLink temp =>
      ∃ tk, h !! temp = Some (OTask tk) ∧ next tk = NULL
  | _ => True
  end.

(** The invariant, for the pool struct [p] and the queued records [q]. *)
Record InvAt (s : state) (p : ThreadPool) (q : list addr) : Prop := {
  inv_pool : heap (mem s) !! pool s = Some (OPool p);
  inv_queue : queue_rep (heap (mem s)) p q;
  inv_fifo : dequeued s ++ entries (heap (mem s)) q = submitted s;
  inv_owned : owned (heap (mem s)) (q ++ held (pcs s));
  inv_lock : lock_discipline s;
  inv_points : ∀ t l, pcs s !! t = Some l → point_ok (heap (mem s)) p l
}.

Definition Inv (s : state) : Prop := ∃ p q, InvAt s p q.

(** The number of statements a thread at [l] runs at most until it has
    left the critical section. *)
Definition cs_bound (l : pc) : nat :=
  match l with
  | WCheck => 5
  | WExitTest => 4
  | WRead => 3
  | WAdvance _ | CAddLink _ | CJoinSet => 2
  | WExitLeave | WLeave _ | CAddLeave | CJoinLeave | WReport _ => 1
  | _ => 0
  end.

(** The blocks of the records [L]: the records and their argument
    buffers. *)
Definition foot (h : gmap addr obj) (L : list addr) : list addr :=
  L ++ args_of h L.

(** With respect to the heap [h0]: the blocks of the queued and the held
    records are not blocks of [h0], and every other block but the pool
    struct is as in [h0], allocated or not. *)
Definition framed (h0 : gmap addr obj) (s : state) (q : list addr) : Prop :=
  (∀ y, y ∈ foot (heap (mem s)) (q ++ held (pcs s)) → h0 !! y = None) ∧
  (∀ y, y ∉ foot (heap (mem s)) (q ++ held (pcs s)) → y ≠ pool s →
        heap (mem s) !! y = h0 !! y).

Definition Framed (h0 : gmap addr obj) (s : state) : Prop :=
  proc s = Alive → ∀ p q, InvAt s p q → framed h0 s q.

End Safety.
Export Safety.

(** ** Invocations *)

Module Calls.

(** The callable and argument of an invocation event. *)
Definition call_of (e : event) : option (taskFunc * ptr) :=
  match e with
  | EvCall f a => Some (f, a)
  | _ => None
  end.

(** The invocations recorded in a trace, oldest first. *)
Definition calls (tr : list event) : list (taskFunc * ptr) := omap call_of tr.

(** The record a worker has dequeued and not yet invoked (it is at line 99
    or 102), by callable and argument. *)
Definition inflight (h : gmap addr obj) (l : pc) : option (taskFunc * ptr) :=
  match l with
  | WLeave (Some x) | WCall (Some x) => info h x
  | _ => None
  end.

Definition inflights (h : gmap addr obj) (ts : list pc)
    : list (taskFunc * ptr) :=
  omap (inflight h) ts.

(** A procedure that invokes no callable. *)
Definition Quiet {A} (m : M A) : Prop :=
  ∀ w w', world_after (m w) = Some w' → calls (trace w') = calls (trace w).

(** Every record dequeued so far has been invoked, or is held by the worker
    that is about to invoke it; nothing else has been invoked since the
    trace held the invocations [c0]. *)
Definition served (c0 : list (taskFunc * ptr)) (s : state) : Prop :=
  calls (trace (mem s)) ++ inflights (heap (mem s)) (pcs s)
  ≡ₚ c0 ++ (snd <$> dequeued s).

End Calls.
Export Calls.

(** * Properties of the procedures *)

Module PoolFacts.

(** Unfolding of the monad and of the typed accessors. *)
Ltac mstep :=
  unfold get_pool, set_pool, get_task, set_task, get_obj, put_obj,
    fprintf_stderr, modify, mbind, M_bind, bind, mret, M_ret, ret, fault,
    exit_failure in *; simpl in *.

Lemma bind_Ret_inv {A B} (m : M A) (k : A → M B) (w w' : world) (b : B) :
  (m ≫= k) w = Ret b w' → ∃ a w1, m w = Ret a w1 ∧ k a w1 = Ret b w'.
Proof.
  unfold mbind, M_bind, bind. destruct (m w) as [a w1| |]; [|done..]. eauto.
Qed.

Lemma bind_Ret {A B} (m : M A) (k : A → M B) (w w1 : world) (a : A) :
  m w = Ret a w1 → (m ≫= k) w = k a w1.
Proof. unfold mbind, M_bind, bind. by intros ->. Qed.

Lemma get_pool_at (a : addr) (p : ThreadPool) (w : world) :
  heap w !! a = Some (OPool p) → get_pool (Some a) w = Ret p w.
Proof. intros H. mstep. by repeat (rewrite H; simpl). Qed.

Lemma get_pool_inv (pool : ptr) (p : ThreadPool) (w w' : world) :
  get_pool pool w = Ret p w' →
  w' = w ∧ ∃ a, pool = Some a ∧ heap w !! a = Some (OPool p).
Proof.
  destruct pool as [a|]; mstep; [|done].
  destruct (heap w !! a) as [[]|] eqn:E; try done.
  intros [= -> ->]. eauto.
Qed.

Lemma set_pool_at (a : addr) (p : ThreadPool) f (w : world) :
  heap w !! a = Some (OPool p) →
  set_pool (Some a) f w = Ret tt (set_heap (insert a (OPool (f p))) w).
Proof. intros H. mstep. by repeat (rewrite H; simpl). Qed.

Lemma get_task_at (a : addr) (t : Task) (w : world) :
  heap w !! a = Some (OTask t) → get_task (Some a) w = Ret t w.
Proof. intros H. mstep. by repeat (rewrite H; simpl). Qed.

Lemma set_task_at (a : addr) (t : Task) f (w : world) :
  heap w !! a = Some (OTask t) →
  set_task (Some a) f w = Ret tt (set_heap (insert a (OTask (f t))) w).
Proof. intros H. mstep. by repeat (rewrite H; simpl). Qed.

Lemma free_at (a : addr) (o : obj) (w : world) :
  heap w !! a = Some o → free (Some a) w = Ret tt (set_heap (delete a) w).
Proof. intros H. unfold free. by rewrite H. Qed.

Section JoinAll.

Variable wait_workers : Z → ptr → M unit.

Lemma join_all_null (w : world) :
  thread_pool_join_all wait_workers NULL w = Ret tt w.
Proof. reflexivity. Qed.

Lemma join_all_stopped (pool : ptr) (w : world) :
  stopped pool w → thread_pool_join_all wait_workers pool w = Ret tt w.
Proof.
  intros (a & p & -> & Hp & Hr). unfold thread_pool_join_all.
  mstep. rewrite Hp. simpl. by rewrite Hr.
Qed.

(** A running pool: the flag is cleared between the lock events, every
    waiter is woken, and the caller blocks on the worker handles. *)
Lemma join_all_running (a : addr) (p : ThreadPool) (w : world) :
  heap w !! a = Some (OPool p) → running p ≠ 0 →
  thread_pool_join_all wait_workers (Some a) w =
    wait_workers (threadNum p) (threads p)
      {| heap := <[a := OPool (with_running 0 p)]> (heap w);
         trace := trace w ++ [EvEnter; EvLeave; EvWakeAll;
                              EvWaitAll (threadNum p) (threads p)] |}.
Proof.
  intros Hp Hr. unfold thread_pool_join_all. mstep.
  apply Z.eqb_neq in Hr.
  repeat (first [rewrite Hp | rewrite Hr | rewrite lookup_insert_eq]; simpl).
  unfold emit. simpl. by rewrite <- !(assoc_L (++)).
Qed.

End JoinAll.

End PoolFacts.

(** * Shutdown entry points *)

Module ShutdownFacts.
Import PoolFacts.

Section Idempotent.

Variable wait_workers : Z → ptr → M unit.

(** While the caller is blocked the workers do not restart the pool. *)
Hypothesis wait_keeps_stopped : ∀ pool n hs w w',
  stopped pool w → wait_workers n hs w = Ret tt w' → stopped pool w'.

(** C7.  [thread_pool_join_all] returns at once and changes nothing (heap
    and trace are the same) when the handle is [NULL] or the pool has
    already stopped; hence a second call right after a first one adds
    nothing: running it twice is running it once. *)
Theorem thread_pool_join_all_idempotent (pool : ptr) (w : world) :
  (pool = NULL → thread_pool_join_all wait_workers pool w = Ret tt w) ∧
  (stopped pool w → thread_pool_join_all wait_workers pool w = Ret tt w) ∧
  bind (thread_pool_join_all wait_workers pool)
       (λ _, thread_pool_join_all wait_workers pool) w
    = thread_pool_join_all wait_workers pool w.
Proof.
  split; [by intros ->|]. split; [apply join_all_stopped|].
  unfold bind.
  destruct (thread_pool_join_all wait_workers pool w) as [[] w1| |] eqn:E;
    [|done..].
  destruct pool as [a|]; [|done].
  destruct (heap w !! a) as [o|] eqn:Ha;
    [|unfold thread_pool_join_all in E; mstep; by rewrite Ha in E].
  destruct o as [|?|p| |];
    try (unfold thread_pool_join_all in E; mstep; by rewrite Ha in E).
  destruct (decide (running p = 0)) as [Hr|Hr].
  - assert (Hs : stopped (Some a) w) by (exists a, p; eauto).
    rewrite (join_all_stopped _ _ _ Hs) in E. injection E as <-.
    by apply join_all_stopped.
  - rewrite (join_all_running _ _ _ _ Ha Hr) in E.
    apply join_all_stopped. eapply wait_keeps_stopped; [|exact E].
    exists a, (with_running 0 p). simpl. by rewrite lookup_insert_eq.
Qed.

End Idempotent.

(** A running pool joined twice, the workers adding nothing. *)
Lemma thread_pool_join_all_idempotent_witness :
  bind (thread_pool_join_all (λ _ _, mret tt) (Some 1%positive))
       (λ _, thread_pool_join_all (λ _ _, mret tt) (Some 1%positive))
       main_world
  = thread_pool_join_all (λ _ _, mret tt) (Some 1%positive) main_world.
Proof.
  apply (thread_pool_join_all_idempotent (λ _ _, mret tt)).
  intros pool n hs w w' Hs [= <-]. exact Hs.
Defined.

(** C10.  A [NULL] handle is accepted by [thread_pool_join_all], which
    returns with the world unchanged, whereas [thread_pool_destroy] reads
    [pool->taskQueueHead] right after the join step and so has undefined
    behaviour on [NULL], whatever the world and the loop bound. *)
Theorem null_handle_asymmetry (wait_workers : Z → ptr → M unit) (w : world)
    (n : nat) :
  thread_pool_join_all wait_workers NULL w = Ret tt w ∧
  thread_pool_destroy wait_workers n NULL w = Some Fault.
Proof. split; [done|]. by destruct n. Qed.

End ShutdownFacts.

(** * Creation *)

Module CreateFacts.
Import PoolFacts.

Lemma spawned_length spawn n i :
  all_spawn spawn n i → length (spawned spawn n i) = n.
Proof.
  revert i. induction n as [|n IH]; intros i H; [done|]. simpl.
  destruct (H i) as [t Ht]; [lia|]. rewrite Ht. simpl. f_equal.
  apply IH. intros j Hj. apply H. lia.
Qed.

(** The loop when every [CreateThread] succeeds. *)
Lemma spawn_workers_ok spawn fmt (pa arr : addr) (p : ThreadPool) n :
  ∀ i w hs0,
    pa ≠ arr → threads p = Some arr →
    heap w !! pa = Some (OPool p) →
    (∃ o, heap w !! arr = Some o ∧ handles_of o = Some hs0) →
    i = Z.of_nat (length hs0) →
    all_spawn spawn n i →
    ∃ w', spawn_workers spawn fmt pa n i w = Ret tt w' ∧
          heap w' !! pa = Some (OPool p) ∧
          (∃ o, heap w' !! arr = Some o ∧
                handles_of o = Some (hs0 ++ spawned spawn n i)) ∧
          (∀ a, a ≠ arr → heap w' !! a = heap w !! a) ∧
          trace w' = trace w ++ (EvSpawn pa <$> spawned spawn n i).
Proof.
  induction n as [|n IH]; intros i w hs0 Hne Hthr Hp (o & Ho & Hhs) Hi Hall.
  - exists w. simpl. rewrite !app_nil_r. eauto 10.
  - destruct (Hall i) as [t Ht]; [lia|]. simpl. rewrite Ht.
    unfold store_handle. mstep. rewrite Hp. simpl. rewrite Hthr. simpl.
    rewrite Ho. simpl. rewrite Hhs. rewrite decide_True by done.
    simpl. rewrite Ho. simpl.
    edestruct (IH (i + 1)
                 {| heap := <[arr := OHandles (hs0 ++ [t])]> (heap w);
                    trace := trace w ++ [EvSpawn pa t] |} (hs0 ++ [t]))
      as (w' & Hrun & Hp' & Harr' & Hfr & Htr); try done.
    + simpl. by rewrite lookup_insert_ne.
    + simpl. rewrite lookup_insert_eq. eauto.
    + rewrite length_app. simpl. lia.
    + intros j Hj. apply Hall. lia.
    + exists w'. split; [exact Hrun|]. split; [done|]. split.
      * by rewrite <- (assoc_L (++)) in Harr'.
      * split.
        -- intros a Ha. rewrite Hfr by done. simpl. by rewrite lookup_insert_ne.
        -- rewrite Htr. simpl. by rewrite <- (assoc_L (++)).
Qed.

(** The loop when some [CreateThread] fails: the process ends, and the last
    thing written to [stderr] is the report of that failure. *)
Lemma spawn_workers_fail spawn fmt (pa arr : addr) (p : ThreadPool) n :
  ∀ i w hs0,
    pa ≠ arr → threads p = Some arr →
    heap w !! pa = Some (OPool p) →
    (∃ o, heap w !! arr = Some o ∧ handles_of o = Some hs0) →
    i = Z.of_nat (length hs0) →
    (∃ k, i ≤ k < i + Z.of_nat n ∧ spawn k = None) →
    ∃ w', spawn_workers spawn fmt pa n i w = Exit w' ∧
          last (trace w') = Some (EvStderr (createthread_report fmt)).
Proof.
  induction n as [|n IH]; intros i w hs0 Hne Hthr Hp (o & Ho & Hhs) Hi
    (k & Hk & Hnone); [lia|].
  simpl. destruct (spawn i) as [t|] eqn:Ht.
  - unfold store_handle. mstep. rewrite Hp. simpl. rewrite Hthr. simpl.
    rewrite Ho. simpl. rewrite Hhs. rewrite decide_True by done.
    simpl. rewrite Ho. simpl.
    apply (IH (i + 1) _ (hs0 ++ [t])); try done.
    + simpl. by rewrite lookup_insert_ne.
    + simpl. rewrite lookup_insert_eq. eauto.
    + rewrite length_app. simpl. lia.
    + exists k. split; [|done].
      destruct (decide (k = i)) as [->|]; [congruence|lia].
  - unfold print_last_system_error. destruct fmt as [m|]; mstep.
    + eexists. split; [done|]. simpl. by rewrite last_snoc.
    + eexists. split; [done|]. simpl. by rewrite last_snoc.
Qed.

(** The loop returns only when every [CreateThread] succeeded. *)
Lemma spawn_workers_ret spawn fmt (pa : addr) n :
  ∀ i w w', spawn_workers spawn fmt pa n i w = Ret tt w' → all_spawn spawn n i.
Proof.
  induction n as [|n IH]; intros i w w' H j Hj; [lia|].
  simpl in H. destruct (spawn i) as [t|] eqn:Ht.
  - destruct (decide (j = i)) as [->|Hji]; [by rewrite Ht|].
    apply bind_Ret_inv in H as (_ & w0 & _ & H).
    apply bind_Ret_inv in H as (p0 & w1 & _ & H).
    apply bind_Ret_inv in H as (_ & w2 & _ & H).
    eapply (IH (i + 1)); [exact H|lia].
  - unfold print_last_system_error in H. destruct fmt; mstep; done.
Qed.


(** C9.  With both allocations and every [CreateThread] successful,
    [create_thread_pool threadNum] returns a pool with an empty queue (head
    and tail [NULL]), [running = 1], and exactly [threadNum] spawned
    workers, whose handles are stored in [threads].  When the first or the
    second allocation fails, or some [CreateThread] fails, the process
    exits and the last output on [stderr] is the report of that failure
    (function and line of the [safe_malloc] call, or the
    [CreateThread() failed] message; when [FormatMessageA] fails as well,
    its own call site).  A pool is returned only when all of them
    succeeded. *)
Theorem create_thread_pool_spec (r1 r2 : ptr) (spawn : Z → option HANDLE)
    (fmt : option string) (threadNum : Z) (w : world) :
  0 ≤ threadNum →
  (∀ pa arr, r1 = Some pa → r2 = Some arr → pa ≠ arr →
     all_spawn spawn (Z.to_nat threadNum) 0 →
     ∃ w' hs,
       create_thread_pool r1 r2 spawn fmt threadNum w = Ret pa w' ∧
       heap w' !! pa =
         Some (OPool {| running := 1; threadNum := threadNum;
                        threads := Some arr;
                        taskQueueHead := NULL; taskQueueTail := NULL |}) ∧
       (∃ o, heap w' !! arr = Some o ∧ handles_of o = Some hs) ∧
       Z.of_nat (length hs) = threadNum ∧
       trace w' = trace w ++ (EvSpawn pa <$> hs)) ∧
  (r1 = None →
     create_thread_pool r1 r2 spawn fmt threadNum w =
       Exit (emit (EvStderr (malloc_report "create_thread_pool" 116)) w)) ∧
  (∀ pa, r1 = Some pa → r2 = None →
     ∃ w', create_thread_pool r1 r2 spawn fmt threadNum w = Exit w' ∧
           last (trace w') =
             Some (EvStderr (malloc_report "create_thread_pool" 120))) ∧
  (∀ pa arr, r1 = Some pa → r2 = Some arr → pa ≠ arr →
     (∃ k, 0 ≤ k < threadNum ∧ spawn k = None) →
     ∃ w', create_thread_pool r1 r2 spawn fmt threadNum w = Exit w' ∧
           last (trace w') = Some (EvStderr (createthread_report fmt))) ∧
  (∀ pa w', create_thread_pool r1 r2 spawn fmt threadNum w = Ret pa w' →
     r1 = Some pa ∧ is_Some r2 ∧ all_spawn spawn (Z.to_nat threadNum) 0).
Proof.
  intros Hn. repeat split.
  - intros pa arr -> -> Hne Hall.
    unfold create_thread_pool, underlying_safe_malloc, malloc. mstep.
    rewrite lookup_insert_ne by done. rewrite lookup_insert_eq. simpl.
    set (p := {| running := 1; threadNum := threadNum; threads := Some arr;
                 taskQueueHead := NULL; taskQueueTail := NULL |}).
    set (w1 := set_heap _ _).
    destruct (spawn_workers_ok spawn fmt pa arr p (Z.to_nat threadNum) 0 w1 [])
      as (w' & Hrun & Hp & Harr & _ & Htr); try done.
    + subst w1. simpl. by rewrite lookup_insert_eq.
    + subst w1. simpl. rewrite lookup_insert_ne by done.
      rewrite lookup_insert_eq. eauto.
    + rewrite Hrun. exists w', (spawned spawn (Z.to_nat threadNum) 0).
      repeat split; try done.
      rewrite spawned_length by done. lia.
  - intros ->. reflexivity.
  - intros pa -> ->.
    unfold create_thread_pool, underlying_safe_malloc, malloc. mstep.
    eexists. split; [done|]. simpl. by rewrite last_snoc.
  - intros pa arr -> -> Hne (k & Hk & Hnone).
    unfold create_thread_pool, underlying_safe_malloc, malloc. mstep.
    rewrite lookup_insert_ne by done. rewrite lookup_insert_eq. simpl.
    set (p := {| running := 1; threadNum := threadNum; threads := Some arr;
                 taskQueueHead := NULL; taskQueueTail := NULL |}).
    set (w1 := set_heap _ _).
    destruct (spawn_workers_fail spawn fmt pa arr p (Z.to_nat threadNum) 0 w1 [])
      as (w' & Hrun & Hlast); try done.
    + subst w1. simpl. by rewrite lookup_insert_eq.
    + subst w1. simpl. rewrite lookup_insert_ne by done.
      rewrite lookup_insert_eq. eauto.
    + exists k. split; [lia|done].
    + rewrite Hrun. eauto.
  - unfold create_thread_pool in H.
    apply bind_Ret_inv in H as (a & w1 & H1 & H).
    apply bind_Ret_inv in H as (a2 & w2 & _ & H).
    apply bind_Ret_inv in H as (u & w3 & _ & H).
    apply bind_Ret_inv in H as (u' & w4 & _ & H).
    injection H as -> _.
    unfold underlying_safe_malloc, malloc in H1.
    destruct r1 as [a1|]; [|done]. mstep. by injection H1 as -> _.
  - unfold create_thread_pool in H.
    apply bind_Ret_inv in H as (a & w1 & _ & H).
    apply bind_Ret_inv in H as (a2 & w2 & H2 & _).
    unfold underlying_safe_malloc, malloc in H2.
    destruct r2 as [a3|]; [eauto|done].
  - unfold create_thread_pool in H.
    apply bind_Ret_inv in H as (a & w1 & _ & H).
    apply bind_Ret_inv in H as (a2 & w2 & _ & H).
    apply bind_Ret_inv in H as (u & w3 & _ & H).
    apply bind_Ret_inv in H as ([] & w4 & H & _).
    by eapply spawn_workers_ret.
Qed.

Lemma create_thread_pool_spec_witness :
  ∃ w', create_thread_pool (Some 1%positive) (Some 2%positive) main_spawn
          None 4 (mkWorld ∅ []) = Ret 1%positive w'.
Proof.
  destruct (create_thread_pool_spec (Some 1%positive) (Some 2%positive)
              main_spawn None 4 (mkWorld ∅ [])) as [H _]; [lia|].
  destruct (H 1%positive 2%positive) as (w' & hs & Hc & _); try done.
  - intros j _. by eexists.
  - by exists w'.
Defined.

End CreateFacts.

(** * The statements that touch the queue *)

Module QueueFacts.
Import PoolFacts.

Lemma get_task_inv (t : ptr) (x : Task) (w w' : world) :
  get_task t w = Ret x w' →
  w' = w ∧ ∃ a, t = Some a ∧ heap w !! a = Some (OTask x).
Proof.
  destruct t as [a|]; mstep; [|done].
  destruct (heap w !! a) as [[]|] eqn:E; try done.
  intros [= -> ->]. eauto.
Qed.

Lemma set_pool_inv (pool : ptr) f (w w' : world) :
  set_pool pool f w = Ret tt w' →
  ∃ a p, pool = Some a ∧ heap w !! a = Some (OPool p) ∧
         w' = set_heap (insert a (OPool (f p))) w.
Proof.
  destruct pool as [a|]; mstep; [|done].
  destruct (heap w !! a) as [[]|] eqn:E; try done.
  simpl. rewrite ?E. simpl. intros [= <-]. eauto.
Qed.

Lemma set_task_inv (t : ptr) f (w w' : world) :
  set_task t f w = Ret tt w' →
  ∃ a x, t = Some a ∧ heap w !! a = Some (OTask x) ∧
         w' = set_heap (insert a (OTask (f x))) w.
Proof.
  destruct t as [a|]; mstep; [|done].
  destruct (heap w !! a) as [[]|] eqn:E; try done.
  simpl. rewrite ?E. simpl. intros [= <-]. eauto.
Qed.

Lemma free_inv (p : ptr) (w w' : world) :
  free p w = Ret tt w' →
  (p = NULL ∧ w' = w) ∨
  (∃ a o, p = Some a ∧ heap w !! a = Some o ∧ w' = set_heap (delete a) w).
Proof.
  destruct p as [a|]; simpl.
  - destruct (heap w !! a) as [o|] eqn:E; [|done]. intros [= <-]. eauto 10.
  - intros [= <-]. by left.
Qed.

(** Line 96 on a pool struct at [a]: the head is a record, and the only
    change is that the head now is that record's successor. *)
Lemma advance_head_inv (a : addr) (p : ThreadPool) (w w' : world) :
  heap w !! a = Some (OPool p) →
  advance_head (Some a) w = Ret tt w' →
  ∃ h t, taskQueueHead p = Some h ∧ heap w !! h = Some (OTask t) ∧
         w' = set_heap (insert a (OPool (with_head (next t) p))) w.
Proof.
  intros Hp H. unfold advance_head in H.
  rewrite (bind_Ret _ _ _ _ _ (get_pool_at _ _ _ Hp)) in H.
  apply bind_Ret_inv in H as (t & w1 & Ht & H).
  apply get_task_inv in Ht as (-> & h & Hh & Hht).
  rewrite (set_pool_at _ _ _ _ Hp) in H. injection H as <-. eauto.
Qed.

Lemma read_head_at (a : addr) (p : ThreadPool) (w : world) :
  heap w !! a = Some (OPool p) →
  read_head (Some a) w = Ret (taskQueueHead p) w.
Proof.
  intros Hp. unfold read_head.
  by rewrite (bind_Ret _ _ _ _ _ (get_pool_at _ _ _ Hp)).
Qed.

Lemma pop_head_inv (a : addr) (p : ThreadPool) (r : ptr) (w w' : world) :
  heap w !! a = Some (OPool p) →
  pop_head (Some a) w = Ret r w' →
  ∃ h t, r = Some h ∧ taskQueueHead p = Some h ∧
         heap w !! h = Some (OTask t) ∧
         w' = set_heap (insert a (OPool (with_head (next t) p))) w.
Proof.
  intros Hp H. unfold pop_head in H.
  rewrite (bind_Ret _ _ _ _ _ (read_head_at _ _ _ Hp)) in H.
  apply bind_Ret_inv in H as ([] & w1 & Ha & H). injection H as <- <-.
  apply (advance_head_inv _ _ _ _ Hp) in Ha as (h & t & Hh & Ht & ->).
  exists h, t. by rewrite Hh.
Qed.

(** Lines 208-214 on a pool struct at [a]. *)
Lemma enqueue_inv (a temp : addr) (p : ThreadPool) (w w' : world) :
  heap w !! a = Some (OPool p) →
  enqueue (Some a) temp w = Ret tt w' →
  (taskQueueHead p = NULL ∧
   w' = set_heap (insert a (OPool (with_head (Some temp)
                                     (with_tail (Some temp) p)))) w) ∨
  (∃ h tl t, taskQueueHead p = Some h ∧ taskQueueTail p = Some tl ∧
             heap w !! tl = Some (OTask t) ∧ tl ≠ a ∧
             w' = set_heap (insert a (OPool (with_tail (Some temp) p)))
                    (set_heap (insert tl (OTask (with_next (Some temp) t)))
                       w)).
Proof.
  intros Hp H. unfold enqueue in H.
  rewrite (bind_Ret _ _ _ _ _ (get_pool_at _ _ _ Hp)) in H.
  destruct (taskQueueHead p) as [h|] eqn:Hh.
  - right.
    apply bind_Ret_inv in H as ([] & w1 & Hs & H).
    apply set_task_inv in Hs as (tl & t & Htl & Ht & ->).
    assert (Hne : tl ≠ a) by (intros ->; congruence).
    assert (Hp1 : heap (set_heap (insert tl (OTask (with_next (Some temp) t)))
                          w) !! a = Some (OPool p))
      by (simpl; by rewrite lookup_insert_ne).
    rewrite (bind_Ret _ _ _ _ _ (get_pool_at _ _ _ Hp1)) in H.
    rewrite Htl in H.
    assert (Ht1 : heap (set_heap (insert tl (OTask (with_next (Some temp) t)))
                          w) !! tl = Some (OTask (with_next (Some temp) t)))
      by (simpl; by rewrite lookup_insert_eq).
    rewrite (bind_Ret _ _ _ _ _ (get_task_at _ _ _ Ht1)) in H.
    rewrite (set_pool_at _ _ _ _ Hp1) in H. injection H as <-.
    exists h, tl, t. eauto.
  - left. split; [done|].
    rewrite (bind_Ret _ _ _ _ _ (set_pool_at _ _ _ _ Hp)) in H.
    erewrite set_pool_at in H; [|simpl; by rewrite lookup_insert_eq].
    injection H as <-. simpl. unfold set_heap. simpl.
    by rewrite insert_insert_eq.
Qed.

(** One round of the loop of [thread_pool_destroy]. *)
Lemma drain_one_inv (a : addr) (p : ThreadPool) (w w' : world) :
  heap w !! a = Some (OPool p) →
  drain_one (Some a) w = Ret tt w' →
  ∃ h t w1, taskQueueHead p = Some h ∧ heap w !! h = Some (OTask t) ∧
            free (taskArgs t) w = Ret tt w1 ∧
            heap w1 !! a = Some (OPool p) ∧ h ≠ a ∧
            w' = set_heap (insert a (OPool (with_head (next t) p)))
                   (set_heap (delete h) w1).
Proof.
  intros Hp H. unfold drain_one in H.
  rewrite (bind_Ret _ _ _ _ _ (get_pool_at _ _ _ Hp)) in H.
  apply bind_Ret_inv in H as (t & w0 & Ht & H).
  apply get_task_inv in Ht as (-> & h & Hh & Hht).
  apply bind_Ret_inv in H as ([] & w1 & Hf & H).
  apply bind_Ret_inv in H as (p1 & w2 & Hp1 & H).
  apply get_pool_inv in Hp1 as (-> & a' & [= <-] & Hp1).
  assert (p1 = p) as ->.
  { apply free_inv in Hf as [[_ ->]|(b & o & _ & _ & ->)]; [congruence|].
    simpl in Hp1. destruct (decide (b = a)) as [->|];
      [by rewrite lookup_delete_eq in Hp1|].
    rewrite lookup_delete_ne in Hp1 by done. congruence. }
  rewrite Hh in H.
  apply bind_Ret_inv in H as ([] & w3 & Hf2 & H).
  assert (Hne : h ≠ a) by (intros ->; congruence).
  apply free_inv in Hf2 as [[? _]|(h' & o & [= <-] & Ho & ->)]; [done|].
  erewrite set_pool_at in H; [|simpl; by rewrite lookup_delete_ne].
  injection H as <-. exists h, t, w1. eauto 10.
Qed.

End QueueFacts.

(** * Head and tail *)

Module HeadTail.
Import PoolFacts QueueFacts.

(** The spawning loop leaves the pool struct as it is. *)
Lemma spawn_workers_pool spawn fmt (pa : addr) (p : ThreadPool) n :
  ∀ i w w', heap w !! pa = Some (OPool p) →
    spawn_workers spawn fmt pa n i w = Ret tt w' →
    heap w' !! pa = Some (OPool p).
Proof.
  induction n as [|n IH]; intros i w w' Hp H; [by injection H as <-|].
  simpl in H. destruct (spawn i) as [t|];
    [|unfold print_last_system_error in H; destruct fmt; by mstep].
  apply bind_Ret_inv in H as ([] & w0 & H0 & H). injection H0 as <-.
  assert (Hp0 : heap (emit (EvSpawn pa t) w) !! pa = Some (OPool p)) by done.
  rewrite (bind_Ret _ _ _ _ _ (get_pool_at _ _ _ Hp0)) in H.
  apply bind_Ret_inv in H as ([] & w1 & Hs & H).
  apply (IH _ _ _) in H; [done|].
  unfold store_handle in Hs. destruct (threads p) as [arr|]; [|done].
  apply bind_Ret_inv in Hs as (o & w2 & Ho & Hs). mstep.
  destruct (heap w !! arr) as [o'|] eqn:Harr; [|done].
  injection Ho as -> <-.
  destruct (handles_of o) as [hs|] eqn:Hhs; [|done].
  case_decide; [|done]. simpl in Hs. rewrite Harr in Hs.
  injection Hs as <-. simpl.
  rewrite lookup_insert_ne; [done|]. intros ->.
  rewrite Hp in Harr. injection Harr as <-. done.
Qed.

(** What [create_thread_pool] returns is a pool struct with [running = 1]
    and an empty queue. *)
Lemma create_pool_shape r1 r2 spawn fmt threadNum (w w' : world) (pa : addr) :
  create_thread_pool r1 r2 spawn fmt threadNum w = Ret pa w' →
  ∃ arr, heap w' !! pa =
           Some (OPool {| running := 1; threadNum := threadNum;
                          threads := Some arr;
                          taskQueueHead := NULL; taskQueueTail := NULL |}).
Proof.
  intros H. unfold create_thread_pool in H.
  apply bind_Ret_inv in H as (a & w1 & _ & H).
  apply bind_Ret_inv in H as (arr & w2 & _ & H).
  apply bind_Ret_inv in H as ([] & w3 & Hput & H).
  apply bind_Ret_inv in H as ([] & w4 & Hsp & H). injection H as <- <-.
  exists arr. eapply spawn_workers_pool; [|exact Hsp].
  mstep. destruct (heap w2 !! a); [|done]. injection Hput as <-.
  simpl. by rewrite lookup_insert_eq.
Qed.

(** After a successful enqueue, head and tail are both present. *)
Lemma enqueue_head_tail (a temp : addr) (p p' : ThreadPool) (w w' : world) :
  heap w !! a = Some (OPool p) →
  enqueue (Some a) temp w = Ret tt w' →
  heap w' !! a = Some (OPool p') →
  taskQueueHead p' ≠ NULL ∧ taskQueueTail p' = Some temp.
Proof.
  intros Hp H Hp'.
  apply (enqueue_inv _ _ _ _ _ Hp) in H
    as [[Hh ->]|(h & tl & t & Hh & Htl & Ht & Hne & ->)];
    simpl in Hp'; rewrite lookup_insert_eq in Hp'; injection Hp' as <-;
    simpl; [done|]. by rewrite Hh.
Qed.

(** A dequeue writes the head only. *)
Lemma pop_head_tail (a : addr) (p p' : ThreadPool) (r : ptr) (w w' : world) :
  heap w !! a = Some (OPool p) →
  pop_head (Some a) w = Ret r w' →
  heap w' !! a = Some (OPool p') →
  taskQueueTail p' = taskQueueTail p ∧ taskQueueHead p ≠ NULL.
Proof.
  intros Hp H Hp'.
  apply (pop_head_inv _ _ _ _ _ Hp) in H as (h & t & _ & Hh & _ & ->).
  simpl in Hp'. rewrite lookup_insert_eq in Hp'. injection Hp' as <-.
  simpl. by rewrite Hh.
Qed.

Lemma drain_eq (pool : ptr) (n : nat) (w : world) :
  drain pool n w =
    match get_pool pool w with
    | Ret p w' =>
        match taskQueueHead p with
        | None => Some (Ret tt w')
        | Some _ =>
            match n with
            | O => None
            | S n' =>
                match drain_one pool w' with
                | Ret _ w'' => drain pool n' w''
                | Exit w'' => Some (Exit w'')
                | Fault => Some Fault
                end
            end
        end
    | Exit w' => Some (Exit w')
    | Fault => Some Fault
    end.
Proof. by destruct n. Qed.

(** The drain loop writes the head only, and ends with no head. *)
Lemma drain_tail (n : nat) :
  ∀ (a : addr) (p p' : ThreadPool) (w w' : world),
    heap w !! a = Some (OPool p) →
    drain (Some a) n w = Some (Ret tt w') →
    heap w' !! a = Some (OPool p') →
    taskQueueTail p' = taskQueueTail p ∧ taskQueueHead p' = NULL.
Proof.
  induction n as [|n IH]; intros a p p' w w' Hp H Hp';
    rewrite drain_eq, (get_pool_at _ _ _ Hp) in H;
    destruct (taskQueueHead p) as [h|] eqn:Hh.
  - done.
  - injection H as <-. rewrite Hp in Hp'. by injection Hp' as <-.
  - destruct (drain_one (Some a) w) as [[] w1| |] eqn:Hd; [|done..].
    apply (drain_one_inv _ _ _ _ Hp) in Hd
      as (h' & t & w0 & _ & _ & _ & _ & _ & ->).
    eapply (IH a (with_head (next t) p)) in H as [Ht Hhd]; [| |exact Hp'].
    + by split.
    + simpl. by rewrite lookup_insert_eq.
  - injection H as <-. rewrite Hp in Hp'. by injection Hp' as <-.
Qed.

(** C2, as the code has it.  The created pool has neither head nor tail.
    [head == NULL] whenever [tail == NULL] is kept by the enqueue of
    [thread_pool_add_task] (which leaves both present), by the dequeue of
    the worker loop and by the drain loop of [thread_pool_destroy]; these
    two advance the head and never write the tail. *)
Theorem head_tail_weak_invariant :
  (∀ r1 r2 spawn fmt threadNum w pa w',
     create_thread_pool r1 r2 spawn fmt threadNum w = Ret pa w' →
     ∃ p, heap w' !! pa = Some (OPool p) ∧
          taskQueueHead p = NULL ∧ taskQueueTail p = NULL) ∧
  (∀ temp, preserves head_tail_weak (λ pool, enqueue pool temp)) ∧
  (∀ temp a p w w' p', heap w !! a = Some (OPool p) →
     enqueue (Some a) temp w = Ret tt w' →
     heap w' !! a = Some (OPool p') → head_tail_iff p') ∧
  preserves head_tail_weak pop_head ∧
  preserves_loop head_tail_weak drain ∧
  (∀ a p w r w' p', heap w !! a = Some (OPool p) →
     pop_head (Some a) w = Ret r w' → heap w' !! a = Some (OPool p') →
     taskQueueTail p' = taskQueueTail p) ∧
  (∀ n a p w w' p', heap w !! a = Some (OPool p) →
     drain (Some a) n w = Some (Ret tt w') → heap w' !! a = Some (OPool p') →
     taskQueueTail p' = taskQueueTail p).
Proof.
  split; [|split; [|split; [|split; [|split; [|split]]]]].
  - intros ???????? H. apply create_pool_shape in H as [arr H]. eauto.
  - intros temp a p w [] w' p' Hp _ H Hp' Htl.
    destruct (enqueue_head_tail _ _ _ _ _ _ Hp H Hp') as [_ Ht].
    congruence.
  - intros temp a p w w' p' Hp H Hp'.
    destruct (enqueue_head_tail _ _ _ _ _ _ Hp H Hp') as [Hh Ht].
    split; intros E; [done|]. congruence.
  - intros a p w r w' p' Hp Hw H Hp' Htl.
    destruct (pop_head_tail _ _ _ _ _ _ Hp H Hp') as [Ht Hh].
    rewrite Ht in Htl. by apply Hw in Htl.
  - intros n a p w w' p' Hp Hw H Hp' Htl.
    by destruct (drain_tail _ _ _ _ _ _ Hp H Hp').
  - intros a p w r w' p' Hp H Hp'.
    by destruct (pop_head_tail _ _ _ _ _ _ Hp H Hp').
  - intros n a p w w' p' Hp H Hp'.
    by destruct (drain_tail _ _ _ _ _ _ Hp H Hp').
Qed.

End HeadTail.

Module HeadTailCounter.
Import PoolFacts QueueFacts.

(** C2 as stated fails: a pool is created, one task is submitted, and the
    worker's dequeue removes it.  Before the dequeue head and tail are both
    present; after it the head is [NULL] and the tail still holds the
    address of the removed record. *)
Lemma dequeue_leaves_stale_tail :
  ∃ w0 w1 w2 p1 p2,
    create_thread_pool (Some 1%positive) (Some 2%positive) main_spawn None 1
      (mkWorld ∅ []) = Ret 1%positive w0 ∧
    thread_pool_add_task (Some 3%positive) None (Some 1%positive) 0%nat
      NULL 8 w0 = Ret tt w1 ∧
    heap w1 !! 1%positive = Some (OPool p1) ∧ head_tail_iff p1 ∧
    pop_head (Some 1%positive) w1 = Ret (Some 3%positive) w2 ∧
    heap w2 !! 1%positive = Some (OPool p2) ∧
    taskQueueHead p2 = NULL ∧ taskQueueTail p2 = Some 3%positive ∧
    ¬ head_tail_iff p2.
Proof.
  do 5 eexists.
  split; [vm_compute; reflexivity|].
  split; [vm_compute; reflexivity|].
  split; [vm_compute; reflexivity|].
  split; [split; intros [=]|].
  split; [vm_compute; reflexivity|].
  split; [vm_compute; reflexivity|].
  split; [reflexivity|]. split; [reflexivity|].
  intros [H _]. by specialize (H eq_refl).
Qed.

End HeadTailCounter.

(** * Linked records *)

Module ChainFacts.

Lemma lseg_frame (h h' : gmap addr obj) (q : list addr) :
  ∀ p r, (∀ a, a ∈ q → h' !! a = h !! a) → lseg h p q r → lseg h' p q r.
Proof.
  induction q as [|a q IH]; intros p r Hfr H; [done|].
  destruct H as (-> & t & Ht & H). split; [done|]. exists t. split.
  - rewrite Hfr; [done|]. by left.
  - apply IH; [|done]. intros b Hb. apply Hfr. by right.
Qed.

Lemma lseg_app (h : gmap addr obj) (q1 q2 : list addr) :
  ∀ p r, lseg h p (q1 ++ q2) r ↔ ∃ m, lseg h p q1 m ∧ lseg h m q2 r.
Proof.
  induction q1 as [|a q1 IH]; intros p r; simpl.
  - split; [eauto|]. by intros (m & -> & H).
  - split.
    + intros (-> & t & Ht & H). apply IH in H as (m & H1 & H2).
      exists m. eauto 10.
    + intros (m & (-> & t & Ht & H1) & H2). split; [done|].
      exists t. split; [done|]. apply IH. eauto.
Qed.

Lemma lseg_functional (h : gmap addr obj) (q1 : list addr) :
  ∀ q2 p, lseg h p q1 NULL → lseg h p q2 NULL → q1 = q2.
Proof.
  induction q1 as [|a q1 IH]; intros [|b q2] p H1 H2; simpl in *.
  - done.
  - destruct H2 as [-> _]. done.
  - destruct H1 as [-> _]. done.
  - destruct H1 as (-> & t1 & Ht1 & H1), H2 as ([= <-] & t2 & Ht2 & H2).
    rewrite Ht1 in Ht2. injection Ht2 as <-. f_equal. by eapply IH.
Qed.

(** A chain that reaches [NULL] visits no record twice. *)
Lemma chain_NoDup (h : gmap addr obj) (q : list addr) :
  ∀ p, chain h p q → NoDup q.
Proof.
  unfold chain. induction q as [|a q IH]; intros p H; [constructor|].
  pose proof H as (-> & t & Ht & Hq). constructor; [|by eapply IH].
  intros Hin. apply list_elem_of_split in Hin as (l1 & l2 & ->).
  pose proof Hq as Hq'. apply lseg_app in Hq' as (m & _ & Hm).
  pose proof Hm as (-> & _).
  assert (E : a :: l1 ++ a :: l2 = a :: l2).
  { eapply lseg_functional; [exact H|exact Hm]. }
  apply (f_equal length) in E. simpl in E. rewrite length_app in E.
  simpl in E. lia.
Qed.

Lemma chain_head_alloc (h : gmap addr obj) (p : ptr) (q : list addr) (a : addr) :
  chain h p q → a ∈ q → ∃ t, h !! a = Some (OTask t).
Proof.
  unfold chain. revert p. induction q as [|b q IH]; intros p H Hin.
  - by apply elem_of_nil in Hin.
  - destruct H as (-> & t & Ht & H).
    apply elem_of_cons in Hin as [->|Hin]; [eauto|]. by eapply IH.
Qed.

(** The last record of a chain has no successor. *)
Lemma chain_snoc (h : gmap addr obj) (p : ptr) (q : list addr) (tl : addr) :
  chain h p (q ++ [tl]) ↔
  lseg h p q (Some tl) ∧ ∃ t, h !! tl = Some (OTask t) ∧ next t = NULL.
Proof.
  unfold chain. rewrite lseg_app. split.
  - intros (m & H1 & -> & t & Ht & Hn). simpl in Hn. eauto.
  - intros (H1 & t & Ht & Hn). exists (Some tl). split; [done|].
    simpl. eauto.
Qed.

End ChainFacts.

(** * Enqueue and dequeue on a well-formed queue *)

Module QueueRep.
Import PoolFacts QueueFacts ChainFacts.

Lemma same_but_links_refl h : same_but_links h h.
Proof. by intros x. Qed.

Lemma same_but_links_trans h1 h2 h3 :
  same_but_links h1 h2 → same_but_links h2 h3 → same_but_links h1 h3.
Proof. intros H1 H2 x. by rewrite H2, H1. Qed.

Lemma same_but_links_insert h (a : addr) (o o' : obj) :
  h !! a = Some o → unlink o' = unlink o →
  same_but_links h (<[a := o']> h).
Proof.
  intros Ha Hu x. destruct (decide (x = a)) as [->|].
  - rewrite lookup_insert_eq, Ha. simpl. by rewrite Hu.
  - by rewrite lookup_insert_ne.
Qed.

Lemma same_but_links_info h h' (x : addr) :
  same_but_links h h' → info h' x = info h x.
Proof.
  intros H. specialize (H x). unfold info.
  destruct (h !! x) as [[]|], (h' !! x) as [[]|]; simpl in H; try done;
    try (injection H as ??; congruence).
Qed.

Lemma same_but_links_bytes h h' (x : addr) bs :
  same_but_links h h' → h !! x = Some (OBytes bs) → h' !! x = Some (OBytes bs).
Proof.
  intros H Hx. specialize (H x). rewrite Hx in H.
  destruct (h' !! x) as [[]|]; simpl in H; by simplify_eq.
Qed.

Lemma same_but_links_none h h' (x : addr) :
  same_but_links h h' → h !! x = None → h' !! x = None.
Proof.
  intros H Hx. specialize (H x). rewrite Hx in H.
  by destruct (h' !! x).
Qed.

Lemma same_but_links_running h h' (a : addr) p p' :
  same_but_links h h' → h !! a = Some (OPool p) → h' !! a = Some (OPool p') →
  running p' = running p ∧ threadNum p' = threadNum p ∧ threads p' = threads p.
Proof.
  intros H Hp Hp'. specialize (H a). rewrite Hp, Hp' in H. simpl in H.
  by injection H as -> -> ->.
Qed.

Lemma last_cons_ne {A} (x : A) (q : list A) : q ≠ [] → last (x :: q) = last q.
Proof. by destruct q. Qed.

(** The enqueue on a well-formed queue [q] returns, and the queue then is
    [q ++ [temp]]; only links have changed, and only in the pool struct
    and in the old last record. *)
Lemma enqueue_rep (a temp : addr) (p : ThreadPool) (t0 : Task)
    (q : list addr) (w : world) :
  heap w !! a = Some (OPool p) →
  queue_rep (heap w) p q →
  heap w !! temp = Some (OTask t0) → next t0 = NULL → temp ∉ q →
  ∃ w' p',
    enqueue (Some a) temp w = Ret tt w' ∧
    heap w' !! a = Some (OPool p') ∧
    queue_rep (heap w') p' (q ++ [temp]) ∧
    same_but_links (heap w) (heap w') ∧
    (∀ x, x ≠ a → x ∉ q → heap w' !! x = heap w !! x) ∧
    trace w' = trace w.
Proof.
  intros Hp [Hch Htl] Htemp Hnext Hfresh.
  assert (Hta : temp ≠ a) by (intros ->; congruence).
  destruct q as [|h q0] using rev_ind.
  - (* empty queue *)
    assert (Hh : taskQueueHead p = NULL) by exact Hch.
    unfold enqueue. rewrite (bind_Ret _ _ _ _ _ (get_pool_at _ _ _ Hp)).
    rewrite Hh. cbv beta iota.
    rewrite (bind_Ret _ _ _ _ _ (set_pool_at _ _ _ _ Hp)).
    erewrite set_pool_at by (simpl; by rewrite lookup_insert_eq).
    do 2 eexists. split; [done|]. simpl. rewrite insert_insert_eq.
    rewrite lookup_insert_eq. split; [done|]. split; [|split; [|split]].
    + split; [|done]. simpl. split; [done|]. exists t0.
      rewrite lookup_insert_ne by done. by rewrite Hnext.
    + by eapply same_but_links_insert.
    + intros x Hx _. by rewrite lookup_insert_ne.
    + done.
  - (* the last record is [h] *)
    clear IHq0.
    assert (Hlast : taskQueueTail p = Some h).
    { rewrite Htl by (by destruct q0). by rewrite last_snoc. }
    pose proof (chain_NoDup _ _ _ Hch) as Hnd.
    apply NoDup_app in Hnd as (_ & Hdisj & _).
    apply chain_snoc in Hch as (Hseg & t & Ht & Hn).
    assert (Hha : h ≠ a) by (intros ->; congruence).
    assert (Hth : temp ≠ h) by (intros ->; apply Hfresh; set_solver).
    destruct (taskQueueHead p) as [hd|] eqn:Hhd.
    2:{ destruct q0; simpl in Hseg; [done|by destruct Hseg]. }
    unfold enqueue. rewrite (bind_Ret _ _ _ _ _ (get_pool_at _ _ _ Hp)).
    rewrite Hhd, Hlast.
    rewrite (bind_Ret _ _ _ _ _ (set_task_at _ _ _ _ Ht)).
    set (w1 := set_heap _ w).
    assert (Hp1 : heap w1 !! a = Some (OPool p))
      by (subst w1; simpl; by rewrite lookup_insert_ne).
    rewrite (bind_Ret _ _ _ _ _ (get_pool_at _ _ _ Hp1)). rewrite Hlast.
    assert (Ht1 : heap w1 !! h = Some (OTask (with_next (Some temp) t)))
      by (subst w1; simpl; by rewrite lookup_insert_eq).
    rewrite (bind_Ret _ _ _ _ _ (get_task_at _ _ _ Ht1)).
    rewrite (set_pool_at _ _ _ _ Hp1).
    do 2 eexists. split; [done|]. simpl. rewrite lookup_insert_eq.
    split; [done|]. split; [|split; [|split]].
    + split.
      * simpl. rewrite Hhd. apply chain_snoc. split.
        -- apply lseg_app. exists (Some h). split.
           ++ eapply lseg_frame; [|exact Hseg]. intros x Hx.
              rewrite !lookup_insert_ne; [done| |].
              ** intros ->. apply (Hdisj _ Hx). set_solver.
              ** intros Ex.
                 assert (Hq : chain (heap w) (Some hd) (q0 ++ [h]))
                   by (apply chain_snoc; eauto).
                 destruct (chain_head_alloc _ _ _ x Hq) as [t' Ht'];
                   [set_solver|congruence].
           ++ simpl. split; [done|].
              exists (with_next (Some temp) t). split; [|done].
              rewrite lookup_insert_ne by done. by rewrite lookup_insert_eq.
        -- exists t0. rewrite !lookup_insert_ne by done. done.
      * intros _. simpl. by rewrite last_snoc.
    + eapply same_but_links_trans.
      * by eapply (same_but_links_insert _ h _ (OTask (with_next (Some temp) t))).
      * eapply same_but_links_insert; [by rewrite lookup_insert_ne|done].
    + intros x Hxa Hxq. rewrite !lookup_insert_ne; [done| |done].
      intros ->. apply Hxq. set_solver.
    + done.
Qed.

(** Line 96 on a well-formed queue [h :: q] returns, and the queue then is
    [q]; only the head field of the pool struct has changed. *)
Lemma advance_head_rep (a h : addr) (p : ThreadPool) (q : list addr)
    (w : world) :
  heap w !! a = Some (OPool p) →
  queue_rep (heap w) p (h :: q) →
  ∃ t,
    heap w !! h = Some (OTask t) ∧ taskQueueHead p = Some h ∧
    advance_head (Some a) w =
      Ret tt (set_heap (insert a (OPool (with_head (next t) p))) w) ∧
    queue_rep (<[a := OPool (with_head (next t) p)]> (heap w))
      (with_head (next t) p) q ∧
    same_but_links (heap w) (<[a := OPool (with_head (next t) p)]> (heap w)).
Proof.
  intros Hp [Hch Htl]. pose proof Hch as (Hh & t & Ht & Hq).
  exists t. split; [done|]. split; [done|]. split; [|split].
  - unfold advance_head. rewrite (bind_Ret _ _ _ _ _ (get_pool_at _ _ _ Hp)).
    rewrite Hh. rewrite (bind_Ret _ _ _ _ _ (get_task_at _ _ _ Ht)).
    by rewrite (set_pool_at _ _ _ _ Hp).
  - split.
    + simpl. eapply lseg_frame; [|exact Hq]. intros x Hx.
      rewrite lookup_insert_ne; [done|]. intros Ex.
      destruct (chain_head_alloc _ _ _ x Hch) as [t' Ht'];
        [set_solver|congruence].
    + intros Hne. simpl. rewrite Htl by done. by apply last_cons_ne.
  - by eapply same_but_links_insert.
Qed.

End QueueRep.

(** * Submission *)

Module SubmitFacts.
Import PoolFacts QueueFacts ChainFacts QueueRep.

(** Lines 191-203 with a non-null argument. *)
Lemma build_task_copy (temp b src : addr) (f : taskFunc) (n : N)
    (bs : list Byte.byte) (w : world) :
  temp ≠ b → temp ≠ src → b ≠ src →
  heap w !! src = Some (OBytes bs) → (n ≤ N.of_nat (length bs))%N →
  build_task (Some temp) (Some b) f (Some src) n w =
    Ret temp
      {| heap := <[temp := OTask {| task := f; taskArgs := Some b;
                                    next := NULL |}]>
                   (<[b := OBytes (take (N.to_nat n) bs)]>
                      (<[b := OFresh n]>
                         (<[temp := OFresh sizeof_Task]> (heap w))));
         trace := trace w |}.
Proof.
  intros Htb Hts Hbs Hsrc Hn.
  unfold build_task, underlying_safe_malloc, malloc, memcpy. mstep.
  rewrite !lookup_insert_ne by done. rewrite Hsrc. simpl.
  destruct (N.ltb_spec (N.of_nat (length bs)) n) as [|_]; [lia|].
  simpl. rewrite lookup_insert_eq. simpl.
  rewrite lookup_insert_ne by done. rewrite lookup_insert_ne by done.
  by rewrite lookup_insert_eq.
Qed.

(** Lines 191-203 with a null argument: neither the second answer of the
    allocator nor [argsSize] is looked at. *)
Lemma build_task_null (temp : addr) (r2 : ptr) (f : taskFunc) (n : N)
    (w : world) :
  build_task (Some temp) r2 f NULL n w =
    Ret temp
      {| heap := <[temp := OTask {| task := f; taskArgs := NULL;
                                    next := NULL |}]>
                   (<[temp := OFresh sizeof_Task]> (heap w));
         trace := trace w |}.
Proof.
  unfold build_task, underlying_safe_malloc, malloc. mstep.
  by rewrite lookup_insert_eq.
Qed.

(** A queue is not disturbed by blocks allocated next to it. *)
Lemma queue_rep_frame (h h' : gmap addr obj) (p : ThreadPool) (q : list addr) :
  (∀ x, is_Some (h !! x) → h' !! x = h !! x) →
  queue_rep h p q → queue_rep h' p q.
Proof.
  intros Hfr [Hch Htl]. split; [|done].
  eapply lseg_frame; [|exact Hch]. intros x Hx. apply Hfr.
  destruct (chain_head_alloc _ _ _ x Hch Hx) as [t ->]. eauto.
Qed.

(** The whole of [thread_pool_add_task] on a well-formed queue, once the
    record is built in world [w1]. *)
Lemma add_task_link (a temp : addr) (p : ThreadPool) (t0 : Task)
    (q : list addr) (w1 : world) :
  heap w1 !! a = Some (OPool p) → queue_rep (heap w1) p q →
  heap w1 !! temp = Some (OTask t0) → next t0 = NULL → temp ∉ q →
  ∃ w2 p',
    (modify (emit EvEnter);; enqueue (Some a) temp;;
     modify (emit EvLeave);; modify (emit EvWake)) w1 = Ret tt w2 ∧
    heap w2 !! a = Some (OPool p') ∧
    queue_rep (heap w2) p' (q ++ [temp]) ∧
    same_but_links (heap w1) (heap w2) ∧
    (∀ x, x ≠ a → x ∉ q → heap w2 !! x = heap w1 !! x) ∧
    trace w2 = trace w1 ++ [EvEnter; EvLeave; EvWake].
Proof.
  intros Hp Hq Ht Hn Hfresh.
  destruct (enqueue_rep a temp p t0 q (emit EvEnter w1))
    as (w' & p' & He & Hp' & Hq' & Hs & Hfr & Htr); try done.
  exists (emit EvWake (emit EvLeave w')), p'. split.
  - unfold mbind, M_bind, bind, modify. simpl. by rewrite He.
  - simpl. repeat split; try done; try apply Hq'.
    rewrite Htr. simpl. by rewrite <- !(assoc_L (++)).
Qed.

(** C5.  On a pool with a well-formed queue, [thread_pool_add_task] with a
    non-null argument links a record whose argument pointer is the block
    the allocator has just handed out (unused before the call, hence not
    the caller's buffer) and which holds the first [argsSize] bytes of the
    caller's buffer; writing the caller's buffer afterwards does not change
    it.  With a [NULL] argument the record's argument pointer is [NULL],
    and neither [argsSize] nor the allocator's second answer has any effect
    on the outcome. *)
Theorem add_task_copies_argument (a temp : addr) (p : ThreadPool)
    (q : list addr) (f : taskFunc) (w : world) :
  heap w !! a = Some (OPool p) → queue_rep (heap w) p q →
  heap w !! temp = None →
  (∀ b src bs n,
     heap w !! b = None → temp ≠ b →
     heap w !! src = Some (OBytes bs) → (n ≤ N.of_nat (length bs))%N →
     ∃ w',
       thread_pool_add_task (Some temp) (Some b) (Some a) f (Some src) n w
         = Ret tt w' ∧
       info (heap w') temp = Some (f, Some b) ∧
       heap w' !! b = Some (OBytes (take (N.to_nat n) bs)) ∧
       b ≠ src ∧
       heap w' !! src = Some (OBytes bs) ∧
       ∀ bs', heap (set_heap (insert src (OBytes bs')) w') !! b
                = Some (OBytes (take (N.to_nat n) bs))) ∧
  (∀ r2 n,
     ∃ w',
       thread_pool_add_task (Some temp) r2 (Some a) f NULL n w = Ret tt w' ∧
       info (heap w') temp = Some (f, NULL) ∧
       ∀ r2' n',
         thread_pool_add_task (Some temp) r2' (Some a) f NULL n' w
           = Ret tt w').
Proof.
  intros Hp Hq Htemp.
  assert (Hta : temp ≠ a) by (intros ->; congruence).
  assert (Htq : temp ∉ q).
  { intros Hin. destruct Hq as [Hch _].
    destruct (chain_head_alloc _ _ _ _ Hch Hin). congruence. }
  split.
  - intros b src bs n Hb Htb Hsrc Hn.
    assert (Hbs : b ≠ src) by (intros ->; congruence).
    assert (Hts : temp ≠ src) by (intros ->; congruence).
    assert (Hba : b ≠ a) by (intros ->; congruence).
    unfold thread_pool_add_task.
    rewrite (bind_Ret _ _ _ _ _
               (build_task_copy _ _ _ f _ _ _ Htb Hts Hbs Hsrc Hn)).
    set (w1 := mkWorld _ _).
    assert (Hfr : ∀ x, is_Some (heap w !! x) → heap w1 !! x = heap w !! x).
    { intros x [o Hx]. subst w1. simpl.
      rewrite !lookup_insert_ne; [done|congruence..]. }
    destruct (add_task_link a temp p
                {| task := f; taskArgs := Some b; next := NULL |} q w1)
      as (w2 & p' & Hrun & Hp' & Hq' & Hs & Hfr' & Htr).
    + rewrite Hfr; eauto.
    + eapply queue_rep_frame; [exact Hfr|done].
    + subst w1. simpl. by rewrite lookup_insert_eq.
    + done.
    + done.
    + exists w2. split; [exact Hrun|].
      assert (Hb2 : heap w2 !! b = Some (OBytes (take (N.to_nat n) bs))).
      { eapply same_but_links_bytes; [exact Hs|]. subst w1. simpl.
        rewrite lookup_insert_ne by done. by rewrite lookup_insert_eq. }
      split; [|split; [done|split; [done|split]]].
      * rewrite (same_but_links_info _ _ _ Hs). unfold info. subst w1.
        simpl. by rewrite lookup_insert_eq.
      * eapply same_but_links_bytes; [exact Hs|]. rewrite Hfr; eauto.
      * intros bs'. simpl. by rewrite lookup_insert_ne.
  - intros r2 n. unfold thread_pool_add_task.
    rewrite (bind_Ret _ _ _ _ _ (build_task_null _ r2 f n _)).
    set (w1 := mkWorld _ _).
    assert (Hfr : ∀ x, is_Some (heap w !! x) → heap w1 !! x = heap w !! x).
    { intros x [o Hx]. subst w1. simpl.
      rewrite !lookup_insert_ne; [done|congruence..]. }
    destruct (add_task_link a temp p
                {| task := f; taskArgs := NULL; next := NULL |} q w1)
      as (w2 & p' & Hrun & Hp' & Hq' & Hs & Hfr' & Htr).
    + rewrite Hfr; eauto.
    + eapply queue_rep_frame; [exact Hfr|done].
    + subst w1. simpl. by rewrite lookup_insert_eq.
    + done.
    + done.
    + exists w2. split; [exact Hrun|]. split.
      * rewrite (same_but_links_info _ _ _ Hs). unfold info. subst w1.
        simpl. by rewrite lookup_insert_eq.
      * intros r2' n'.
        by rewrite (bind_Ret _ _ _ _ _ (build_task_null _ r2' f n' _)).
Qed.

(** The two submissions of [main], on the pool it creates. *)
Lemma add_task_copies_argument_witness :
  ∃ w', thread_pool_add_task (Some 3%positive) (Some 4%positive)
          (Some 1%positive) 1%nat (Some 9%positive) 4 main_world
        = Ret tt w' ∧
        heap w' !! 4%positive = Some (OBytes main_num).
Proof.
  destruct (add_task_copies_argument 1%positive 3%positive main_pool []
              1%nat main_world) as [H _]; try done.
  destruct (H 4%positive 9%positive main_num 4%N)
    as (w' & Hrun & _ & Hb & _); try done.
  exists w'. split; [exact Hrun|exact Hb].
Defined.

End SubmitFacts.

(** * Destruction *)

Module DestroyFacts.
Import PoolFacts QueueFacts ChainFacts QueueRep HeadTail.

Lemma arg_of_frame (h h' : gmap addr obj) (q : list addr) :
  (∀ x, x ∈ q → h' !! x = h !! x) → args_of h' q = args_of h q.
Proof.
  intros Hfr. unfold args_of. induction q as [|a q IH]; [done|].
  csimpl. assert (arg_of h' a = arg_of h a) as ->
    by (unfold arg_of; rewrite Hfr; [done|by left]).
  rewrite IH; [done|]. intros x Hx. apply Hfr. by right.
Qed.

(** The drain loop on a well-formed queue whose records own their
    argument buffers: it returns within [length q] rounds, every record
    and every argument buffer is freed, nothing else is touched but the
    head field, and no event is produced. *)
Lemma drain_rep (a : addr) (q : list addr) :
  ∀ (n : nat) (p : ThreadPool) (w : world),
    heap w !! a = Some (OPool p) →
    chain (heap w) (taskQueueHead p) q →
    owns_args (heap w) q →
    (length q ≤ n)%nat →
    ∃ w', drain (Some a) n w = Some (Ret tt w') ∧
          trace w' = trace w ∧
          heap w' !! a = Some (OPool (with_head NULL p)) ∧
          (∀ x, x ∈ q ∨ x ∈ args_of (heap w) q → heap w' !! x = None) ∧
          (∀ x, x ≠ a → x ∉ q → x ∉ args_of (heap w) q →
                heap w' !! x = heap w !! x).
Proof.
  induction q as [|h q IH]; intros n p w Hp Hch [Hnd Hal] Hn.
  - exists w. rewrite drain_eq, (get_pool_at _ _ _ Hp).
    replace (taskQueueHead p) with NULL by (symmetry; exact Hch).
    split; [done|]. split; [done|]. split.
    + rewrite Hp. do 2 f_equal. destruct p. simpl in *. unfold with_head.
      simpl. f_equal. exact Hch.
    + split; [|done]. intros x [Hx|Hx]; by apply elem_of_nil in Hx.
  - destruct n as [|n]; [simpl in Hn; lia|].
    pose proof (chain_NoDup _ _ _ Hch) as Hndq.
    apply NoDup_cons in Hndq as [Hhq Hndq].
    pose proof Hch as (Hh & t & Ht & Hq).
    assert (Hha : h ≠ a) by (intros ->; congruence).
    (* the argument buffer of [h] *)
    assert (Hargs : args_of (heap w) (h :: q)
                    = option_list (taskArgs t) ++ args_of (heap w) q).
    { unfold args_of. csimpl. unfold arg_of at 1. rewrite Ht.
      by destruct (taskArgs t). }
    assert (Hqa : ∀ x, x ∈ q → x ≠ a ∧ ∃ t', heap w !! x = Some (OTask t')).
    { intros x Hx. destruct (chain_head_alloc _ _ _ x Hq Hx) as [t' Ht'].
      split; [intros ->; congruence|eauto]. }
    set (h1 := match taskArgs t with
               | Some b => delete b (heap w)
               | None => heap w
               end).
    assert (Hf1 : free (taskArgs t) w = Ret tt (set_heap (λ _, h1) w)).
    { subst h1. destruct (taskArgs t) as [b|] eqn:Hb; [|by destruct w].
      destruct (Hal b) as [bs Hbs]; [rewrite Hargs; set_solver|].
      by rewrite (free_at _ _ _ Hbs). }
    assert (Hh1 : ∀ x, (taskArgs t ≠ Some x) → h1 !! x = heap w !! x).
    { intros x Hx. subst h1. destruct (taskArgs t) as [b|]; [|done].
      rewrite lookup_delete_ne; [done|congruence]. }
    assert (Hbt : ∀ x t', heap w !! x = Some (OTask t') → taskArgs t ≠ Some x).
    { intros x t' Hx Hb. destruct (Hal x) as [bs Hbs];
        [rewrite Hargs, Hb; set_solver|congruence]. }
    assert (Hba : taskArgs t ≠ Some a).
    { intros Hb. destruct (Hal a) as [bs Hbs];
        [rewrite Hargs, Hb; set_solver|congruence]. }
    set (w2 := set_heap (insert a (OPool (with_head (next t) p)))
                 (set_heap (delete h) (set_heap (λ _, h1) w))).
    assert (Hd : drain_one (Some a) w = Ret tt w2).
    { unfold drain_one.
      rewrite (bind_Ret _ _ _ _ _ (get_pool_at _ _ _ Hp)), Hh.
      rewrite (bind_Ret _ _ _ _ _ (get_task_at _ _ _ Ht)).
      rewrite (bind_Ret _ _ _ _ _ Hf1).
      assert (Hp1 : heap (set_heap (λ _, h1) w) !! a = Some (OPool p))
        by (simpl; by rewrite Hh1).
      rewrite (bind_Ret _ _ _ _ _ (get_pool_at _ _ _ Hp1)), Hh.
      assert (Ht1 : heap (set_heap (λ _, h1) w) !! h = Some (OTask t))
        by (simpl; rewrite Hh1; [done|by eapply Hbt]).
      rewrite (bind_Ret _ _ _ _ _ (free_at _ _ _ Ht1)).
      erewrite set_pool_at; [done|]. simpl.
      rewrite lookup_delete_ne by done. by rewrite Hh1. }
    assert (Hfr2 : ∀ x, x ∈ q → heap w2 !! x = heap w !! x).
    { intros x Hx. destruct (Hqa x Hx) as [Hxa [t' Ht']]. subst w2. simpl.
      rewrite lookup_insert_ne by done.
      rewrite lookup_delete_ne by (intros ->; done).
      apply Hh1. by eapply Hbt. }
    assert (Hargs2 : args_of (heap w2) q = args_of (heap w) q)
      by (by apply arg_of_frame).
    rewrite Hargs in Hnd. apply NoDup_app in Hnd as (_ & Hdisj & Hnd2).
    destruct (IH n (with_head (next t) p) w2)
      as (w' & Hrun & Htr & Hp' & Hgone & Hkept).
    + subst w2. simpl. by rewrite lookup_insert_eq.
    + simpl. eapply lseg_frame; [exact Hfr2|exact Hq].
    + split; [by rewrite Hargs2|]. intros b Hb. rewrite Hargs2 in Hb.
      destruct (Hal b) as [bs Hbs]; [rewrite Hargs; set_solver|].
      exists bs. subst w2. simpl.
      rewrite lookup_insert_ne by (intros ->; congruence).
      rewrite lookup_delete_ne by (intros ->; congruence).
      rewrite Hh1; [done|]. intros Hb'. apply (Hdisj b); [|done].
      rewrite Hb'. set_solver.
    + simpl in Hn. lia.
    + exists w'. split; [|split; [|split; [|split]]].
      * rewrite drain_eq, (get_pool_at _ _ _ Hp), Hh, Hd. exact Hrun.
      * by rewrite Htr.
      * exact Hp'.
      * intros x Hx. rewrite Hargs in Hx.
        destruct (decide (x ∈ q ∨ x ∈ args_of (heap w) q)) as [Hin|Hout].
        { apply Hgone. by rewrite Hargs2. }
        assert (Hxa : x ≠ a).
        { intros ->. destruct Hx as [Hx|Hx].
          - apply elem_of_cons in Hx as [->|Hx]; [done|]. apply Hout; eauto.
          - apply elem_of_app in Hx as [Hx|Hx]; [|apply Hout; eauto].
            destruct (taskArgs t); [|by apply elem_of_nil in Hx].
            apply list_elem_of_singleton in Hx as <-. done. }
        rewrite Hkept; [|done|tauto|rewrite Hargs2; tauto].
        subst w2. simpl. rewrite lookup_insert_ne by done.
        destruct (decide (x = h)) as [->|Hxh]; [by rewrite lookup_delete_eq|].
        rewrite lookup_delete_ne by done.
        destruct Hx as [Hx|Hx]; [set_solver|].
        apply elem_of_app in Hx as [Hx|Hx]; [|tauto].
        subst h1. destruct (taskArgs t) as [b|]; [|by apply elem_of_nil in Hx].
        apply list_elem_of_singleton in Hx as ->. by rewrite lookup_delete_eq.
      * intros x Hxa Hxq Hxargs. rewrite Hargs in Hxargs.
        rewrite Hkept; [|done|set_solver|rewrite Hargs2; set_solver].
        subst w2. simpl. rewrite lookup_insert_ne by done.
        rewrite lookup_delete_ne by set_solver.
        apply Hh1. intros Hb. apply Hxargs. rewrite Hb. set_solver.
Qed.

(** C6.  [thread_pool_destroy] runs [thread_pool_join_all] first.  From
    the world [w1] in which the join step returns, with [q] the records
    still queued (each owning its argument buffer), the loop drains the
    queue (the head is [NULL] when it ends), and after [free(pool)] every
    queued record, every argument buffer and the pool struct are freed
    while all other blocks are as they were.  Nothing is added to the
    trace after the join step: no callable of a queued record is
    invoked. *)
Theorem destroy_frees_queue (wait_workers : Z → ptr → M unit) (a : addr)
    (p : ThreadPool) (q : list addr) (w w1 : world) (n : nat) :
  thread_pool_join_all wait_workers (Some a) w = Ret tt w1 →
  heap w1 !! a = Some (OPool p) →
  queue_rep (heap w1) p q → owns_args (heap w1) q →
  (length q ≤ n)%nat →
  ∃ w2 w3,
    drain (Some a) n w1 = Some (Ret tt w2) ∧
    heap w2 !! a = Some (OPool (with_head NULL p)) ∧
    thread_pool_destroy wait_workers n (Some a) w = Some (Ret tt w3) ∧
    (∀ x, x = a ∨ x ∈ q ∨ x ∈ args_of (heap w1) q → heap w3 !! x = None) ∧
    (∀ x, x ≠ a → x ∉ q → x ∉ args_of (heap w1) q →
          heap w3 !! x = heap w1 !! x) ∧
    trace w3 = trace w1.
Proof.
  intros Hjoin Hp [Hch _] Hown Hn.
  destruct (drain_rep a q n p w1 Hp Hch Hown Hn)
    as (w2 & Hrun & Htr & Hp2 & Hgone & Hkept).
  exists w2, (set_heap (delete a) w2).
  split; [done|]. split; [done|]. split; [|split; [|split]].
  - unfold thread_pool_destroy. rewrite Hjoin, Hrun.
    by rewrite (free_at _ _ _ Hp2).
  - intros x [->|Hx]; simpl; [by rewrite lookup_delete_eq|].
    destruct (decide (x = a)) as [->|]; [by rewrite lookup_delete_eq|].
    rewrite lookup_delete_ne by done. by apply Hgone.
  - intros x Hxa Hxq Hxargs. simpl. rewrite lookup_delete_ne by done.
    by apply Hkept.
  - done.
Qed.

Lemma destroy_frees_queue_witness :
  ∃ w3, thread_pool_destroy (λ _ _, mret tt) 2 (Some 1%positive)
          pending_world = Some (Ret tt w3) ∧
        heap w3 !! 3%positive = None ∧ heap w3 !! 4%positive = None ∧
        heap w3 !! 5%positive = None ∧ heap w3 !! 1%positive = None ∧
        trace w3 = [].
Proof.
  destruct (destroy_frees_queue (λ _ _, mret tt) 1%positive pending_pool
              [3; 5]%positive pending_world pending_world 2)
    as (w2 & w3 & _ & _ & Hrun & Hgone & _ & Htr).
  - reflexivity.
  - reflexivity.
  - split; [|done]. simpl. split; [done|]. eexists. split; [reflexivity|].
    simpl. split; [done|]. eexists. split; [reflexivity|]. done.
  - split.
    + vm_compute. apply NoDup_singleton.
    + intros b Hb. vm_compute in Hb.
      apply list_elem_of_singleton in Hb as ->. by eexists.
  - simpl. lia.
  - exists w3. split; [exact Hrun|].
    repeat split; try (apply Hgone); try done.
    + right. left. set_solver.
    + right. right. vm_compute. set_solver.
    + right. left. set_solver.
    + by left.
Defined.

End DestroyFacts.

(** * The running flag *)

Module FlagFacts.
Import PoolFacts QueueFacts HeadTail.

Section Steady.

Variable a : addr.

Lemma pool_steady_refl h : pool_steady a h h.
Proof. intros p' H. eauto. Qed.

Lemma pool_steady_trans h1 h2 h3 :
  pool_steady a h1 h2 → pool_steady a h2 h3 → pool_steady a h1 h3.
Proof.
  intros H12 H23 p3 H3. destruct (H23 _ H3) as (p2 & H2 & Hr23).
  destruct (H12 _ H2) as (p1 & H1 & Hr12). exists p1. split; [done|].
  destruct Hr23 as [->|]; [done|by right].
Qed.

Lemma Steady_ret {A} (x : A) : Steady a (mret x).
Proof. intros w w' [= <-]. apply pool_steady_refl. Qed.

Lemma Steady_fault {A} : Steady a (@fault A).
Proof. by intros w w' H. Qed.

Lemma Steady_exit {A} : Steady a (@exit_failure A).
Proof. intros w w' [= <-]. apply pool_steady_refl. Qed.

Lemma Steady_bind {A B} (m : M A) (k : A → M B) :
  Steady a m → (∀ x, Steady a (k x)) → Steady a (m ≫= k).
Proof.
  intros Hm Hk w w' H. unfold mbind, M_bind, bind in H.
  destruct (m w) as [x w1|w1|] eqn:E.
  - eapply pool_steady_trans; [apply Hm; by rewrite E|by eapply Hk].
  - apply Hm. by rewrite E.
  - done.
Qed.

Lemma Steady_emit (e : event) : Steady a (modify (emit e)).
Proof. intros w w' [= <-]. apply pool_steady_refl. Qed.

Lemma Steady_get_obj (x : addr) : Steady a (get_obj x).
Proof.
  intros w w' H. unfold get_obj in H. destruct (heap w !! x); [|done].
  injection H as <-. apply pool_steady_refl.
Qed.

Lemma Steady_put_obj (x : addr) (o : obj) :
  (∀ p, o ≠ OPool p) → Steady a (put_obj x o).
Proof.
  intros Ho w w' H. unfold put_obj in H. destruct (heap w !! x); [|done].
  injection H as <-. intros p' Hp'. simpl in Hp'.
  destruct (decide (x = a)) as [->|].
  - rewrite lookup_insert_eq in Hp'. injection Hp' as ->. by destruct (Ho p').
  - rewrite lookup_insert_ne in Hp' by done. eauto.
Qed.

Lemma Steady_malloc (len : N) (r : ptr) : Steady a (malloc len r).
Proof.
  intros w w' H. destruct r as [x|]; injection H as <-;
    [|apply pool_steady_refl].
  intros p' Hp'. simpl in Hp'. destruct (decide (x = a)) as [->|].
  - by rewrite lookup_insert_eq in Hp'.
  - rewrite lookup_insert_ne in Hp' by done. eauto.
Qed.

Lemma Steady_free (p : ptr) : Steady a (free p).
Proof.
  intros w w' H. destruct p as [x|]; simpl in H.
  - destruct (heap w !! x); [|done]. injection H as <-.
    intros p' Hp'. simpl in Hp'. apply lookup_delete_Some in Hp' as [_ Hp'].
    eauto.
  - injection H as <-. apply pool_steady_refl.
Qed.

Lemma Steady_set_pool (pool : ptr) (f : ThreadPool → ThreadPool) :
  (∀ p, running (f p) = running p ∨ running (f p) = 0) →
  Steady a (set_pool pool f).
Proof.
  intros Hf w w' H. destruct pool as [x|]; [|done]. mstep.
  destruct (heap w !! x) as [[| |p| |]|] eqn:Hx; try done.
  simpl in H. rewrite Hx in H. injection H as <-.
  intros p' Hp'. simpl in Hp'. destruct (decide (x = a)) as [->|].
  - rewrite lookup_insert_eq in Hp'. injection Hp' as <-. eauto.
  - rewrite lookup_insert_ne in Hp' by done. eauto.
Qed.

Lemma Steady_get_pool (pool : ptr) : Steady a (get_pool pool).
Proof.
  destruct pool as [x|]; [|apply Steady_fault]. unfold get_pool.
  apply Steady_bind; [apply Steady_get_obj|].
  intros []; first [apply Steady_fault|apply Steady_ret].
Qed.

Lemma Steady_get_task (t : ptr) : Steady a (get_task t).
Proof.
  destruct t as [x|]; [|apply Steady_fault]. unfold get_task.
  apply Steady_bind; [apply Steady_get_obj|].
  intros []; first [apply Steady_fault|apply Steady_ret].
Qed.

Lemma Steady_set_task (t : ptr) f : Steady a (set_task t f).
Proof.
  destruct t as [x|]; [|apply Steady_fault]. unfold set_task.
  apply Steady_bind; [apply Steady_get_obj|].
  intros []; first [apply Steady_fault|by apply Steady_put_obj].
Qed.

Lemma Steady_safe_malloc len f l r :
  Steady a (underlying_safe_malloc len f l r).
Proof.
  unfold underlying_safe_malloc. apply Steady_bind; [apply Steady_malloc|].
  intros [x|]; [apply Steady_ret|].
  apply Steady_bind; [apply Steady_emit|intros; apply Steady_exit].
Qed.

Lemma Steady_memcpy (dst src : addr) (n : N) : Steady a (memcpy dst src n).
Proof.
  unfold memcpy. apply Steady_bind; [apply Steady_get_obj|].
  intros []; try apply Steady_fault.
  case_match; [apply Steady_fault|by apply Steady_put_obj].
Qed.

Lemma Steady_print msg fmt : Steady a (print_last_system_error msg fmt).
Proof.
  unfold print_last_system_error. destruct fmt; [apply Steady_emit|].
  apply Steady_bind; [apply Steady_emit|intros; apply Steady_exit].
Qed.

Lemma Steady_build_task r1 r2 f args n : Steady a (build_task r1 r2 f args n).
Proof.
  unfold build_task. apply Steady_bind; [apply Steady_safe_malloc|].
  intros temp. apply Steady_bind.
  - destruct args; [|apply Steady_ret].
    apply Steady_bind; [apply Steady_safe_malloc|]. intros b.
    apply Steady_bind; [apply Steady_memcpy|intros; apply Steady_ret].
  - intros args'. apply Steady_bind; [by apply Steady_put_obj|].
    intros; apply Steady_ret.
Qed.

Lemma Steady_enqueue pool temp : Steady a (enqueue pool temp).
Proof.
  unfold enqueue. apply Steady_bind; [apply Steady_get_pool|]. intros p.
  destruct (taskQueueHead p).
  - apply Steady_bind; [apply Steady_set_task|]. intros _.
    apply Steady_bind; [apply Steady_get_pool|]. intros p'.
    apply Steady_bind; [apply Steady_get_task|]. intros t.
    apply Steady_set_pool. by left.
  - apply Steady_bind; [apply Steady_set_pool; by left|].
    intros _. apply Steady_set_pool. by left.
Qed.

Lemma Steady_read_head pool : Steady a (read_head pool).
Proof.
  unfold read_head. apply Steady_bind; [apply Steady_get_pool|].
  intros; apply Steady_ret.
Qed.

Lemma Steady_advance_head pool : Steady a (advance_head pool).
Proof.
  unfold advance_head. apply Steady_bind; [apply Steady_get_pool|]. intros p.
  apply Steady_bind; [apply Steady_get_task|]. intros t.
  apply Steady_set_pool. by left.
Qed.

Lemma Steady_stop pool : Steady a (set_pool pool (with_running 0)).
Proof. apply Steady_set_pool. by right. Qed.

Lemma Steady_call_task h : Steady a (call_task h).
Proof.
  unfold call_task. apply Steady_bind; [apply Steady_get_task|].
  intros; apply Steady_emit.
Qed.

Lemma Steady_free_task h : Steady a (free_task h).
Proof.
  unfold free_task. apply Steady_bind; [apply Steady_get_task|]. intros t.
  apply Steady_bind; [apply Steady_free|]. intros; apply Steady_free.
Qed.

End Steady.

Lemma inert_goto t l : inert (goto t l).
Proof. by intros s. Qed.

Lemma inert_release t l : inert (release t l).
Proof. intros s. unfold release. by case_decide. Qed.

(** The continuations used by [step] are inert. *)
Ltac solve_inert :=
  let x := fresh in let s1 := fresh in
  intros x s1; cbv beta; repeat case_match;
  first [done | apply inert_release].

Lemma exec_steady {A} (m : M A) (k : A → state → state) (s : state) :
  Steady (pool s) m → (∀ x, inert (k x)) →
  pool (exec m k s) = pool s ∧
  pool_steady (pool s) (heap (mem s)) (heap (mem (exec m k s))).
Proof.
  intros Hm Hk. unfold exec. destruct (m (mem s)) as [x w'|w'|] eqn:E.
  - destruct (Hk x (with_mem w' s)) as [-> ->]. split; [done|].
    apply Hm. by rewrite E.
  - split; [done|]. apply Hm. by rewrite E.
  - split; [done|]. apply pool_steady_refl.
Qed.

Lemma acquire_steady t l s s' :
  acquire t l s = Some s' →
  pool s' = pool s ∧ heap (mem s') = heap (mem s).
Proof.
  unfold acquire. destruct (mutex s); [done|]. by intros [= <-].
Qed.

(** Case analysis on the program point and the choice of a step. *)
Ltac step_cases H :=
  unfold step in H;
  match type of H with
  | context [proc ?s] => destruct (proc s) eqn:?; [|done..]
  end;
  match type of H with
  | context [pcs ?s !! ?t] =>
      let l := fresh "l" in
      destruct (pcs s !! t) as [l|] eqn:?; [destruct l|]
  end;
  match type of H with
  | context [match ?c with Go => _ | _ => _ end] => destruct c
  | _ => idtac
  end;
  try discriminate H.

Ltac solve_steady :=
  first [ exact (Steady_get_pool _ _)
        | exact (Steady_print _ _ _)
        | exact (Steady_read_head _ _)
        | exact (Steady_advance_head _ _)
        | exact (Steady_call_task _ _)
        | exact (Steady_free_task _ _)
        | exact (Steady_enqueue _ _ _)
        | exact (Steady_emit _ _)
        | exact (Steady_build_task _ _ _ _ _ _)
        | exact (Steady_stop _ _)
        | exact (Steady_bind _ _ _ (Steady_get_pool _ _)
                   (λ _, Steady_emit _ _)) ].

Ltac use_exec_steady :=
  match goal with
  | |- context [exec ?m ?k ?s] =>
      let Hm := fresh in
      assert (Hm : Steady (pool s) m) by solve_steady;
      apply (exec_steady m k s Hm)
  end.

(** No step restarts the pool: across a step the pool struct stays where
    it is and [running] is unchanged or cleared. *)
Lemma step_steady t c s s' :
  step t c s = Some s' →
  pool s' = pool s ∧
  pool_steady (pool s) (heap (mem s)) (heap (mem s')).
Proof.
  intros H. step_cases H;
    try (apply acquire_steady in H as [-> ->]; split;
         [done|apply pool_steady_refl]);
    try (case_match; [|done]);
    try (apply (inj Some) in H; subst s';
         first
           [ use_exec_steady; solve_inert
           | split; [apply inert_release|];
             rewrite (proj2 (inert_release _ _ _));
             apply pool_steady_refl ]).
Qed.

Lemma run_steady ls : ∀ s s',
  run ls s = Some s' →
  pool s' = pool s ∧
  pool_steady (pool s) (heap (mem s)) (heap (mem s')).
Proof.
  induction ls as [|[t c] ls IH]; intros s s' H; simpl in H.
  - injection H as <-. split; [done|apply pool_steady_refl].
  - destruct (step t c s) as [s1|] eqn:E; [|done].
    apply step_steady in E as [E1 E2]. apply IH in H as [H1 H2].
    rewrite H1, E1. split; [done|]. rewrite E1 in H2.
    by eapply pool_steady_trans.
Qed.

End FlagFacts.

(** * Control flow and the mutex *)

Module FlowFacts.
Import PoolFacts FlagFacts.

Lemma exec_shape {A} (m : M A) (k : A → state → state) (s : state)
    (P : state → Prop) :
  (∀ w', P (with_proc Halted (with_mem w' s))) →
  P (with_proc Undefined s) →
  (∀ x w', m (mem s) = Ret x w' → P (k x (with_mem w' s))) →
  P (exec m k s).
Proof.
  intros HE HF HR. unfold exec. destruct (m (mem s)); eauto.
Qed.

Lemma flows_goto t c s0 s l l' :
  pcs s0 !! t = Some l → pcs s = pcs s0 → mutex s = mutex s0 →
  edge l l' Keep → is_report l' = false →
  flows t c s0 (goto t l' s).
Proof.
  intros Hl Hp Hm He Hr. right. exists l, l', Keep. simpl.
  rewrite Hp. by repeat split.
Qed.

Lemma flows_release t c s0 s l l' :
  pcs s0 !! t = Some l → pcs s = pcs s0 → mutex s = mutex s0 →
  edge l l' Rel → is_report l' = false →
  flows t c s0 (release t l' s).
Proof.
  intros Hl Hp Hm He Hr. unfold release. case_decide as Ho.
  - right. exists l, l', Rel. simpl. rewrite Hp, <- Hm. by repeat split.
  - left. by split.
Qed.

Lemma flows_acquire t c s s' l l' :
  pcs s !! t = Some l → edge l l' Acq →
  (wait_ok (t, c) = true → is_report l' = false) →
  acquire t l' s = Some s' → flows t c s s'.
Proof.
  intros Hl He Hr H. unfold acquire in H.
  destruct (mutex s) eqn:Hm; [done|]. injection H as <-.
  right. exists l, l', Acq. simpl. rewrite Hm. by repeat split.
Qed.

Lemma step_flows t c s s' : step t c s = Some s' → flows t c s s'.
Proof.
  intros H. step_cases H;
    try (eapply flows_acquire; [eassumption|constructor|done|exact H]);
    try (case_match; [|done]);
    apply (inj Some) in H; subst s';
    try (apply exec_shape;
         [ by left | by left
         | intros; repeat case_match; simpl;
           first [ by left
                 | eapply flows_goto; [eassumption|done|done|constructor|done]
                 | eapply flows_release;
                   [eassumption|done|done|constructor|done] ] ]);
    try (eapply flows_release; [eassumption|done|done|constructor|done]).
Qed.

Lemma lookup_goto (ts : list pc) (t t' : tid) (l' l0 : pc) :
  <[t := l']> ts !! t' = Some l0 →
  (t' = t ∧ l0 = l') ∨ (t' ≠ t ∧ ts !! t' = Some l0).
Proof.
  intros H. apply list_lookup_insert_Some in H as [(-> & -> & _)|[? ?]];
    [by left|by right].
Qed.

Lemma callers_own_flows t c s s' :
  flows t c s s' → callers_own s → callers_own s'.
Proof.
  intros [[Hp Hm]|(l & l' & k & Hl & Hp & He & Hk & _)] Hinv t' l0 Hl0 Hcs.
  - rewrite Hm. apply (Hinv t' l0); [by rewrite <- Hp|done].
  - rewrite Hp in Hl0. apply lookup_goto in Hl0 as [[-> ->]|[Hne Hl0]].
    + destruct He; simpl in *; try done; try (by destruct Hk);
        rewrite Hk; by eapply Hinv.
    + specialize (Hinv t' l0 Hl0 Hcs).
      destruct k; simpl in Hk; [congruence| |];
        destruct Hk as [Hk1 Hk2]; congruence.
Qed.

Lemma lock_discipline_flows t c s s' :
  flows t c s s' → wait_ok (t, c) = true →
  lock_discipline s → lock_discipline s'.
Proof.
  intros [[Hp Hm]|(l & l' & k & Hl & Hp & He & Hk & Hr)] Hok Hinv t' l0 Hl0.
  - rewrite Hm. apply Hinv. by rewrite <- Hp.
  - specialize (Hr Hok). rewrite Hp in Hl0.
    apply lookup_goto in Hl0 as [[-> ->]|[Hne Hl0]].
    + split; [done|]. destruct (Hinv t l Hl) as [Hnr Hcs].
      destruct He; simpl in *; try done;
        try (destruct Hk as [Hk1 Hk2]; rewrite Hk2; split; congruence);
        rewrite Hk; try done; split; try done; intros E;
        try (by apply Hcs in E); try (by apply Hcs).
    + destruct (Hinv t' l0 Hl0) as [Hnr Hcs]. split; [done|].
      destruct k; simpl in Hk.
      * by rewrite Hk.
      * destruct Hk as [Hk1 Hk2]. rewrite Hk2. rewrite Hk1 in Hcs.
        split; [intros E; by apply Hcs in E|congruence].
      * destruct Hk as [Hk1 Hk2]. rewrite Hk2. rewrite Hk1 in Hcs.
        split; [|done]. intros E. apply Hcs in E. congruence.
Qed.

Lemma boot_callers_own w a nw nc : callers_own (boot w a nw nc).
Proof.
  intros t l Hl Hcs. simpl in Hl.
  apply lookup_app_Some in Hl as [Hl|[_ Hl]];
    apply lookup_replicate in Hl as [-> _]; done.
Qed.

Lemma boot_lock_discipline w a nw nc : lock_discipline (boot w a nw nc).
Proof.
  intros t l Hl. simpl in Hl.
  apply lookup_app_Some in Hl as [Hl|[_ Hl]];
    apply lookup_replicate in Hl as [-> _]; by split.
Qed.

Lemma run_callers_own ls : ∀ s s',
  run ls s = Some s' → callers_own s → callers_own s'.
Proof.
  induction ls as [|[t c] ls IH]; intros s s' H Hinv; simpl in H.
  - by injection H as <-.
  - destruct (step t c s) as [s1|] eqn:E; [|done].
    eapply IH; [exact H|]. eapply callers_own_flows; [|exact Hinv].
    by eapply step_flows.
Qed.

Lemma run_lock_discipline ls : ∀ s s',
  run ls s = Some s' → forallb wait_ok ls = true →
  lock_discipline s → lock_discipline s'.
Proof.
  induction ls as [|[t c] ls IH]; intros s s' H Hok Hinv; simpl in H.
  - by injection H as <-.
  - destruct (step t c s) as [s1|] eqn:E; [|done].
    simpl in Hok. apply andb_true_iff in Hok as [Hok1 Hok2].
    eapply IH; [exact H|done|].
    eapply lock_discipline_flows; [|exact Hok1|exact Hinv].
    by eapply step_flows.
Qed.

End FlowFacts.

(** * The running flag over a schedule *)

Module RunningFacts.
Import PoolFacts QueueFacts HeadTail FlagFacts FlowFacts.

Lemma initial_main_state : initial main_state.
Proof.
  exists (Some 1%positive), (Some 2%positive), main_spawn, None, 4,
    start_world, main_world, 1%positive, 1%nat.
  split; [vm_compute; reflexivity|reflexivity].
Qed.

Lemma steady_stopped (a : addr) (h h' : gmap addr obj) (p p' : ThreadPool) :
  pool_steady a h h' → h !! a = Some (OPool p) → h' !! a = Some (OPool p') →
  running p = 0 → running p' = 0.
Proof.
  intros Hs Hp Hp' Hr. destruct (Hs _ Hp') as (p0 & Hp0 & Hrun).
  rewrite Hp in Hp0. injection Hp0 as <-. destruct Hrun; congruence.
Qed.

Lemma pool_of_Some (s : state) (p : ThreadPool) :
  pool_of s = Some p ↔ heap (mem s) !! pool s = Some (OPool p).
Proof.
  unfold pool_of. destruct (heap (mem s) !! pool s) as [[]|];
    split; intros H; by simplify_eq.
Qed.

(** C8.  In every schedule from a created pool: [running] is 1 at
    creation; from any state on, once it is 0 it is 0 in every later
    state ([running] only ever is 1 or 0); and the thread that executes
    line 157 of [thread_pool_join_all] owns the mutex, its step leaving
    [running = 0]. *)
Theorem running_never_restarts (s0 s : state) (ls : list (tid * choice)) :
  initial s0 → run ls s0 = Some s →
  (∃ p0, pool_of s0 = Some p0 ∧ running p0 = 1) ∧
  (∀ p, pool_of s = Some p → running p = 1 ∨ running p = 0) ∧
  (∀ ls' s' p p', run ls' s = Some s' →
     pool_of s = Some p → running p = 0 →
     pool_of s' = Some p' → running p' = 0) ∧
  (∀ t s' p', pcs s !! t = Some CJoinSet → step t Go s = Some s' →
     mutex s = Some t ∧ (pool_of s' = Some p' → running p' = 0)).
Proof.
  intros (r1 & r2 & spawn & fmt & n & w0 & w & a & nc & Hc & ->) Hrun.
  apply create_pool_shape in Hc as [arr Hc].
  assert (H0 : pool_of (boot w a (Z.to_nat n) nc) =
               Some {| running := 1; threadNum := n; threads := Some arr;
                       taskQueueHead := NULL; taskQueueTail := NULL |})
    by (apply pool_of_Some; exact Hc).
  split; [eauto|]. split; [|split].
  - intros p Hp. apply pool_of_Some in Hp.
    apply run_steady in Hrun as [Ha Hst]. rewrite Ha in Hp.
    destruct (Hst _ Hp) as (p0 & Hp0 & Hr). simpl in Hp0.
    rewrite Hc in Hp0. injection Hp0 as <-. simpl in Hr. tauto.
  - intros ls' s' p p' Hrun' Hp Hr Hp'.
    apply pool_of_Some in Hp, Hp'.
    apply run_steady in Hrun' as [Ha Hst]. rewrite Ha in Hp'.
    by eapply steady_stopped.
  - intros t s' p' Hl Hstep. split.
    + eapply (run_callers_own _ _ _ Hrun); [apply boot_callers_own|done..].
    + intros Hp'. apply pool_of_Some in Hp'.
      pose proof (step_steady _ _ _ _ Hstep) as [Ha Hst].
      rewrite Ha in Hp'. destruct (Hst _ Hp') as (p1 & Hp1 & _).
      unfold step in Hstep. rewrite Hl in Hstep.
      destruct (proc s); [|done..]. apply (inj Some) in Hstep. subst s'.
      unfold exec in Hp'. rewrite (set_pool_at _ _ _ _ Hp1) in Hp'.
      simpl in Hp'. rewrite lookup_insert_eq in Hp'. by injection Hp' as <-.
Qed.

Lemma running_never_restarts_witness :
  ∃ s, run main_schedule main_state = Some s ∧
       ∀ p, pool_of s = Some p → running p = 1 ∨ running p = 0.
Proof.
  destruct (run main_schedule main_state) as [s|] eqn:Hrun;
    [|vm_compute in Hrun; discriminate Hrun].
  exists s. split; [reflexivity|].
  apply (running_never_restarts main_state s main_schedule
           initial_main_state Hrun).
Defined.

End RunningFacts.

(** * The lock around the worker's accesses *)

Module LockFacts.
Import PoolFacts FlagFacts FlowFacts RunningFacts.

(** As long as no wait fails, a worker that is about to read or write
    [running], [head] or [tail] owns the mutex. *)
Lemma lock_held_when_waits_succeed (s0 s : state) (ls : list (tid * choice))
    (t : tid) (l : pc) :
  initial s0 → run ls s0 = Some s → forallb wait_ok ls = true →
  pcs s !! t = Some l → touches_queue l = true → mutex s = Some t.
Proof.
  intros (r1 & r2 & spawn & fmt & n & w0 & w & a & nc & _ & ->) Hrun Hok Hl Ht.
  pose proof (run_lock_discipline _ _ _ Hrun Hok
                (boot_lock_discipline _ _ _ _)) as Hd.
  destruct (Hd t l Hl) as [_ Hcs]. apply Hcs. by destruct l.
Qed.

(** The report of a failed wait ends with the mutex released. *)
Lemma report_releases (s s' : state) (t : tid) (fmt : option string) :
  pcs s !! t = Some (WReport fmt) → mutex s = Some t →
  step t Go s = Some s' → proc s' = Alive →
  mutex s' = None ∧ pcs s' !! t = Some WCheck.
Proof.
  intros Hl Hm Hstep Halive. unfold step in Hstep. rewrite Hl in Hstep.
  destruct (proc s) eqn:Hp; [|done..]. apply (inj Some) in Hstep. subst s'.
  unfold exec, print_last_system_error in *.
  destruct fmt as [m|]; simpl in *; [|done].
  unfold release in *. simpl in *. rewrite decide_True in * by done.
  simpl. split; [done|]. apply list_lookup_insert_eq.
  by eapply lookup_lt_Some.
Qed.

Lemma lock_held_when_waits_succeed_witness :
  ∃ s, run (take 12 main_schedule) main_state = Some s ∧
       mutex s = Some 0%nat.
Proof.
  destruct (run (take 12 main_schedule) main_state) as [s|] eqn:Hrun;
    [|vm_compute in Hrun; discriminate Hrun].
  assert (Hl : pcs s !! 0%nat = Some WExitTest).
  { pose proof Hrun as Hr. vm_compute in Hr. injection Hr as <-.
    vm_compute. reflexivity. }
  exists s. split; [reflexivity|].
  exact (lock_held_when_waits_succeed main_state s (take 12 main_schedule)
           0%nat WExitTest initial_main_state Hrun eq_refl Hl eq_refl).
Defined.

Lemma report_releases_witness :
  ∃ s s', run (take 3 failing_schedule) main_state = Some s ∧
          step 0 Go s = Some s' ∧ mutex s' = None.
Proof.
  destruct (run (take 3 failing_schedule) main_state) as [s|] eqn:Hrun;
    [|vm_compute in Hrun; discriminate Hrun].
  assert (Hl : pcs s !! 0%nat = Some (WReport (Some "timeout"))).
  { pose proof Hrun as Hr. vm_compute in Hr. injection Hr as <-.
    vm_compute. reflexivity. }
  assert (Hm : mutex s = Some 0%nat).
  { pose proof Hrun as Hr. vm_compute in Hr. injection Hr as <-.
    vm_compute. reflexivity. }
  destruct (step 0 Go s) as [s'|] eqn:Hstep.
  - assert (Ha : proc s' = Alive).
    { pose proof Hrun as Hr. pose proof Hstep as Hs. vm_compute in Hr.
      injection Hr as Es. rewrite <- Es in Hs. vm_compute in Hs.
      injection Hs as <-. reflexivity. }
    exists s, s'. split; [reflexivity|]. split; [exact Hstep|].
    exact (proj1 (report_releases s s' 0%nat (Some "timeout") Hl Hm Hstep
                    Ha)).
  - exfalso. vm_compute in Hrun. injection Hrun as <-.
    vm_compute in Hstep. discriminate Hstep.
Defined.

(** C3 on the code.  Worker 0 enters the critical section, finds the
    queue empty and waits; the wait returns 0; the worker reports the
    failure and leaves the critical section (line 85), which takes it back
    to the loop condition of line 82.  There it reads [head] and [running]
    while nobody owns the mutex, and the statement is executed. *)
Theorem wait_failure_reads_unlocked :
  ∃ s s',
    run failing_schedule main_state = Some s ∧
    proc s = Alive ∧
    pcs s !! 0%nat = Some WCheck ∧ touches_queue WCheck = true ∧
    mutex s = None ∧
    step 0 Go s = Some s'.
Proof.
  do 2 eexists.
  split; [vm_compute; reflexivity|].
  split; [reflexivity|]. split; [reflexivity|]. split; [reflexivity|].
  split; [reflexivity|]. vm_compute. reflexivity.
Qed.

(** What the unlocked accesses lead to: with two tasks queued, worker 0
    (without the mutex) and worker 1 (with it) both read the head at line
    95 before either advances it; the first record is dequeued twice and
    the second one is dropped from the queue without being dequeued. *)
Lemma wait_failure_double_dequeue :
  ∃ s p,
    run racing_schedule main_state = Some s ∧ proc s = Alive ∧
    submitted s = [(3%positive, (0%nat, NULL));
                   (5%positive, (1%nat, Some 6%positive))] ∧
    dequeued s = [(3%positive, (0%nat, NULL)); (3%positive, (0%nat, NULL))] ∧
    pool_of s = Some p ∧ taskQueueHead p = NULL.
Proof.
  do 2 eexists.
  split; [vm_compute; reflexivity|].
  split; [reflexivity|]. split; [reflexivity|]. split; [reflexivity|].
  split; [vm_compute; reflexivity|reflexivity].
Qed.

End LockFacts.

(** * Ownership of records *)

Module OwnFacts.
Import PoolFacts QueueFacts ChainFacts QueueRep.

Lemma keeps_refl h : keeps h h.
Proof. split; eauto. Qed.

Lemma keeps_trans h1 h2 h3 : keeps h1 h2 → keeps h2 h3 → keeps h1 h3.
Proof.
  intros [Ht1 Hb1] [Ht2 Hb2]. split; [|eauto].
  intros x t Hx. destruct (Ht1 _ _ Hx) as (t' & Hx' & E1 & E2).
  destruct (Ht2 _ _ Hx') as (t'' & Hx'' & E3 & E4).
  exists t''. split; [done|]. split; congruence.
Qed.

Lemma keeps_insert h (x : addr) (o' : obj) :
  agrees (h !! x) o' → keeps h (<[x := o']> h).
Proof.
  intros Ha. split.
  - intros y t Hy. destruct (decide (y = x)) as [->|].
    + rewrite Hy in Ha. destruct Ha as (t' & -> & E1 & E2).
      exists t'. by rewrite lookup_insert_eq.
    + exists t. by rewrite lookup_insert_ne.
  - intros y bs Hy. destruct (decide (y = x)) as [->|].
    + rewrite Hy in Ha. simpl in Ha. subst o'. by rewrite lookup_insert_eq.
    + by rewrite lookup_insert_ne.
Qed.

Lemma same_but_links_keeps h h' : same_but_links h h' → keeps h h'.
Proof.
  intros H. split.
  - intros x t Hx. specialize (H x). rewrite Hx in H.
    destruct (h' !! x) as [[|t'| | |]|]; simpl in H; try done.
    injection H as E1 E2. exists t'. by repeat split.
  - intros b bs Hb. by eapply same_but_links_bytes.
Qed.

Lemma keeps_info h h' (x : addr) (t : Task) :
  keeps h h' → h !! x = Some (OTask t) → info h' x = info h x.
Proof.
  intros [Hk _] Hx. destruct (Hk _ _ Hx) as (t' & Hx' & E1 & E2).
  unfold info. by rewrite Hx, Hx', E1, E2.
Qed.

Lemma keeps_arg_of h h' (x : addr) (t : Task) :
  keeps h h' → h !! x = Some (OTask t) → arg_of h' x = arg_of h x.
Proof.
  intros [Hk _] Hx. destruct (Hk _ _ Hx) as (t' & Hx' & E1 & E2).
  unfold arg_of. by rewrite Hx, Hx', E2.
Qed.

Lemma keeps_args_of h h' (L : list addr) :
  keeps h h' → (∀ x, x ∈ L → ∃ t, h !! x = Some (OTask t)) →
  args_of h' L = args_of h L.
Proof.
  intros Hk. unfold args_of. induction L as [|x L IH]; intros HL; [done|].
  csimpl. destruct (HL x) as [t Ht]; [by left|].
  rewrite (keeps_arg_of _ _ _ _ Hk Ht). rewrite IH; [done|].
  intros y Hy. apply HL. by right.
Qed.

Lemma keeps_entries h h' (q : list addr) :
  keeps h h' → (∀ x, x ∈ q → ∃ t, h !! x = Some (OTask t)) →
  entries h' q = entries h q.
Proof.
  intros Hk Hq. unfold entries. apply list_omap_ext.
  induction q as [|x q IH]; constructor.
  - destruct (Hq x) as [t Ht]; [by left|]. simpl.
    by rewrite (keeps_info _ _ _ _ Hk Ht).
  - apply IH. intros y Hy. apply Hq. by right.
Qed.

Lemma owned_keeps h h' (L : list addr) :
  keeps h h' → owned h L → owned h' L.
Proof.
  intros Hk (Hnd & Hal & Hnda & Hbytes).
  split; [done|]. split; [|split].
  - intros x Hx. destruct (Hal x Hx) as [t Ht].
    destruct (proj1 Hk _ _ Ht) as (t' & Ht' & _). eauto.
  - by rewrite (keeps_args_of _ _ _ Hk Hal).
  - intros b Hb. rewrite (keeps_args_of _ _ _ Hk Hal) in Hb.
    destruct (Hbytes b Hb) as [bs Hbs]. exists bs. by apply Hk.
Qed.

Lemma owned_perm h (L L' : list addr) : L ≡ₚ L' → owned h L → owned h L'.
Proof.
  intros HP (Hnd & Hal & Hnda & Hbytes).
  assert (HPa : args_of h L ≡ₚ args_of h L')
    by (unfold args_of; by rewrite HP).
  split; [by rewrite <- HP|]. split; [|split].
  - intros x Hx. apply Hal. by rewrite HP.
  - by rewrite <- HPa.
  - intros b Hb. apply Hbytes. by rewrite HPa.
Qed.

(** A record of an owned list is none of the argument buffers. *)
Lemma owned_rec_not_arg h (L : list addr) (x : addr) :
  owned h L → x ∈ L → x ∉ args_of h L.
Proof.
  intros (_ & Hal & _ & Hbytes) Hx Hb.
  destruct (Hal x Hx) as [t Ht], (Hbytes x Hb) as [bs Hbs]. congruence.
Qed.

Lemma args_of_app h (L1 L2 : list addr) :
  args_of h (L1 ++ L2) = args_of h L1 ++ args_of h L2.
Proof. unfold args_of. apply omap_app. Qed.

Lemma args_of_cons h (x : addr) (L : list addr) :
  args_of h (x :: L) = option_list (arg_of h x) ++ args_of h L.
Proof. unfold args_of. csimpl. by destruct (arg_of h x). Qed.

(** Program points and held records. *)
Lemma held_goto_same (ts : list pc) (t : tid) (l l' : pc) :
  ts !! t = Some l → held_rec l' = held_rec l →
  held (<[t := l']> ts) = held ts.
Proof.
  revert t. induction ts as [|l0 ts IH]; intros [|t] Hl E; simpl in *;
    try done.
  - injection Hl as ->. unfold held. csimpl. by rewrite E.
  - unfold held in *. csimpl. by rewrite (IH t Hl E).
Qed.

Lemma held_goto (ts : list pc) (t : tid) (l l' : pc) :
  ts !! t = Some l →
  ∃ rest, held ts ≡ₚ option_list (held_rec l) ++ rest ∧
          held (<[t := l']> ts) ≡ₚ option_list (held_rec l') ++ rest.
Proof.
  revert t. induction ts as [|l0 ts IH]; intros [|t] Hl; simpl in *;
    try done.
  - injection Hl as ->. exists (held ts). unfold held. csimpl.
    split; [by destruct (held_rec l)|by destruct (held_rec l')].
  - destruct (IH t Hl) as (rest & H1 & H2).
    exists (option_list (held_rec l0) ++ rest). unfold held in *. csimpl.
    split.
    + rewrite (Permutation_app_swap_app (option_list (held_rec l))).
      destruct (held_rec l0); simpl; by rewrite H1.
    + rewrite (Permutation_app_swap_app (option_list (held_rec l'))).
      destruct (held_rec l0); simpl; by rewrite H2.
Qed.

Lemma held_elem (ts : list pc) (t : tid) (l : pc) (x : addr) :
  ts !! t = Some l → held_rec l = Some x → x ∈ held ts.
Proof.
  intros Hl Hx. unfold held. apply list_elem_of_omap. exists l.
  split; [|done]. by eapply list_elem_of_lookup_2.
Qed.

End OwnFacts.

(** * The invariant of schedules whose waits succeed *)

Module InvFacts.
Import PoolFacts QueueFacts ChainFacts QueueRep HeadTail FlagFacts FlowFacts
  OwnFacts.

Lemma held_replicate (n : nat) (l : pc) :
  held_rec l = None → held (replicate n l) = [].
Proof.
  intros E. unfold held. induction n as [|n IH]; [done|]. csimpl.
  by rewrite E.
Qed.

Lemma entries_frame (h h' : gmap addr obj) (q : list addr) :
  (∀ y, y ∈ q → h' !! y = h !! y) → entries h' q = entries h q.
Proof.
  intros Hfr. unfold entries. apply list_omap_ext.
  induction q as [|x q IH]; constructor.
  - simpl. unfold info. rewrite Hfr; [done|by left].
  - apply IH. intros y Hy. apply Hfr. by right.
Qed.

Lemma queue_rep_frame_nodes (h h' : gmap addr obj) (p : ThreadPool)
    (q : list addr) :
  (∀ y, y ∈ q → h' !! y = h !! y) → queue_rep h p q → queue_rep h' p q.
Proof.
  intros Hfr [Hch Htl]. split; [|done]. by eapply lseg_frame.
Qed.

(** The created pool with its threads satisfies the invariant. *)
Lemma initial_inv (s : state) : initial s → Inv s.
Proof.
  intros (r1 & r2 & spawn & fmt & n & w0 & w & a & nc & Hc & ->).
  apply create_pool_shape in Hc as [arr Hc].
  eexists _, []. split; simpl.
  - exact Hc.
  - by split.
  - done.
  - unfold held. rewrite omap_app.
    fold (held (replicate (Z.to_nat n) WEnter)) (held (replicate nc CIdle)).
    rewrite !held_replicate by done. simpl.
    split; [constructor|]. split; [by intros x Hx%elem_of_nil|].
    split; [constructor|by intros x Hx%elem_of_nil].
  - apply boot_lock_discipline.
  - intros t l Hl.
    apply lookup_app_Some in Hl as [Hl|[_ Hl]];
      apply lookup_replicate in Hl as [-> _]; done.
Qed.

(** A step that leaves pool struct and queue as they are. *)
Lemma inv_frame (s s' : state) (p : ThreadPool) (q : list addr)
    (t : tid) (l l' : pc) :
  InvAt s p q → pcs s !! t = Some l →
  pool s' = pool s → pcs s' = <[t := l']> (pcs s) →
  submitted s' = submitted s → dequeued s' = dequeued s →
  heap (mem s') !! pool s = Some (OPool p) →
  (∀ y, y ∈ q → heap (mem s') !! y = heap (mem s) !! y) →
  owned (heap (mem s')) (q ++ held (pcs s')) →
  (∀ y, y ∈ held (pcs s') → y ∈ held (pcs s) →
        heap (mem s') !! y = heap (mem s) !! y) →
  point_ok (heap (mem s')) p l' →
  lock_discipline s' →
  InvAt s' p q.
Proof.
  intros [Hp Hq Hf Ho Hl Hpt] Ht Ea Epcs Es Ed Hp' Hfrq Ho' Hfrh Hl' Hld.
  split.
  - by rewrite Ea.
  - by eapply queue_rep_frame_nodes.
  - by rewrite Es, Ed, (entries_frame _ _ _ Hfrq).
  - done.
  - done.
  - intros t' l0 Hl0. rewrite Epcs in Hl0.
    apply lookup_goto in Hl0 as [[-> ->]|[Hne Hl0]]; [done|].
    specialize (Hpt t' l0 Hl0).
    assert (Hh : ∀ temp, held_rec l0 = Some temp →
                 heap (mem s') !! temp = heap (mem s) !! temp).
    { intros temp Htemp. apply Hfrh.
      - rewrite Epcs. eapply held_elem; [|exact Htemp].
        by rewrite list_lookup_insert_ne.
      - by eapply held_elem. }
    destruct l0; simpl in *; try done;
      destruct Hpt as (tk & Htk & Hn); exists tk; by rewrite Hh.
Qed.

(** A step of the owner of the mutex that rewrites pool struct and
    queue. *)
Lemma inv_update (s s' : state) (p p' : ThreadPool) (q q' : list addr)
    (t : tid) (l l' : pc) :
  InvAt s p q → pcs s !! t = Some l → mutex s = Some t →
  pool s' = pool s → pcs s' = <[t := l']> (pcs s) →
  keeps (heap (mem s)) (heap (mem s')) →
  heap (mem s') !! pool s = Some (OPool p') →
  queue_rep (heap (mem s')) p' q' →
  dequeued s' ++ entries (heap (mem s')) q' = submitted s' →
  q' ++ held (pcs s') ≡ₚ q ++ held (pcs s) →
  (running p = 0 → running p' = 0) →
  (∀ y tk, y ∈ held (pcs s') → heap (mem s) !! y = Some (OTask tk) →
           heap (mem s') !! y = Some (OTask tk)) →
  point_ok (heap (mem s')) p' l' →
  lock_discipline s' →
  InvAt s' p' q'.
Proof.
  intros [Hp Hq Hf Ho Hl Hpt] Ht Hm Ea Epcs Hk Hp' Hq' Hf' HP Hrun Hfrh
    Hl' Hld.
  split.
  - by rewrite Ea.
  - done.
  - done.
  - eapply owned_perm; [symmetry; exact HP|]. by eapply owned_keeps.
  - done.
  - intros t' l0 Hl0. rewrite Epcs in Hl0.
    apply lookup_goto in Hl0 as [[-> ->]|[Hne Hl0]]; [done|].
    specialize (Hpt t' l0 Hl0). destruct (Hl t' l0 Hl0) as [_ Hcs].
    assert (Hncs : in_cs l0 = false).
    { destruct (in_cs l0) eqn:E; [|done].
      assert (mutex s = Some t') by (by apply Hcs). congruence. }
    destruct l0; simpl in *; try done; try (by apply Hrun).
    destruct Hpt as (tk & Htk & Hn). exists tk. split; [|done].
    apply Hfrh; [|done]. rewrite Epcs.
    eapply (held_elem _ t' (CAddEnter _)); [|done].
    by rewrite list_lookup_insert_ne.
Qed.

Lemma subseteq_keeps (h h' : gmap addr obj) : h ⊆ h' → keeps h h'.
Proof.
  intros Hsub. split.
  - intros x t Hx. exists t. split; [|done]. by eapply lookup_weaken.
  - intros b bs Hb. by eapply lookup_weaken.
Qed.

(** Nothing moves, the heap may have grown. *)
Lemma inv_same (s s' : state) (p : ThreadPool) (q : list addr) :
  InvAt s p q → pool s' = pool s → pcs s' = pcs s → mutex s' = mutex s →
  submitted s' = submitted s → dequeued s' = dequeued s →
  heap (mem s) ⊆ heap (mem s') →
  InvAt s' p q.
Proof.
  intros [Hp Hq Hf Ho Hl Hpt] Ea Epcs Em Es Ed Hsub.
  assert (Hqf : ∀ y, y ∈ q → heap (mem s') !! y = heap (mem s) !! y).
  { intros y Hy. destruct Hq as [Hch _].
    destruct (chain_head_alloc _ _ _ y Hch Hy) as [ty Hty].
    rewrite Hty. by eapply lookup_weaken. }
  split.
  - rewrite Ea. by eapply lookup_weaken.
  - by eapply queue_rep_frame_nodes.
  - by rewrite Es, Ed, (entries_frame _ _ _ Hqf).
  - rewrite Epcs. eapply owned_keeps; [by apply subseteq_keeps|done].
  - intros t l Hl0. rewrite Epcs in Hl0. rewrite Em. by apply Hl.
  - intros t l Hl0. rewrite Epcs in Hl0. specialize (Hpt t l Hl0).
    destruct l; simpl in *; try done;
      destruct Hpt as (tk & Htk & Hn); exists tk;
      (split; [by eapply lookup_weaken|done]).
Qed.

Lemma exec_Ret {A} (m : M A) (k : A → state → state) (s : state) (x : A)
    (w' : world) :
  m (mem s) = Ret x w' → exec m k s = k x (with_mem w' s).
Proof. intros H. unfold exec. by rewrite H. Qed.

Lemma exec_Ret_same {A} (m : M A) (k : A → state → state) (s : state)
    (x : A) :
  m (mem s) = Ret x (mem s) → exec m k s = k x s.
Proof. intros H. unfold exec. rewrite H. by destruct s. Qed.

Lemma acquire_alive (t : tid) (l : pc) (s s' : state) :
  acquire t l s = Some s' → proc s' = proc s ∧ pcs s' = <[t := l]> (pcs s).
Proof.
  unfold acquire. destruct (mutex s); [done|]. by intros [= <-].
Qed.

(** A move that changes neither heap nor logs nor the held record. *)
Lemma inv_goto (s s' : state) (p : ThreadPool) (q : list addr)
    (t : tid) (l l' : pc) :
  InvAt s p q → pcs s !! t = Some l →
  pool s' = pool s → pcs s' = <[t := l']> (pcs s) →
  submitted s' = submitted s → dequeued s' = dequeued s →
  heap (mem s') = heap (mem s) →
  held_rec l' = held_rec l →
  point_ok (heap (mem s)) p l' →
  lock_discipline s' →
  InvAt s' p q.
Proof.
  intros HI Hl Ea Epcs Es Ed Eh Eheld Hpt Hld.
  eapply inv_frame; try done.
  - rewrite Eh. apply HI.
  - intros y _. by rewrite Eh.
  - rewrite Eh, Epcs, (held_goto_same _ _ _ _ Hl Eheld). apply HI.
  - intros y _ _. by rewrite Eh.
  - by rewrite Eh.
Qed.

Lemma inv_acquire (s s' : state) (p : ThreadPool) (q : list addr)
    (t : tid) (l l' : pc) :
  InvAt s p q → pcs s !! t = Some l →
  held_rec l' = held_rec l → point_ok (heap (mem s)) p l' →
  acquire t l' s = Some s' → lock_discipline s' →
  InvAt s' p q.
Proof.
  intros HI Hl Eheld Hpt H Hld. unfold acquire in H.
  destruct (mutex s); [done|]. injection H as <-.
  by eapply inv_goto.
Qed.

(** Inside the critical section the release is by the owner. *)
Lemma inv_release (s : state) (p : ThreadPool) (q : list addr)
    (t : tid) (l l' : pc) :
  InvAt s p q → pcs s !! t = Some l → in_cs l = true →
  held_rec l' = held_rec l → point_ok (heap (mem s)) p l' →
  lock_discipline (release t l' s) →
  InvAt (release t l' s) p q ∧ proc (release t l' s) = proc s.
Proof.
  intros HI Hl Hcs Eheld Hpt Hld.
  assert (Hm : mutex s = Some t).
  { destruct (inv_lock _ _ _ HI t l Hl) as [_ Hiff]. by apply Hiff. }
  unfold release in *. rewrite decide_True in * by done.
  split; [|done]. by eapply inv_goto.
Qed.

Lemma chain_cons_head (h : gmap addr obj) (p : ptr) (q : list addr) :
  chain h p q → p ≠ NULL → ∃ hd q', q = hd :: q' ∧ p = Some hd.
Proof.
  intros Hch Hne. destruct q as [|hd q']; [done|].
  destruct Hch as [-> _]. eauto.
Qed.

(** Line 96 under the invariant: the head record leaves the queue and is
    now held by the worker; the statement has defined behaviour. *)
Lemma inv_advance (s : state) (p : ThreadPool) (q : list addr) (t : tid)
    (hp : ptr) :
  let s' := exec (advance_head (Some (pool s)))
              (λ _ s1, goto t (WLeave hp)
                         (log_dequeue (entry_at (heap (mem s)) hp) s1)) s in
  InvAt s p q → pcs s !! t = Some (WAdvance hp) →
  lock_discipline s' →
  Inv s' ∧ proc s' = proc s ∧
  ∃ hd q', q = hd :: q' ∧ hp = Some hd ∧
           dequeued s' = dequeued s ++ entries (heap (mem s)) [hd].
Proof.
  intros s' HI Hl Hld. subst s'.
  pose proof (inv_points _ _ _ HI t _ Hl) as [Ehp Hne]. simpl in Ehp, Hne.
  pose proof (inv_queue _ _ _ HI) as Hq.
  destruct (chain_cons_head _ _ _ (proj1 Hq)) as (hd & q' & -> & Ehd);
    [congruence|].
  destruct (advance_head_rep _ hd _ q' _ (inv_pool _ _ _ HI) Hq)
    as (t0 & Ht0 & _ & Hadv & Hq' & Hsl).
  rewrite (exec_Ret _ _ _ _ _ Hadv) in *.
  assert (Hm : mutex s = Some t).
  { destruct (inv_lock _ _ _ HI t _ Hl) as [_ Hiff]. by apply Hiff. }
  assert (Hent : entry_at (heap (mem s)) hp
                 = Some (hd, (task t0, taskArgs t0))).
  { rewrite Ehp, Ehd. simpl. unfold info. by rewrite Ht0. }
  assert (Hk := same_but_links_keeps _ _ Hsl).
  assert (Htasks : ∀ x, x ∈ q' →
            ∃ tx, heap (mem s) !! x = Some (OTask tx)).
  { intros x Hx. eapply chain_head_alloc; [apply Hq|by right]. }
  split; [|split; [done|]].
  - exists (with_head (next t0) p), q'.
    eapply (inv_update s _ p _ (hd :: q') q' t); try done; simpl.
    + by rewrite lookup_insert_eq.
    + rewrite Hent. simpl. rewrite (keeps_entries _ _ _ Hk Htasks).
      rewrite <- (inv_fifo _ _ _ HI). unfold entries at 2. csimpl.
      unfold info. rewrite Ht0. by rewrite <- (assoc_L (++)).
    + destruct (held_goto (pcs s) t _ (WLeave hp) Hl) as (rest & H1 & H2).
      rewrite H1, H2, Ehp, Ehd. simpl. by rewrite Permutation_middle.
    + intros y tk _ Hy. rewrite lookup_insert_ne; [done|].
      intros <-. rewrite (inv_pool _ _ _ HI) in Hy. done.
  - exists hd, q'. split; [done|]. split; [congruence|].
    simpl. rewrite Hent. unfold entries. csimpl. unfold info.
    by rewrite Ht0.
Qed.

Lemma entries_app (h : gmap addr obj) (q1 q2 : list addr) :
  entries h (q1 ++ q2) = entries h q1 ++ entries h q2.
Proof. unfold entries. apply omap_app. Qed.

(** Lines 208-214 under the invariant: the caller's record joins the
    queue at its end; the statement has defined behaviour. *)
Lemma inv_link (s : state) (p : ThreadPool) (q : list addr) (t : tid)
    (temp : addr) :
  let s' := exec (enqueue (Some (pool s)) temp)
              (λ _ s1, goto t CAddLeave
                         (log_submit (entry_at (heap (mem s)) (Some temp))
                            s1)) s in
  InvAt s p q → pcs s !! t = Some (CAddLink temp) →
  lock_discipline s' →
  Inv s' ∧ proc s' = proc s ∧
  submitted s' = submitted s ++ entries (heap (mem s)) [temp].
Proof.
  intros s' HI Hl Hld. subst s'.
  pose proof (inv_points _ _ _ HI t _ Hl) as (tk & Htk & Hnext).
  pose proof (inv_owned _ _ _ HI) as (Hnd & Hal & Hargs).
  assert (Hheld : temp ∈ held (pcs s)) by (by eapply held_elem).
  assert (Htq : temp ∉ q).
  { intros Hin. apply NoDup_app in Hnd as (_ & Hdisj & _).
    by apply (Hdisj temp). }
  destruct (enqueue_rep _ temp _ tk q _ (inv_pool _ _ _ HI)
              (inv_queue _ _ _ HI) Htk Hnext Htq)
    as (w' & p' & Henq & Hp' & Hq' & Hsl & Hfr & _).
  rewrite (exec_Ret _ _ _ _ _ Henq) in *.
  assert (Hm : mutex s = Some t).
  { destruct (inv_lock _ _ _ HI t _ Hl) as [_ Hiff]. by apply Hiff. }
  assert (Hk := same_but_links_keeps _ _ Hsl).
  assert (Hent : entry_at (heap (mem s)) (Some temp)
                 = Some (temp, (task tk, taskArgs tk))).
  { simpl. unfold info. by rewrite Htk. }
  assert (Hent1 : entries (heap (mem s)) [temp]
                  = [(temp, (task tk, taskArgs tk))]).
  { unfold entries. csimpl. unfold info. by rewrite Htk. }
  destruct (held_goto (pcs s) t _ CAddLeave Hl) as (rest & H1 & H2).
  simpl in H1, H2.
  split; [|split; [done|]].
  - exists p', (q ++ [temp]).
    eapply (inv_update s _ p p' q (q ++ [temp]) t); try done; simpl.
    + simpl in Hent. rewrite Hent. simpl.
      rewrite keeps_entries with (h := heap (mem s)).
      * rewrite entries_app, Hent1, (assoc_L (++)).
        by rewrite (inv_fifo _ _ _ HI).
      * done.
      * intros x Hx. apply Hal. set_solver.
    + rewrite H1, H2. rewrite <- (assoc_L (++)). done.
    + intros Hr.
      destruct (same_but_links_running _ _ _ _ _ Hsl (inv_pool _ _ _ HI) Hp')
        as (-> & _). done.
    + intros y ty Hy Hty. rewrite Hfr; [done| |].
      * intros ->. rewrite (inv_pool _ _ _ HI) in Hty. done.
      * intros Hin. apply NoDup_app in Hnd as (_ & Hdisj & _).
        apply (Hdisj y Hin). rewrite H1. rewrite H2 in Hy. set_solver.
  - rewrite Hent1. simpl. simpl in Hent. by rewrite Hent.
Qed.

(** Line 157 under the invariant. *)
Lemma inv_stop (s : state) (p : ThreadPool) (q : list addr) (t : tid) :
  let s' := exec (set_pool (Some (pool s)) (with_running 0))
              (λ _ s1, goto t CJoinLeave s1) s in
  InvAt s p q → pcs s !! t = Some CJoinSet →
  lock_discipline s' →
  Inv s' ∧ proc s' = proc s.
Proof.
  intros s' HI Hl Hld. subst s'.
  pose proof (inv_pool _ _ _ HI) as Hp.
  rewrite (exec_Ret _ _ _ _ _ (set_pool_at _ _ _ _ Hp)) in *.
  assert (Hm : mutex s = Some t).
  { destruct (inv_lock _ _ _ HI t _ Hl) as [_ Hiff]. by apply Hiff. }
  assert (Hqa : ∀ y, y ∈ q → y ≠ pool s).
  { intros y Hy ->.
    destruct (chain_head_alloc _ _ _ _ (proj1 (inv_queue _ _ _ HI)) Hy).
    congruence. }
  assert (Hfr : ∀ y, y ∈ q →
            <[pool s := OPool (with_running 0 p)]> (heap (mem s)) !! y
            = heap (mem s) !! y).
  { intros y Hy. rewrite lookup_insert_ne; [done|]. intros E.
    by apply (Hqa y Hy). }
  split; [|done]. exists (with_running 0 p), q.
  eapply (inv_update s _ p _ q q t); try done; simpl.
  - apply keeps_insert. by rewrite Hp.
  - by rewrite lookup_insert_eq.
  - destruct (inv_queue _ _ _ HI) as [Hch Htl]. split; [|done].
    simpl. by eapply lseg_frame.
  - rewrite (entries_frame _ _ _ Hfr). apply HI.
  - by rewrite (held_goto_same _ _ _ CJoinLeave Hl).
  - intros y ty _ Hy. rewrite lookup_insert_ne; [done|].
    intros <-. congruence.
Qed.

(** Line 102 under the invariant: the worker holds an allocated record. *)
Lemma inv_call (s : state) (p : ThreadPool) (q : list addr) (t : tid)
    (hp : ptr) :
  let s' := exec (call_task hp) (λ _ s1, goto t (WFree hp) s1) s in
  InvAt s p q → pcs s !! t = Some (WCall hp) →
  lock_discipline s' →
  Inv s' ∧ proc s' = proc s ∧
  ∃ x tx, hp = Some x ∧ heap (mem s) !! x = Some (OTask tx) ∧
          trace (mem s') = trace (mem s) ++ [EvCall (task tx) (taskArgs tx)].
Proof.
  intros s' HI Hl Hld. subst s'.
  pose proof (inv_points _ _ _ HI t _ Hl) as Hne. simpl in Hne.
  destruct hp as [x|]; [|done].
  pose proof (inv_owned _ _ _ HI) as (Hnd & Hal & Hargs).
  destruct (Hal x) as [tx Htx].
  { apply elem_of_app. right. by eapply held_elem. }
  assert (Hc : call_task (Some x) (mem s)
               = Ret tt (emit (EvCall (task tx) (taskArgs tx)) (mem s))).
  { unfold call_task. by rewrite (bind_Ret _ _ _ _ _ (get_task_at _ _ _ Htx)). }
  rewrite (exec_Ret _ _ _ _ _ Hc) in *.
  split; [|split; [done|]].
  - exists p, q. by eapply (inv_goto s _ p q t).
  - by exists x, tx.
Qed.

(** Freeing a record and its argument buffer leaves the other owned
    records owned. *)
Lemma owned_free (h h' : gmap addr obj) (x : addr) (tx : Task)
    (L : list addr) :
  owned h (x :: L) → h !! x = Some (OTask tx) →
  (∀ y, y ≠ x → taskArgs tx ≠ Some y → h' !! y = h !! y) →
  owned h' L ∧ (∀ y, y ∈ L → h' !! y = h !! y).
Proof.
  intros (Hnd & Hal & Hnda & Hbytes) Hx Hfr.
  apply NoDup_cons in Hnd as [HxL HndL].
  rewrite args_of_cons in Hnda, Hbytes. unfold arg_of in Hnda, Hbytes.
  rewrite Hx in Hnda, Hbytes.
  assert (HL : ∀ y, y ∈ L → h' !! y = h !! y).
  { intros y Hy. apply Hfr; [by intros ->|]. intros Hb.
    destruct (Hal y) as [ty Hty]; [by right|].
    destruct (Hbytes y) as [bs Hbs]; [rewrite Hb; set_solver|]. congruence. }
  split; [|done].
  assert (Ha : args_of h' L = args_of h L).
  { unfold args_of. apply list_omap_ext.
    clear -HL. induction L as [|y L IH]; constructor.
    - unfold arg_of. rewrite HL; [done|by left].
    - apply IH. intros z Hz. apply HL. by right. }
  split; [done|]. split; [|split].
  - intros y Hy. rewrite (HL y Hy). apply Hal. by right.
  - rewrite Ha. by apply NoDup_app in Hnda as (_ & _ & ?).
  - intros b Hb. rewrite Ha in Hb.
    destruct (Hbytes b) as [bs Hbs]; [set_solver|]. exists bs.
    rewrite Hfr; [done| |].
    + intros ->. congruence.
    + intros Eb. apply NoDup_app in Hnda as (_ & Hdisj & _).
      apply (Hdisj b); [rewrite Eb; set_solver|done].
Qed.

(** Lines 105-106 under the invariant: the argument buffer and the record
    are allocated and are freed once. *)
Lemma inv_free (s : state) (p : ThreadPool) (q : list addr) (t : tid)
    (hp : ptr) :
  let s' := exec (free_task hp) (λ _ s1, goto t WEnter s1) s in
  InvAt s p q → pcs s !! t = Some (WFree hp) →
  lock_discipline s' →
  Inv s' ∧ proc s' = proc s.
Proof.
  intros s' HI Hl Hld. subst s'.
  pose proof (inv_points _ _ _ HI t _ Hl) as Hne. simpl in Hne.
  destruct hp as [x|]; [|done].
  pose proof (inv_owned _ _ _ HI) as Hown.
  pose proof (inv_pool _ _ _ HI) as Hp.
  destruct (held_goto (pcs s) t _ WEnter Hl) as (rest & H1 & H2).
  simpl in H1, H2.
  assert (HP : q ++ held (pcs s) ≡ₚ x :: (q ++ rest)).
  { rewrite H1. by rewrite Permutation_middle. }
  apply (owned_perm _ _ _ HP) in Hown.
  destruct (proj1 (proj2 Hown) x) as [tx Htx]; [by left|].
  (* the heap after the two frees *)
  set (h' := delete x (match taskArgs tx with
                       | Some b => delete b (heap (mem s))
                       | None => heap (mem s)
                       end)).
  assert (Hb : ∀ b, taskArgs tx = Some b →
            ∃ bs, heap (mem s) !! b = Some (OBytes bs)).
  { intros b Eb. destruct Hown as (_ & _ & _ & Hbytes). apply Hbytes.
    rewrite args_of_cons. unfold arg_of. rewrite Htx, Eb. set_solver. }
  assert (Hfree : free_task (Some x) (mem s)
                  = Ret tt (set_heap (λ _, h') (mem s))).
  { unfold free_task. rewrite (bind_Ret _ _ _ _ _ (get_task_at _ _ _ Htx)).
    subst h'. destruct (taskArgs tx) as [b|] eqn:Eb.
    - destruct (Hb b eq_refl) as [bs Hbs].
      rewrite (bind_Ret _ _ _ _ _ (free_at _ _ _ Hbs)).
      erewrite free_at; [done|]. simpl.
      rewrite lookup_delete_ne; [done|congruence].
    - unfold mbind, M_bind, bind. simpl. rewrite Htx. done. }
  rewrite (exec_Ret _ _ _ _ _ Hfree) in *.
  assert (Hfr : ∀ y, y ≠ x → taskArgs tx ≠ Some y →
            h' !! y = heap (mem s) !! y).
  { intros y Hyx Hyb. subst h'. rewrite lookup_delete_ne by done.
    destruct (taskArgs tx) as [b|]; [|done].
    rewrite lookup_delete_ne; [done|congruence]. }
  destruct (owned_free _ h' _ _ _ Hown Htx Hfr) as [Hown' HL].
  split; [|done]. exists p, q.
  eapply (inv_frame s _ p q t); try done; simpl.
  - rewrite Hfr; [done| |].
    + intros E. rewrite E in Hp. congruence.
    + intros Eb. destruct (Hb _ Eb). congruence.
  - intros y Hy. apply HL. set_solver.
  - eapply owned_perm; [|exact Hown']. by rewrite H2.
  - intros y Hy _. apply HL. rewrite H2 in Hy. set_solver.
Qed.

(** Lines 191-203 with answers of the allocator that are not in use: the
    heap only grows; when the record is returned it is a fresh block with
    no successor, and its argument is [NULL] or a fresh byte block. *)
Lemma build_task_outcome (r1 r2 : ptr) (f : taskFunc) (args : ptr) (n : N)
    (w : world) :
  alloc_ok (heap w) r1 r2 = true →
  match build_task r1 r2 f args n w with
  | Ret temp w' =>
      heap w ⊆ heap w' ∧ heap w !! temp = None ∧
      ∃ args',
        heap w' !! temp
          = Some (OTask {| task := f; taskArgs := args'; next := NULL |}) ∧
        ∀ b, args' = Some b →
             heap w !! b = None ∧ ∃ bs, heap w' !! b = Some (OBytes bs)
  | Exit w' => heap w ⊆ heap w'
  | Fault => True
  end.
Proof.
  intros Hok. unfold alloc_ok in Hok.
  apply andb_true_iff in Hok as [Hok H12].
  apply andb_true_iff in Hok as [H1 H2].
  destruct r1 as [temp|];
    [|unfold build_task, underlying_safe_malloc, malloc; mstep;
      reflexivity].
  apply bool_decide_eq_true in H1.
  destruct args as [src|].
  - destruct r2 as [b|].
    + apply bool_decide_eq_true in H2. apply bool_decide_eq_true in H12.
      unfold build_task, underlying_safe_malloc, malloc, memcpy. mstep.
      destruct (decide (src = b)) as [->|Hsb].
      { by rewrite lookup_insert_eq. }
      rewrite lookup_insert_ne by done.
      destruct (decide (src = temp)) as [->|Hst].
      { by rewrite lookup_insert_eq. }
      rewrite lookup_insert_ne by done.
      destruct (heap w !! src) as [[| | |bs|]|] eqn:Hsrc; simpl; try done.
      destruct (N.of_nat (length bs) <? n)%N; [done|].
      simpl. rewrite lookup_insert_eq. simpl.
      rewrite lookup_insert_ne by done. rewrite lookup_insert_ne by done.
      rewrite lookup_insert_eq. simpl.
      split; [|split; [done|]].
      * rewrite insert_insert_eq.
        apply insert_subseteq_r; [done|].
        apply insert_subseteq_r; [done|].
        by apply insert_subseteq.
      * eexists. rewrite lookup_insert_eq. split; [done|].
        intros b' [= <-]. split; [done|].
        rewrite lookup_insert_ne by done. rewrite lookup_insert_eq. eauto.
    + unfold build_task, underlying_safe_malloc, malloc. mstep.
      by apply insert_subseteq.
  - rewrite SubmitFacts.build_task_null. simpl.
    split; [|split; [done|]].
    + rewrite insert_insert_eq. by apply insert_subseteq.
    + eexists. rewrite lookup_insert_eq. split; [done|]. by intros b.
Qed.

(** Lines 191-203 under the invariant. *)
Lemma inv_add (s : state) (p : ThreadPool) (q : list addr) (t : tid)
    (r1 r2 : ptr) (f : taskFunc) (args : ptr) (n : N) :
  let s' := exec (build_task r1 r2 f args n)
              (λ temp s1, goto t (CAddEnter temp) s1) s in
  InvAt s p q → pcs s !! t = Some CIdle →
  alloc_ok (heap (mem s)) r1 r2 = true →
  lock_discipline s' →
  Inv s'.
Proof.
  intros s' HI Hl Hok Hld. subst s'.
  pose proof (build_task_outcome r1 r2 f args n (mem s) Hok) as Hout.
  unfold exec in *.
  destruct (build_task r1 r2 f args n (mem s)) as [temp w'|w'|].
  - destruct Hout as (Hsub & Htemp & args' & Htemp' & Hargs').
    pose proof (inv_owned _ _ _ HI) as Hown.
    destruct (held_goto (pcs s) t _ (CAddEnter temp) Hl) as (rest & H1 & H2).
    simpl in H1, H2.
    pose proof (owned_keeps _ _ _ (subseteq_keeps _ _ Hsub) Hown)
      as (Hnd & Hal & Hnda & Hbytes).
    assert (HalO : ∀ x, x ∈ q ++ held (pcs s) → x ≠ temp).
    { intros x Hx ->. destruct (proj1 (proj2 Hown) temp Hx). congruence. }
    exists p, q.
    eapply (inv_frame s _ p q t); try done; simpl.
    + eapply lookup_weaken; [apply HI|done].
    + intros y Hy. destruct (proj1 (proj2 Hown) y) as [ty Hty];
        [set_solver|].
      rewrite Hty. by eapply lookup_weaken.
    + eapply (owned_perm _ (temp :: (q ++ held (pcs s)))).
      { rewrite H2, H1. by rewrite Permutation_middle. }
      split; [|split; [|split]].
      * apply NoDup_cons. split; [|done]. intros Hin. by apply (HalO _ Hin).
      * intros x [->|Hx]%elem_of_cons; [eauto|by apply Hal].
      * rewrite args_of_cons. unfold arg_of. rewrite Htemp'. simpl.
        destruct args' as [b|]; simpl; [|done].
        apply NoDup_cons. split; [|done]. intros Hb.
        rewrite (keeps_args_of _ _ _ (subseteq_keeps _ _ Hsub)
                   (proj1 (proj2 Hown))) in Hb.
        destruct Hown as (_ & _ & _ & HbO). destruct (HbO b Hb) as [bs Hbs].
        destruct (Hargs' b eq_refl) as [Hnone _]. congruence.
      * intros b Hb. rewrite args_of_cons in Hb. unfold arg_of in Hb.
        rewrite Htemp' in Hb. simpl in Hb.
        apply elem_of_app in Hb as [Hb|Hb]; [|by apply Hbytes].
        destruct args' as [b'|]; [|by apply elem_of_nil in Hb].
        apply list_elem_of_singleton in Hb as ->.
        by destruct (Hargs' b' eq_refl) as [_ ?].
    + intros y _ Hy. destruct (proj1 (proj2 Hown) y) as [ty Hty];
        [set_solver|].
      rewrite Hty. by eapply lookup_weaken.
    + eauto.
  - exists p, q. by eapply inv_same.
  - exists p, q. by eapply inv_same.
Qed.

Local Ltac by_goto HI :=
  eexists _, _; eapply inv_goto; [exact HI|eassumption|done..].

(** The invariant is kept by every step in which no wait fails.  Every
    such step but the entry into [thread_pool_add_task] (whose allocations
    and copy depend on the caller and the allocator) has defined behaviour
    and does not end the process. *)
Lemma step_inv (t : tid) (c : choice) (s s' : state) :
  Inv s → wait_ok (t, c) = true → step t c s = Some s' →
  Inv s' ∧
  match c with CallAdd _ _ _ _ _ => True | _ => proc s' = Alive end.
Proof.
  intros (p & q & HI) Hok H.
  pose proof (lock_discipline_flows _ _ _ _ (step_flows _ _ _ _ H) Hok
                (inv_lock _ _ _ HI)) as Hld.
  pose proof (inv_pool _ _ _ HI) as Hp.
  assert (Hgp : get_pool (Some (pool s)) (mem s) = Ret p (mem s))
    by (by apply get_pool_at).
  step_cases H.
  - (* WEnter *)
    split; [|destruct (acquire_alive _ _ _ _ H) as [-> _]; done].
    exists p, q.
    eapply inv_acquire; [exact HI|exact Heqo| | |exact H|exact Hld]; done.
  - (* WCheck *)
    apply (inj Some) in H. subst s'.
    rewrite (exec_Ret_same _ _ _ _ Hgp) in *.
    destruct (must_wait p) eqn:Hw.
    + destruct (inv_release s p q t WCheck WSleep) as [HI' Hpr]; try done.
      split; [by eexists _, _|]. by rewrite Hpr.
    + split; [|done]. by_goto HI.
  - (* WSleep, the wait returns *)
    split; [|destruct (acquire_alive _ _ _ _ H) as [-> _]; done].
    exists p, q.
    eapply inv_acquire; [exact HI|exact Heqo| | |exact H|exact Hld]; done.
  - (* WSleep, the wait fails: not in this schedule *)
    done.
  - (* WReport: no thread is there *)
    by destruct (inv_lock _ _ _ HI t _ Heqo).
  - (* WExitTest *)
    apply (inj Some) in H. subst s'.
    rewrite (exec_Ret_same _ _ _ _ Hgp) in *.
    pose proof (inv_points _ _ _ HI t _ Heqo) as Hnw. simpl in Hnw.
    split; [|by destruct (must_exit p)].
    destruct (must_exit p) eqn:He.
    + eexists _, _. eapply inv_goto; [exact HI|eassumption|try done..].
      simpl. unfold must_exit in He. apply andb_true_iff in He as [_ He].
      by apply Z.eqb_eq in He.
    + eexists _, _. eapply inv_goto; [exact HI|eassumption|try done..].
      simpl. intros Hh. unfold must_wait, must_exit in *.
      rewrite Hh in *. rewrite bool_decide_eq_true_2 in * by done.
      simpl in *. by destruct (running p =? 0).
  - (* WExitLeave *)
    apply (inj Some) in H. subst s'.
    destruct (inv_release s p q t WExitLeave WExited) as [HI' Hpr];
      try done.
    + exact (inv_points _ _ _ HI t _ Heqo).
    + split; [by eexists _, _|]. by rewrite Hpr.
  - (* WRead *)
    apply (inj Some) in H. subst s'.
    rewrite (exec_Ret_same _ _ _ _ (read_head_at _ _ _ Hp)) in *.
    pose proof (inv_points _ _ _ HI t _ Heqo) as Hne. simpl in Hne.
    split; [|done]. by_goto HI.
  - (* WAdvance *)
    apply (inj Some) in H. subst s'.
    destruct (inv_advance s p q t headTask HI Heqo Hld) as (HI' & Hpr & _).
    split; [done|]. by rewrite Hpr.
  - (* WLeave *)
    apply (inj Some) in H. subst s'.
    destruct (inv_release s p q t (WLeave headTask) (WCall headTask))
      as [HI' Hpr]; try done.
    + exact (inv_points _ _ _ HI t _ Heqo).
    + split; [by eexists _, _|]. by rewrite Hpr.
  - (* WCall *)
    apply (inj Some) in H. subst s'.
    destruct (inv_call s p q t headTask HI Heqo Hld) as (HI' & Hpr & _).
    split; [done|]. by rewrite Hpr.
  - (* WFree *)
    apply (inj Some) in H. subst s'.
    destruct (inv_free s p q t headTask HI Heqo Hld) as (HI' & Hpr).
    split; [done|]. by rewrite Hpr.
  - (* CIdle, thread_pool_add_task is entered *)
    destruct (alloc_ok (heap (mem s)) r1 r2) eqn:Halloc; [|done].
    apply (inj Some) in H. subst s'.
    split; [by eapply inv_add|done].
  - (* CIdle, thread_pool_join_all is entered *)
    apply (inj Some) in H. subst s'.
    rewrite (exec_Ret_same _ _ _ _ Hgp) in *.
    split; [|by destruct (running p =? 0)].
    destruct (running p =? 0).
    + by exists p, q.
    + by_goto HI.
  - (* CAddEnter *)
    split; [|destruct (acquire_alive _ _ _ _ H) as [-> _]; done].
    exists p, q.
    eapply inv_acquire; [exact HI|exact Heqo| | |exact H|exact Hld];
      [done|]. exact (inv_points _ _ _ HI t _ Heqo).
  - (* CAddLink *)
    apply (inj Some) in H. subst s'.
    destruct (inv_link s p q t temp HI Heqo Hld) as (HI' & Hpr & _).
    split; [done|]. by rewrite Hpr.
  - (* CAddLeave *)
    apply (inj Some) in H. subst s'.
    destruct (inv_release s p q t CAddLeave CAddWake) as [HI' Hpr]; try done.
    split; [by eexists _, _|]. by rewrite Hpr.
  - (* CAddWake *)
    apply (inj Some) in H. subst s'.
    split; [|done]. by_goto HI.
  - (* CJoinEnter *)
    split; [|destruct (acquire_alive _ _ _ _ H) as [-> _]; done].
    exists p, q.
    eapply inv_acquire; [exact HI|exact Heqo| | |exact H|exact Hld]; done.
  - (* CJoinSet *)
    apply (inj Some) in H. subst s'.
    destruct (inv_stop s p q t HI Heqo Hld) as (HI' & Hpr).
    split; [done|]. by rewrite Hpr.
  - (* CJoinLeave *)
    apply (inj Some) in H. subst s'.
    destruct (inv_release s p q t CJoinLeave CJoinWake) as [HI' Hpr];
      try done.
    split; [by eexists _, _|]. by rewrite Hpr.
  - (* CJoinWake *)
    apply (inj Some) in H. subst s'.
    split; [|done]. by_goto HI.
  - (* CJoinWait *)
    destruct (workers_done (pcs s)); [|done].
    apply (inj Some) in H. subst s'.
    assert (Hw : (p0 ← get_pool (Some (pool s));
                  modify (emit (EvWaitAll (threadNum p0) (threads p0))))
                   (mem s)
                 = Ret tt (emit (EvWaitAll (threadNum p) (threads p)) (mem s)))
      by (by rewrite (bind_Ret _ _ _ _ _ Hgp)).
    rewrite (exec_Ret _ _ _ _ _ Hw) in *.
    split; [|done]. by_goto HI.
Qed.

(** Hence the invariant holds after every schedule from a created pool in
    which no wait fails. *)
Lemma run_inv (ls : list (tid * choice)) : ∀ s s',
  Inv s → forallb wait_ok ls = true → run ls s = Some s' → Inv s'.
Proof.
  induction ls as [|[t c] ls IH]; intros s s' HI Hok H; simpl in H.
  - by injection H as <-.
  - destruct (step t c s) as [s1|] eqn:E; [|done].
    simpl in Hok. apply andb_true_iff in Hok as [Hok1 Hok2].
    eapply IH; [|done|exact H]. by eapply step_inv.
Qed.

End InvFacts.

(** * Schedules in which no wait fails *)

Module Schedules.
Import PoolFacts QueueFacts ChainFacts QueueRep HeadTail FlagFacts FlowFacts
  OwnFacts InvFacts RunningFacts.

Lemma reach_inv (s0 s : state) (ls : list (tid * choice)) :
  initial s0 → run ls s0 = Some s → forallb wait_ok ls = true → Inv s.
Proof.
  intros H0 Hrun Hok. eapply run_inv; [by apply initial_inv|done..].
Qed.

Lemma entries_length (h : gmap addr obj) (q : list addr) :
  (∀ x, x ∈ q → ∃ t, h !! x = Some (OTask t)) →
  length (entries h q) = length q.
Proof.
  unfold entries. induction q as [|x q IH]; intros Hq; [done|]. csimpl.
  destruct (Hq x) as [t Ht]; [by left|]. unfold info. rewrite Ht. simpl.
  f_equal. apply IH. intros y Hy. apply Hq. by right.
Qed.

(** The records dequeued so far, followed by the records that are in the
    queue from head to tail, are the submitted records in the order of
    their submission; every queued record is counted. *)
Theorem dequeue_order_is_submission_order (s0 s : state)
    (ls : list (tid * choice)) :
  initial s0 → run ls s0 = Some s → forallb wait_ok ls = true →
  ∃ p q,
    heap (mem s) !! pool s = Some (OPool p) ∧
    queue_rep (heap (mem s)) p q ∧
    length (entries (heap (mem s)) q) = length q ∧
    dequeued s ++ entries (heap (mem s)) q = submitted s.
Proof.
  intros H0 Hrun Hok.
  destruct (reach_inv _ _ _ H0 Hrun Hok) as (p & q & HI).
  exists p, q. split; [apply HI|]. split; [apply HI|]. split; [|apply HI].
  apply entries_length. intros x Hx.
  eapply chain_head_alloc; [apply (inv_queue _ _ _ HI)|done].
Qed.

Lemma dequeue_order_is_submission_order_witness :
  ∃ s p q, run main_schedule main_state = Some s ∧
           heap (mem s) !! pool s = Some (OPool p) ∧
           dequeued s ++ entries (heap (mem s)) q = submitted s.
Proof.
  destruct (run main_schedule main_state) as [s|] eqn:Hrun;
    [|vm_compute in Hrun; discriminate Hrun].
  destruct (dequeue_order_is_submission_order main_state s main_schedule
              initial_main_state Hrun eq_refl) as (p & q & Hp & _ & _ & Hf).
  exists s, p, q. split; [reflexivity|]. split; [exact Hp|exact Hf].
Defined.

(** No step of the worker loop, of the linking part of
    [thread_pool_add_task] or of [thread_pool_join_all] has undefined
    behaviour (no null or dangling pointer is read, nothing is freed
    twice, the mutex is left by its owner only), and none ends the
    process. *)
Theorem steps_are_defined (s0 s s' : state) (ls : list (tid * choice))
    (t : tid) (c : choice) :
  initial s0 → run ls s0 = Some s → forallb wait_ok ls = true →
  wait_ok (t, c) = true → step t c s = Some s' →
  match c with CallAdd _ _ _ _ _ => True | _ => proc s' = Alive end.
Proof.
  intros H0 Hrun Hok Hokc Hstep.
  eapply step_inv; [|exact Hokc|exact Hstep]. by eapply reach_inv.
Qed.

Lemma steps_are_defined_witness :
  ∃ s s', run (take 16 main_schedule ++ [(0%nat, Go)]) main_state = Some s ∧
          pcs s !! 0%nat = Some (WFree (Some 3%positive)) ∧
          step 0 Go s = Some s' ∧ proc s' = Alive.
Proof.
  destruct (run (take 16 main_schedule ++ [(0%nat, Go)]) main_state) as [s|] eqn:Hrun;
    [|vm_compute in Hrun; discriminate Hrun].
  destruct (step 0 Go s) as [s'|] eqn:Hstep.
  - exists s, s'. split; [reflexivity|]. split.
    + clear Hstep. vm_compute in Hrun. injection Hrun as <-.
      vm_compute. reflexivity.
    + split; [exact Hstep|].
      exact (steps_are_defined main_state s s' (take 16 main_schedule ++ [(0%nat, Go)])
               0%nat Go initial_main_state Hrun eq_refl eq_refl Hstep).
  - exfalso. vm_compute in Hrun. injection Hrun as <-.
    vm_compute in Hstep. discriminate Hstep.
Defined.

Lemma lookup_goto_eq (ts : list pc) (t : tid) (l l' : pc) :
  ts !! t = Some l → <[t := l']> ts !! t = Some l'.
Proof. intros H. apply list_lookup_insert_eq. by eapply lookup_lt_Some. Qed.

(** Line 89.  The worker that evaluates the exit condition owns the
    mutex.  It goes on to leave the loop exactly when the head is [NULL]
    and [running] is 0, and then the queue is empty and every submitted
    record has been dequeued; otherwise the queue is not empty and the
    worker goes on to line 95. *)
Theorem exit_test_decides (s0 s s' : state) (ls : list (tid * choice))
    (t : tid) :
  initial s0 → run ls s0 = Some s → forallb wait_ok ls = true →
  pcs s !! t = Some WExitTest → step t Go s = Some s' →
  mutex s = Some t ∧
  ∃ p q,
    heap (mem s) !! pool s = Some (OPool p) ∧
    queue_rep (heap (mem s)) p q ∧
    ((taskQueueHead p = NULL ∧ running p = 0 ∧ q = [] ∧
      dequeued s = submitted s ∧ pcs s' !! t = Some WExitLeave) ∨
     (taskQueueHead p ≠ NULL ∧ q ≠ [] ∧ pcs s' !! t = Some WRead)).
Proof.
  intros H0 Hrun Hok Hl Hstep.
  destruct (reach_inv _ _ _ H0 Hrun Hok) as (p & q & HI).
  split.
  { destruct (inv_lock _ _ _ HI t _ Hl) as [_ Hiff]. by apply Hiff. }
  exists p, q. split; [apply HI|]. split; [apply HI|].
  pose proof (inv_points _ _ _ HI t _ Hl) as Hnw. simpl in Hnw.
  pose proof (inv_queue _ _ _ HI) as [Hch _].
  unfold step in Hstep. rewrite Hl in Hstep.
  destruct (proc s); [|done..]. apply (inj Some) in Hstep. subst s'.
  rewrite (exec_Ret_same _ _ _ p) by (apply get_pool_at; apply HI).
  destruct (must_exit p) eqn:He.
  - left. unfold must_exit in He. apply andb_true_iff in He as [Hh Hr].
    apply bool_decide_eq_true in Hh. apply Z.eqb_eq in Hr.
    assert (q = []) as ->.
    { destruct q as [|x q]; [done|]. destruct Hch as [Hx _]. congruence. }
    split; [done|]. split; [done|]. split; [done|]. split.
    + rewrite <- (inv_fifo _ _ _ HI). by rewrite app_nil_r.
    + by eapply lookup_goto_eq.
  - right.
    assert (Hh : taskQueueHead p ≠ NULL).
    { intros Hh. unfold must_wait, must_exit in *. rewrite Hh in *.
      rewrite bool_decide_eq_true_2 in * by done. simpl in *.
      by destruct (running p =? 0). }
    split; [done|]. split; [|by eapply lookup_goto_eq].
    intros ->. by apply Hh.
Qed.

Lemma exit_test_decides_witness :
  ∃ s s', run (take 12 main_schedule) main_state = Some s ∧
          step 0 Go s = Some s' ∧ mutex s = Some 0%nat.
Proof.
  destruct (run (take 12 main_schedule) main_state) as [s|] eqn:Hrun;
    [|vm_compute in Hrun; discriminate Hrun].
  assert (Hl : pcs s !! 0%nat = Some WExitTest).
  { pose proof Hrun as Hr. vm_compute in Hr. injection Hr as <-.
    vm_compute. reflexivity. }
  destruct (step 0 Go s) as [s'|] eqn:Hstep.
  - exists s, s'. split; [reflexivity|]. split; [exact Hstep|].
    apply (exit_test_decides main_state s s' (take 12 main_schedule) 0%nat
             initial_main_state Hrun eq_refl Hl Hstep).
  - exfalso. vm_compute in Hrun. injection Hrun as <-.
    vm_compute in Hstep. discriminate Hstep.
Defined.

(** At most one thread is between [EnterCriticalSection] and
    [LeaveCriticalSection]. *)
Theorem mutual_exclusion (s0 s : state) (ls : list (tid * choice))
    (t1 t2 : tid) (l1 l2 : pc) :
  initial s0 → run ls s0 = Some s → forallb wait_ok ls = true →
  pcs s !! t1 = Some l1 → pcs s !! t2 = Some l2 →
  in_cs l1 = true → in_cs l2 = true → t1 = t2.
Proof.
  intros H0 Hrun Hok Hl1 Hl2 Hc1 Hc2.
  destruct (reach_inv _ _ _ H0 Hrun Hok) as (p & q & HI).
  destruct (inv_lock _ _ _ HI t1 _ Hl1) as [_ Hi1].
  destruct (inv_lock _ _ _ HI t2 _ Hl2) as [_ Hi2].
  apply Hi1 in Hc1. apply Hi2 in Hc2. congruence.
Qed.

Lemma mutual_exclusion_witness :
  ∃ s, run (take 12 main_schedule) main_state = Some s ∧
       ∀ t l, pcs s !! t = Some l → in_cs l = true → t = 0%nat.
Proof.
  destruct (run (take 12 main_schedule) main_state) as [s|] eqn:Hrun;
    [|vm_compute in Hrun; discriminate Hrun].
  assert (Hl : pcs s !! 0%nat = Some WExitTest).
  { pose proof Hrun as Hr. vm_compute in Hr. injection Hr as <-.
    vm_compute. reflexivity. }
  exists s. split; [reflexivity|]. intros t l Ht Hc.
  exact (mutual_exclusion main_state s (take 12 main_schedule) t 0%nat l
           WExitTest initial_main_state Hrun eq_refl Ht Hl Hc eq_refl).
Defined.

(** A worker that has left the loop, or is about to, has seen
    [running = 0], and [running] still is 0. *)
Theorem no_exit_while_running (s0 s : state) (ls : list (tid * choice))
    (t : tid) (l : pc) :
  initial s0 → run ls s0 = Some s → forallb wait_ok ls = true →
  pcs s !! t = Some l → l = WExitLeave ∨ l = WExited →
  ∃ p, heap (mem s) !! pool s = Some (OPool p) ∧ running p = 0.
Proof.
  intros H0 Hrun Hok Hl Hex.
  destruct (reach_inv _ _ _ H0 Hrun Hok) as (p & q & HI).
  exists p. split; [apply HI|].
  pose proof (inv_points _ _ _ HI t _ Hl) as Hpt.
  by destruct Hex as [-> | ->].
Qed.

Lemma no_exit_while_running_witness :
  ∃ s p, run main_schedule main_state = Some s ∧
         heap (mem s) !! pool s = Some (OPool p) ∧ running p = 0.
Proof.
  destruct (run main_schedule main_state) as [s|] eqn:Hrun;
    [|vm_compute in Hrun; discriminate Hrun].
  assert (Hl : pcs s !! 0%nat = Some WExited).
  { pose proof Hrun as Hr. vm_compute in Hr. injection Hr as <-.
    vm_compute. reflexivity. }
  destruct (no_exit_while_running main_state s main_schedule 0%nat WExited
              initial_main_state Hrun eq_refl Hl (or_intror eq_refl))
    as (p & Hp & Hr).
  exists s, p. split; [reflexivity|]. split; [exact Hp|exact Hr].
Defined.

(** Line 102.  The worker invokes the callable of the record it holds
    with the argument pointer stored in that record; record and argument
    buffer are still allocated at that moment (they are freed by lines
    105-106 only), and the step changes nothing in the heap. *)
Theorem call_uses_live_argument (s0 s s' : state) (ls : list (tid * choice))
    (t : tid) (hp : ptr) :
  initial s0 → run ls s0 = Some s → forallb wait_ok ls = true →
  pcs s !! t = Some (WCall hp) → step t Go s = Some s' →
  ∃ x tx,
    hp = Some x ∧ heap (mem s) !! x = Some (OTask tx) ∧
    (∀ b, taskArgs tx = Some b →
          ∃ bs, heap (mem s) !! b = Some (OBytes bs)) ∧
    trace (mem s') = trace (mem s) ++ [EvCall (task tx) (taskArgs tx)] ∧
    heap (mem s') = heap (mem s) ∧
    pcs s' !! t = Some (WFree hp).
Proof.
  intros H0 Hrun Hok Hl Hstep.
  destruct (reach_inv _ _ _ H0 Hrun Hok) as (p & q & HI).
  pose proof (lock_discipline_flows _ _ _ _ (step_flows _ _ _ _ Hstep)
                eq_refl (inv_lock _ _ _ HI)) as Hld.
  unfold step in Hstep. rewrite Hl in Hstep.
  destruct (proc s); [|done..]. apply (inj Some) in Hstep. subst s'.
  destruct (inv_call s p q t hp HI Hl Hld)
    as (_ & _ & x & tx & -> & Htx & Htr).
  exists x, tx. split; [done|]. split; [done|]. split; [|split; [done|]].
  - intros b Hb. destruct (inv_owned _ _ _ HI) as (_ & _ & _ & Hbytes).
    apply Hbytes. rewrite args_of_app. apply elem_of_app. right.
    unfold args_of. apply list_elem_of_omap. exists x. split.
    + by eapply (held_elem _ t (WCall (Some x))).
    + unfold arg_of. by rewrite Htx.
  - assert (Hc : call_task (Some x) (mem s)
                 = Ret tt (emit (EvCall (task tx) (taskArgs tx)) (mem s))).
    { unfold call_task.
      by rewrite (bind_Ret _ _ _ _ _ (get_task_at _ _ _ Htx)). }
    rewrite (exec_Ret _ _ _ _ _ Hc). simpl. split; [done|].
    by eapply lookup_goto_eq.
Qed.

Lemma call_uses_live_argument_witness :
  ∃ s s', run (take 16 main_schedule) main_state = Some s ∧
          step 0 Go s = Some s' ∧
          trace (mem s') = trace (mem s) ++ [EvCall 0%nat NULL].
Proof.
  destruct (run (take 16 main_schedule) main_state) as [s|] eqn:Hrun;
    [|vm_compute in Hrun; discriminate Hrun].
  assert (Hl : pcs s !! 0%nat = Some (WCall (Some 3%positive))).
  { pose proof Hrun as Hr. vm_compute in Hr. injection Hr as <-.
    vm_compute. reflexivity. }
  assert (Hx : heap (mem s) !! 3%positive
               = Some (OTask {| task := 0%nat; taskArgs := NULL;
                                next := Some 5%positive |})).
  { pose proof Hrun as Hr. vm_compute in Hr. injection Hr as <-.
    vm_compute. reflexivity. }
  destruct (step 0 Go s) as [s'|] eqn:Hstep.
  - destruct (call_uses_live_argument main_state s s' _ 0%nat _
                initial_main_state Hrun eq_refl Hl Hstep)
      as (x & tx & [= <-] & Htx & _ & Htr & _).
    rewrite Hx in Htx. injection Htx as <-.
    exists s, s'. split; [reflexivity|]. split; [exact Hstep|exact Htr].
  - exfalso. vm_compute in Hrun. injection Hrun as <-.
    vm_compute in Hstep. discriminate Hstep.
Defined.

End Schedules.

(** * Every schedule, failed waits included *)

Module AnySchedule.
Import PoolFacts QueueFacts FlagFacts FlowFacts RunningFacts Schedules.

(** A caller that is between [EnterCriticalSection] and
    [LeaveCriticalSection] inside [thread_pool_add_task] or
    [thread_pool_join_all] owns the mutex, whatever the workers do. *)
Theorem callers_hold_lock (s0 s : state) (ls : list (tid * choice))
    (t : tid) (l : pc) :
  initial s0 → run ls s0 = Some s →
  pcs s !! t = Some l → client_cs l = true → mutex s = Some t.
Proof.
  intros (r1 & r2 & spawn & fmt & n & w0 & w & a & nc & _ & ->) Hrun Hl Hc.
  by eapply (run_callers_own _ _ _ Hrun (boot_callers_own _ _ _ _)).
Qed.

Lemma callers_hold_lock_witness :
  ∃ s, run (take 2 racing_schedule ++ [(4, CallJoin); (4, Go)]%nat)
         main_state = Some s ∧
       mutex s = Some 4%nat.
Proof.
  destruct (run (take 2 racing_schedule ++ [(4, CallJoin); (4, Go)]%nat)
              main_state) as [s|] eqn:Hrun;
    [|vm_compute in Hrun; discriminate Hrun].
  assert (Hl : pcs s !! 4%nat = Some CJoinSet).
  { pose proof Hrun as Hr. vm_compute in Hr. injection Hr as <-.
    vm_compute. reflexivity. }
  exists s. split; [reflexivity|].
  exact (callers_hold_lock main_state s _ 4%nat CJoinSet initial_main_state
           Hrun Hl eq_refl).
Defined.

(** When the wait has failed and [FormatMessageA] fails as well, the
    report ends the whole process, at a point where the worker still owns
    the mutex; the last output is the call site inside
    [print_last_system_error]. *)
Theorem failed_report_ends_process (s s' : state) (t : tid) :
  proc s = Alive → pcs s !! t = Some (WReport None) →
  step t Go s = Some s' →
  proc s' = Halted ∧ mutex s' = mutex s ∧ pcs s' = pcs s ∧
  last (trace (mem s')) =
    Some (EvStderr ("print_last_system_error, line: 66: "
                      +:+ "FormatMessageA() failed." +:+ newline)).
Proof.
  intros Ha Hl Hstep. unfold step in Hstep. rewrite Ha, Hl in Hstep.
  apply (inj Some) in Hstep. subst s'. unfold exec. simpl.
  repeat split. by rewrite last_snoc.
Qed.

Lemma failed_report_ends_process_witness :
  ∃ s s', run [(0, Go); (0, Go); (0, WaitFails None)]%nat main_state
            = Some s ∧
          step 0 Go s = Some s' ∧ proc s' = Halted ∧ mutex s' = Some 0%nat.
Proof.
  destruct (run [(0, Go); (0, Go); (0, WaitFails None)]%nat main_state)
    as [s|] eqn:Hrun; [|vm_compute in Hrun; discriminate Hrun].
  assert (Hl : pcs s !! 0%nat = Some (WReport None)).
  { pose proof Hrun as Hr. vm_compute in Hr. injection Hr as <-.
    vm_compute. reflexivity. }
  assert (Ha : proc s = Alive).
  { pose proof Hrun as Hr. vm_compute in Hr. injection Hr as <-.
    reflexivity. }
  assert (Hm : mutex s = Some 0%nat).
  { pose proof Hrun as Hr. vm_compute in Hr. injection Hr as <-.
    reflexivity. }
  destruct (step 0 Go s) as [s'|] eqn:Hstep.
  - destruct (failed_report_ends_process s s' 0%nat Ha Hl Hstep)
      as (Hp & Hmu & _).
    exists s, s'. split; [reflexivity|]. split; [exact Hstep|].
    split; [exact Hp|]. by rewrite Hmu.
  - exfalso. unfold step in Hstep. by rewrite Ha, Hl in Hstep.
Defined.

(** Only line 96 adds to the log of dequeued records. *)
Lemma step_dequeued (t : tid) (c : choice) (s s' : state) :
  step t c s = Some s' → (∀ h, pcs s !! t ≠ Some (WAdvance h)) →
  dequeued s' = dequeued s.
Proof.
  intros H Hna. step_cases H;
    try (by destruct (Hna headTask));
    try (unfold acquire in H; destruct (mutex s); [done|];
         by injection H as <-);
    try (case_match; [|done]);
    apply (inj Some) in H; subst s';
    try (apply (exec_shape _ _ _ (λ s1, dequeued s1 = dequeued s));
         [ done | done
         | intros; repeat case_match; simpl; try done;
           unfold release; by case_decide ]);
    try (unfold release; by case_decide).
Qed.

Lemma workers_done_lookup (ts : list pc) (t : tid) (l : pc) :
  workers_done ts = true → ts !! t = Some l →
  is_worker l = false ∨ l = WExited.
Proof.
  intros Hd Hl. unfold workers_done in Hd.
  rewrite forallb_forall in Hd.
  specialize (Hd l (proj1 (list_elem_of_In _ _)
                             (list_elem_of_lookup_2 _ _ _ Hl))).
  apply orb_true_iff in Hd as [Hd|Hd].
  - left. by apply negb_true_iff.
  - right. by destruct l.
Qed.

Lemma workers_done_goto (ts : list pc) (t : tid) (l' : pc) :
  workers_done ts = true → is_worker l' = false →
  workers_done (<[t := l']> ts) = true.
Proof.
  intros Hd Hl'. unfold workers_done in *. rewrite forallb_forall in *.
  intros l Hin. apply list_elem_of_In in Hin.
  apply list_elem_of_lookup in Hin as [i Hi].
  apply lookup_goto in Hi as [[_ ->]|[_ Hi]].
  - by rewrite Hl'.
  - apply Hd. apply list_elem_of_In. by eapply list_elem_of_lookup_2.
Qed.

Lemma edge_client (l l' : pc) (k : lock_change) :
  edge l l' k → is_worker l = false → is_worker l' = false.
Proof. by destruct 1. Qed.

Lemma step_exited (t : tid) (c : choice) (s : state) :
  pcs s !! t = Some WExited → step t c s = None.
Proof.
  intros Hl. unfold step. rewrite Hl. destruct (proc s); [|done..].
  by destruct c.
Qed.

(** Once every worker has returned, no record is dequeued any more:
    whatever is submitted from then on stays in the queue. *)
Theorem nothing_dequeued_after_workers_return (ls : list (tid * choice)) :
  ∀ s s', workers_done (pcs s) = true → run ls s = Some s' →
          dequeued s' = dequeued s ∧ workers_done (pcs s') = true.
Proof.
  induction ls as [|[t c] ls IH]; intros s s' Hd Hrun; simpl in Hrun.
  - by injection Hrun as <-.
  - destruct (step t c s) as [s1|] eqn:Hstep; [|done].
    assert (Hcl : ∀ l, pcs s !! t = Some l → is_worker l = false).
    { intros l Hl.
      destruct (workers_done_lookup _ _ _ Hd Hl) as [?| ->]; [done|].
      by rewrite (step_exited _ _ _ Hl) in Hstep. }
    assert (Hd1 : workers_done (pcs s1) = true).
    { destruct (step_flows _ _ _ _ Hstep)
        as [[-> _]|(l & l' & k & Hl & -> & He & _)]; [done|].
      apply workers_done_goto; [done|].
      eapply edge_client; [exact He|by apply Hcl]. }
    destruct (IH s1 s' Hd1 Hrun) as [-> Hd'].
    split; [|done]. eapply step_dequeued; [exact Hstep|].
    intros h Hl. by specialize (Hcl _ Hl).
Qed.

Lemma nothing_dequeued_after_workers_return_witness :
  ∃ s s', run main_schedule main_state = Some s ∧
          run [(4, CallAdd (Some 7%positive) None 0 NULL 0);
               (4, Go); (4, Go); (4, Go); (4, Go)]%nat s = Some s' ∧
          dequeued s' = dequeued s.
Proof.
  destruct (run main_schedule main_state) as [s|] eqn:Hrun;
    [|vm_compute in Hrun; discriminate Hrun].
  assert (Hd : workers_done (pcs s) = true).
  { pose proof Hrun as Hr. vm_compute in Hr. injection Hr as <-.
    reflexivity. }
  destruct (run [(4, CallAdd (Some 7%positive) None 0 NULL 0);
                 (4, Go); (4, Go); (4, Go); (4, Go)]%nat s)
    as [s'|] eqn:Hrun'.
  - exists s, s'. split; [reflexivity|]. split; [exact Hrun'|].
    exact (proj1 (nothing_dequeued_after_workers_return _ s s' Hd Hrun')).
  - exfalso. vm_compute in Hrun. injection Hrun as <-.
    vm_compute in Hrun'. discriminate Hrun'.
Defined.

(** The only way out of the worker loop is through lines 89-91: a thread
    arrives at the return after line 90 only, and at line 90 only from the
    test of line 89, at a moment when the pool struct shows no head and
    [running = 0]. *)
Theorem worker_returns_through_exit_test (t : tid) (c : choice)
    (s s' : state) :
  step t c s = Some s' →
  (pcs s' !! t = Some WExited → pcs s !! t = Some WExitLeave) ∧
  (pcs s' !! t = Some WExitLeave → pcs s !! t ≠ Some WExitLeave →
   pcs s !! t = Some WExitTest ∧
   ∃ p, pool_of s = Some p ∧ taskQueueHead p = NULL ∧ running p = 0).
Proof.
  intros Hstep. split.
  - intros Hl'.
    destruct (step_flows _ _ _ _ Hstep)
      as [[E _]|(l & l' & k & Hl & E & He & _)].
    + rewrite E in Hl'. by rewrite (step_exited _ _ _ Hl') in Hstep.
    + rewrite E, (lookup_goto_eq _ _ _ _ Hl) in Hl'. injection Hl' as ->.
      by inversion He; subst.
  - intros Hl' Hne.
    assert (Hl : pcs s !! t = Some WExitTest).
    { destruct (step_flows _ _ _ _ Hstep)
        as [[E _]|(l & l' & k & Hl & E & He & _)].
      - rewrite E in Hl'. done.
      - rewrite E, (lookup_goto_eq _ _ _ _ Hl) in Hl'. injection Hl' as ->.
        by inversion He; subst. }
    split; [done|].
    unfold step in Hstep. rewrite Hl in Hstep.
    destruct (proc s); [|done..]. destruct c; try done.
    apply (inj Some) in Hstep. subst s'. unfold exec in Hl'.
    destruct (get_pool (Some (pool s)) (mem s)) as [p w'|w'|] eqn:Hgp;
      simpl in Hl'; [|congruence..].
    apply get_pool_inv in Hgp as (-> & a & [= <-] & Hp).
    exists p. split; [by apply pool_of_Some|].
    destruct (must_exit p) eqn:He.
    + unfold must_exit in He. apply andb_true_iff in He as [Hh Hr].
      apply bool_decide_eq_true in Hh. by apply Z.eqb_eq in Hr.
    + simpl in Hl'. rewrite (lookup_goto_eq _ _ _ _ Hl) in Hl'. done.
Qed.

Lemma worker_returns_through_exit_test_witness :
  ∃ s s', run (take 31 main_schedule) main_state = Some s ∧
          step 0 Go s = Some s' ∧
          pcs s !! 0%nat = Some WExitTest ∧
          ∃ p, pool_of s = Some p ∧ running p = 0.
Proof.
  destruct (run (take 31 main_schedule) main_state) as [s|] eqn:Hrun;
    [|vm_compute in Hrun; discriminate Hrun].
  destruct (step 0 Go s) as [s'|] eqn:Hstep.
  - assert (Hl' : pcs s' !! 0%nat = Some WExitLeave).
    { pose proof Hrun as Hr. pose proof Hstep as Hs. vm_compute in Hr.
      injection Hr as Es. rewrite <- Es in Hs. vm_compute in Hs.
      injection Hs as <-. reflexivity. }
    assert (Hne : pcs s !! 0%nat ≠ Some WExitLeave).
    { pose proof Hrun as Hr. vm_compute in Hr. injection Hr as <-.
      vm_compute. discriminate. }
    destruct (worker_returns_through_exit_test 0%nat Go s s' Hstep)
      as [_ H].
    destruct (H Hl' Hne) as (Hl & p & Hp & _ & Hr).
    exists s, s'. split; [reflexivity|]. split; [exact Hstep|].
    split; [exact Hl|]. exists p. split; [exact Hp|exact Hr].
  - exfalso. vm_compute in Hrun. injection Hrun as <-.
    vm_compute in Hstep. discriminate Hstep.
Defined.

End AnySchedule.

(** * More on the procedures *)

Module ProcFacts.
Import PoolFacts QueueFacts ChainFacts QueueRep HeadTail SubmitFacts.

(** A round of the drain loop frees at least the head record. *)
Lemma drain_one_shrinks (a : addr) (p : ThreadPool) (w w' : world) :
  heap w !! a = Some (OPool p) →
  drain_one (Some a) w = Ret tt w' →
  (size (heap w') < size (heap w))%nat.
Proof.
  intros Hp H. unfold drain_one in H.
  rewrite (bind_Ret _ _ _ _ _ (get_pool_at _ _ _ Hp)) in H.
  apply bind_Ret_inv in H as (t & w0 & Ht & H).
  apply get_task_inv in Ht as (-> & h & Hh & Hht).
  apply bind_Ret_inv in H as ([] & w1 & Hf & H).
  apply bind_Ret_inv in H as (p1 & w2 & Hp1 & H).
  apply get_pool_inv in Hp1 as (-> & a' & [= <-] & Hp1).
  apply bind_Ret_inv in H as ([] & w3 & Hf2 & H).
  apply set_pool_inv in H as (a' & p2 & [= <-] & Hp3 & ->).
  assert (Hle : (size (heap w1) ≤ size (heap w))%nat).
  { apply free_inv in Hf as [[_ ->]|(b & o & _ & Hb & ->)]; [done|].
    simpl. rewrite map_size_delete_Some by eauto. lia. }
  assert (p1 = p) as ->.
  { apply free_inv in Hf as [[_ ->]|(b & o & _ & _ & ->)]; [congruence|].
    simpl in Hp1. apply lookup_delete_Some in Hp1 as [_ Hp1]. congruence. }
  apply free_inv in Hf2 as [[E _]|(h' & o & E & Ho & ->)].
  - congruence.
  - simpl in *. rewrite map_size_insert_Some by eauto.
    rewrite map_size_delete_Some by eauto.
    pose proof (map_size_ne_0_lookup_2 (heap w1) h' (mk_is_Some _ _ Ho)).
    lia.
Qed.

(** The drain loop of [thread_pool_destroy] ends on every heap, also on
    one whose chain is broken or cyclic: as many rounds as there are
    allocated blocks are enough, since every round frees one. *)
Theorem drain_terminates (pool : ptr) (n : nat) :
  ∀ w, (size (heap w) ≤ n)%nat → ∃ r, drain pool n w = Some r.
Proof.
  induction n as [|n IH]; intros w Hn; rewrite drain_eq.
  - destruct (get_pool pool w) as [p w'|w'|] eqn:Hgp; [|eauto..].
    apply get_pool_inv in Hgp as (-> & a & -> & Hp).
    pose proof (map_size_ne_0_lookup_2 (heap w) a (mk_is_Some _ _ Hp)). lia.
  - destruct (get_pool pool w) as [p w'|w'|] eqn:Hgp; [|eauto..].
    apply get_pool_inv in Hgp as (-> & a & -> & Hp).
    destruct (taskQueueHead p); [|eauto].
    destruct (drain_one (Some a) w) as [[] w1| |] eqn:Hd; [|eauto..].
    apply IH. apply (drain_one_shrinks _ _ _ _ Hp) in Hd. lia.
Qed.

Lemma drain_terminates_witness :
  ∃ r, drain (Some 1%positive) 5 pending_world = Some r.
Proof.
  apply (drain_terminates (Some 1%positive) 5 pending_world).
  vm_compute. lia.
Defined.

(** [create_thread_pool] with [threadNum <= 0]: the loop body never runs,
    so [CreateThread] is not called, the handle array stays as it was
    allocated, and a pool without workers is returned with [running = 1].
    For a negative [threadNum] (an [int32_t]) the array is requested with
    [2^64 + 8 * threadNum] bytes, the product taken in [size_t]. *)
Theorem create_without_workers (spawn : Z → option HANDLE)
    (fmt : option string) (threadNum : Z) (pa arr : addr) (w : world) :
  threadNum ≤ 0 → pa ≠ arr →
  ∃ w',
    create_thread_pool (Some pa) (Some arr) spawn fmt threadNum w
      = Ret pa w' ∧
    trace w' = trace w ∧
    heap w' !! arr = Some (OFresh (handles_size threadNum)) ∧
    heap w' !! pa =
      Some (OPool {| running := 1; threadNum := threadNum;
                     threads := Some arr;
                     taskQueueHead := NULL; taskQueueTail := NULL |}) ∧
    (- 2 ^ 31 ≤ threadNum < 0 →
       Z.of_N (handles_size threadNum) = 2 ^ 64 + 8 * threadNum).
Proof.
  intros Hn Hne. unfold create_thread_pool, underlying_safe_malloc, malloc.
  mstep. rewrite lookup_insert_ne by done. rewrite lookup_insert_eq. simpl.
  replace (Z.to_nat threadNum) with 0%nat by lia. simpl.
  eexists. split; [done|]. simpl. split; [done|]. split; [|split].
  - rewrite lookup_insert_ne by done. by rewrite lookup_insert_eq.
  - by rewrite lookup_insert_eq.
  - intros Hr. unfold handles_size, sizeof_HANDLE, size_max.
    rewrite Z2N.id by (apply Z.mod_pos_bound; lia).
    change (Z.of_N 8) with 8. change (Z.of_N (2 ^ 64)) with (2 ^ 64).
    rewrite <- (Z.mod_add _ 1) by lia.
    rewrite Z.mod_small; lia.
Qed.

Lemma create_without_workers_witness :
  ∃ w', create_thread_pool (Some 1%positive) (Some 2%positive) main_spawn
          None (-1) start_world = Ret 1%positive w' ∧
        heap w' !! 2%positive = Some (OFresh (2 ^ 64 - 8)).
Proof.
  destruct (create_without_workers main_spawn None (-1) 1%positive
              2%positive start_world) as (w' & Hc & _ & Harr & _);
    [lia|done|].
  exists w'. split; [exact Hc|exact Harr].
Defined.

(** [thread_pool_add_task] when an allocation fails.  If the record cannot
    be allocated the process ends with nothing changed but the report of
    line 191.  If the argument buffer cannot be allocated the process ends
    with the report of line 198; the record block stays allocated and
    every other block, the pool and its queue included, is as before. *)
Theorem add_task_allocation_failure (r2 : ptr) (pool : ptr) (f : taskFunc)
    (args : ptr) (n : N) (temp src : addr) (w : world) :
  thread_pool_add_task NULL r2 pool f args n w
    = Exit (emit (EvStderr (malloc_report "thread_pool_add_task" 191)) w) ∧
  thread_pool_add_task (Some temp) NULL pool f (Some src) n w
    = Exit {| heap := <[temp := OFresh sizeof_Task]> (heap w);
              trace := trace w ++
                       [EvStderr (malloc_report "thread_pool_add_task" 198)]
           |}.
Proof. split; reflexivity. Qed.

(** The enqueue of lines 208-214 on a well-formed queue [q], the empty
    queue with a stale tail included: it returns, the queue is
    [q ++ [temp]] with [temp] as the tail, every record keeps its callable
    and argument, and blocks other than the pool struct and the records of
    [q] are untouched. *)
Theorem enqueue_appends (a temp : addr) (p : ThreadPool) (t0 : Task)
    (q : list addr) (w : world) :
  heap w !! a = Some (OPool p) →
  queue_rep (heap w) p q →
  heap w !! temp = Some (OTask t0) → next t0 = NULL → temp ∉ q →
  ∃ w' p',
    enqueue (Some a) temp w = Ret tt w' ∧
    heap w' !! a = Some (OPool p') ∧
    queue_rep (heap w') p' (q ++ [temp]) ∧
    taskQueueTail p' = Some temp ∧
    running p' = running p ∧
    (∀ x, info (heap w') x = info (heap w) x) ∧
    (∀ x, x ≠ a → x ∉ q → heap w' !! x = heap w !! x).
Proof.
  intros Hp Hq Ht Hn Hfresh.
  destruct (enqueue_rep a temp p t0 q w Hp Hq Ht Hn Hfresh)
    as (w' & p' & He & Hp' & Hq' & Hsl & Hfr & _).
  exists w', p'. split; [done|]. split; [done|]. split; [done|].
  split; [|split; [|split; [|done]]].
  - destruct Hq' as [_ Htl]. rewrite Htl by (by destruct q).
    by rewrite last_snoc.
  - by destruct (same_but_links_running _ _ _ _ _ Hsl Hp Hp') as (-> & _).
  - intros x. by apply same_but_links_info.
Qed.

Lemma enqueue_appends_witness :
  ∃ w' p', enqueue (Some 1%positive) 7%positive
             (set_heap (insert 7%positive
                          (OTask {| task := 2%nat; taskArgs := NULL;
                                    next := NULL |})) pending_world)
           = Ret tt w' ∧
           queue_rep (heap w') p' [3; 5; 7]%positive.
Proof.
  destruct (enqueue_appends 1%positive 7%positive pending_pool
              {| task := 2%nat; taskArgs := NULL; next := NULL |}
              [3; 5]%positive
              (set_heap (insert 7%positive
                           (OTask {| task := 2%nat; taskArgs := NULL;
                                     next := NULL |})) pending_world))
    as (w' & p' & He & _ & Hq & _).
  - reflexivity.
  - split; [|done]. simpl. split; [done|]. eexists. split; [reflexivity|].
    simpl. split; [done|]. eexists. split; [reflexivity|]. done.
  - reflexivity.
  - reflexivity.
  - intros Hin. apply elem_of_cons in Hin as [Hin|Hin]; [done|].
    apply elem_of_cons in Hin as [Hin|Hin]; [done|].
    by apply elem_of_nil in Hin.
  - exists w', p'. split; [exact He|exact Hq].
Defined.

(** The dequeue of lines 95-96 on a well-formed queue [hd :: q]: it
    returns the head record [hd], the queue is [q], the tail field and
    every record are untouched. *)
Theorem pop_head_takes_first (a hd : addr) (p : ThreadPool) (q : list addr)
    (w : world) :
  heap w !! a = Some (OPool p) →
  queue_rep (heap w) p (hd :: q) →
  ∃ t,
    heap w !! hd = Some (OTask t) ∧
    pop_head (Some a) w =
      Ret (Some hd) (set_heap (insert a (OPool (with_head (next t) p))) w) ∧
    queue_rep (<[a := OPool (with_head (next t) p)]> (heap w))
      (with_head (next t) p) q ∧
    taskQueueTail (with_head (next t) p) = taskQueueTail p.
Proof.
  intros Hp Hq.
  destruct (advance_head_rep a hd p q w Hp Hq)
    as (t & Ht & Hh & Hadv & Hq' & _).
  exists t. split; [done|]. split; [|split; [done|done]].
  unfold pop_head. rewrite (bind_Ret _ _ _ _ _ (read_head_at _ _ _ Hp)).
  rewrite (bind_Ret _ _ _ _ _ Hadv). by rewrite Hh.
Qed.

Lemma pop_head_takes_first_witness :
  ∃ w', pop_head (Some 1%positive) pending_world = Ret (Some 3%positive) w'.
Proof.
  destruct (pop_head_takes_first 1%positive 3%positive pending_pool
              [5%positive] pending_world) as (t & _ & Hpop & _).
  - reflexivity.
  - split; [|done]. simpl. split; [done|]. eexists. split; [reflexivity|].
    simpl. split; [done|]. eexists. split; [reflexivity|]. done.
  - eexists. exact Hpop.
Defined.

End ProcFacts.

(** * Invocations *)

Module Invoked.
Import PoolFacts QueueFacts ChainFacts QueueRep HeadTail FlagFacts FlowFacts
  OwnFacts InvFacts RunningFacts Schedules.

Lemma calls_snoc (tr : list event) (e : event) :
  calls (tr ++ [e]) = calls tr ++ option_list (call_of e).
Proof. unfold calls. rewrite omap_app. csimpl. by destruct (call_of e). Qed.

Lemma calls_snoc_quiet (tr : list event) (e : event) :
  call_of e = None → calls (tr ++ [e]) = calls tr.
Proof. intros H. rewrite calls_snoc, H. simpl. by rewrite app_nil_r. Qed.

(** *** Procedures that invoke nothing *)

Lemma Quiet_ret {A} (x : A) : Quiet (mret x).
Proof. by intros w w' [= <-]. Qed.

Lemma Quiet_fault {A} : Quiet (@fault A).
Proof. by intros w w' H. Qed.

Lemma Quiet_exit {A} : Quiet (@exit_failure A).
Proof. by intros w w' [= <-]. Qed.

Lemma Quiet_bind {A B} (m : M A) (k : A → M B) :
  Quiet m → (∀ x, Quiet (k x)) → Quiet (m ≫= k).
Proof.
  intros Hm Hk w w' H. unfold mbind, M_bind, bind in H.
  destruct (m w) as [x w1|w1|] eqn:E.
  - rewrite (Hk x _ _ H). apply Hm. by rewrite E.
  - apply Hm. by rewrite E.
  - done.
Qed.

Lemma Quiet_emit (e : event) : call_of e = None → Quiet (modify (emit e)).
Proof. intros He w w' [= <-]. simpl. by apply calls_snoc_quiet. Qed.

Lemma Quiet_get_obj (x : addr) : Quiet (get_obj x).
Proof.
  intros w w' H. unfold get_obj in H. destruct (heap w !! x); [|done].
  by injection H as <-.
Qed.

Lemma Quiet_put_obj (x : addr) (o : obj) : Quiet (put_obj x o).
Proof.
  intros w w' H. unfold put_obj in H. destruct (heap w !! x); [|done].
  by injection H as <-.
Qed.

Lemma Quiet_malloc (len : N) (r : ptr) : Quiet (malloc len r).
Proof. intros w w' H. by destruct r as [x|]; injection H as <-. Qed.

Lemma Quiet_safe_malloc len f l r : Quiet (underlying_safe_malloc len f l r).
Proof.
  unfold underlying_safe_malloc. apply Quiet_bind; [apply Quiet_malloc|].
  intros [x|]; [apply Quiet_ret|].
  apply Quiet_bind; [by apply Quiet_emit|intros; apply Quiet_exit].
Qed.

Lemma Quiet_memcpy (dst src : addr) (n : N) : Quiet (memcpy dst src n).
Proof.
  unfold memcpy. apply Quiet_bind; [apply Quiet_get_obj|].
  intros []; try apply Quiet_fault.
  case_match; [apply Quiet_fault|apply Quiet_put_obj].
Qed.

Lemma Quiet_build_task r1 r2 f args n : Quiet (build_task r1 r2 f args n).
Proof.
  unfold build_task. apply Quiet_bind; [apply Quiet_safe_malloc|].
  intros temp. apply Quiet_bind.
  - destruct args; [|apply Quiet_ret].
    apply Quiet_bind; [apply Quiet_safe_malloc|]. intros b.
    apply Quiet_bind; [apply Quiet_memcpy|intros; apply Quiet_ret].
  - intros args'. apply Quiet_bind; [apply Quiet_put_obj|].
    intros; apply Quiet_ret.
Qed.

(** Lines 105-106 only take blocks away. *)
Lemma free_task_shrinks (hp : ptr) (w w' : world) :
  free_task hp w = Ret tt w' → heap w' ⊆ heap w ∧ trace w' = trace w.
Proof.
  intros H. unfold free_task in H.
  apply bind_Ret_inv in H as (tk & w1 & Ht & H).
  apply get_task_inv in Ht as (-> & x & -> & Hx).
  apply bind_Ret_inv in H as ([] & w2 & H1 & H2).
  apply free_inv in H2 as [[? _]|(a & o & _ & _ & ->)]; [done|].
  apply free_inv in H1 as [[_ ->]|(b & o' & _ & _ & ->)]; simpl.
  - split; [apply delete_subseteq|done].
  - split; [|done]. etrans; apply delete_subseteq.
Qed.

(** *** Records between the dequeue and the call *)

Lemma inflights_ext (h h' : gmap addr obj) (ts : list pc) :
  (∀ i l, ts !! i = Some l → inflight h' l = inflight h l) →
  inflights h' ts = inflights h ts.
Proof.
  induction ts as [|l ts IH]; intros H; [done|]. unfold inflights in *.
  csimpl. rewrite (H 0%nat l eq_refl). rewrite IH; [done|].
  intros i l1 Hi. by apply (H (S i)).
Qed.

Lemma inflights_goto (h h' : gmap addr obj) (ts : list pc) (t : tid)
    (l l' : pc) :
  ts !! t = Some l →
  (∀ i l1, i ≠ t → ts !! i = Some l1 → inflight h' l1 = inflight h l1) →
  ∃ rest, inflights h ts ≡ₚ option_list (inflight h l) ++ rest ∧
          inflights h' (<[t := l']> ts)
          ≡ₚ option_list (inflight h' l') ++ rest.
Proof.
  revert t. induction ts as [|l0 ts IH]; intros [|t] Hl Hst; simpl in *;
    try done.
  - injection Hl as ->. exists (inflights h ts).
    rewrite <- (inflights_ext h h' ts) at 2.
    + unfold inflights. csimpl.
      split; [by destruct (inflight h l)|by destruct (inflight h' l')].
    + intros i l1 Hi. by apply (Hst (S i)).
  - destruct (IH t Hl) as (rest & H1 & H2).
    { intros i l1 Hi Hl1. apply (Hst (S i)); [lia|done]. }
    exists (option_list (inflight h l0) ++ rest). unfold inflights in *.
    csimpl. split.
    + rewrite (Permutation_app_swap_app (option_list (inflight h l))).
      destruct (inflight h l0); simpl; by rewrite H1.
    + rewrite (Permutation_app_swap_app (option_list (inflight h' l'))).
      rewrite (Hst 0%nat l0) by done.
      destruct (inflight h l0); simpl; by rewrite H2.
Qed.

(** The record a worker is about to invoke is one of the held ones. *)
Lemma inflight_held (h : gmap addr obj) (l : pc) (i : taskFunc * ptr) :
  inflight h l = Some i → ∃ y, held_rec l = Some y ∧ info h y = Some i.
Proof. destruct l as [| | | | | | | |[y|]|[y|]| | | | | | | | | | | |]; simpl; try done; eauto. Qed.

Lemma inflight_info (h h' : gmap addr obj) (l : pc) :
  (∀ y, held_rec l = Some y → info h' y = info h y) →
  inflight h' l = inflight h l.
Proof.
  intros H. destruct l as [| | | | | | | |[y|]|[y|]| | | | | | | | | | | |];
    simpl; try done; by apply H.
Qed.

(** Writes that keep every record's callable and argument do not change
    what the workers are about to invoke. *)
Lemma inflight_keeps (s : state) (p : ThreadPool) (q : list addr)
    (h' : gmap addr obj) (i : tid) (l : pc) :
  InvAt s p q → keeps (heap (mem s)) h' → pcs s !! i = Some l →
  inflight h' l = inflight (heap (mem s)) l.
Proof.
  intros HI Hk Hl. apply inflight_info. intros y Hy.
  destruct (proj1 (proj2 (inv_owned _ _ _ HI)) y) as [ty Hty].
  { apply elem_of_app. right. by eapply held_elem. }
  by eapply keeps_info.
Qed.

(** Nor does taking away blocks, for the records that are still held. *)
Lemma inflight_shrink (s' : state) (p : ThreadPool) (q : list addr)
    (h : gmap addr obj) (i : tid) (l : pc) :
  InvAt s' p q → heap (mem s') ⊆ h → pcs s' !! i = Some l →
  inflight (heap (mem s')) l = inflight h l.
Proof.
  intros HI Hsub Hl. apply inflight_info. intros y Hy.
  destruct (proj1 (proj2 (inv_owned _ _ _ HI)) y) as [ty Hty].
  { apply elem_of_app. right. by eapply held_elem. }
  unfold info. rewrite Hty. by rewrite (lookup_weaken _ _ _ _ Hty Hsub).
Qed.

(** *** One step *)

(** A thread moves from [l] to [l']; what was invoked, what is about to be
    invoked and what was dequeued change together. *)
Lemma served_move (c0 : list (taskFunc * ptr)) (s s' : state) (t : tid)
    (l l' : pc) :
  served c0 s → pcs s !! t = Some l → pcs s' = <[t := l']> (pcs s) →
  (∀ i l1, i ≠ t → pcs s !! i = Some l1 →
           inflight (heap (mem s')) l1 = inflight (heap (mem s)) l1) →
  calls (trace (mem s')) ++ option_list (inflight (heap (mem s')) l')
    ++ (snd <$> dequeued s)
  ≡ₚ calls (trace (mem s)) ++ option_list (inflight (heap (mem s)) l)
    ++ (snd <$> dequeued s') →
  served c0 s'.
Proof.
  unfold served. intros HS Hl Hpcs Hst Hmv.
  destruct (inflights_goto _ _ _ t l l' Hl Hst) as (rest & H1 & H2).
  rewrite Hpcs, H2. rewrite H1 in HS.
  apply (Permutation_app_inv_r (snd <$> dequeued s)).
  transitivity ((calls (trace (mem s')) ++
                 option_list (inflight (heap (mem s')) l') ++
                 (snd <$> dequeued s)) ++ rest).
  { rewrite <- !(assoc_L (++)). do 2 apply Permutation_app_head.
    apply Permutation_app_comm. }
  rewrite Hmv.
  transitivity ((calls (trace (mem s)) ++
                 option_list (inflight (heap (mem s)) l) ++ rest)
                ++ (snd <$> dequeued s')).
  { rewrite <- !(assoc_L (++)). do 2 apply Permutation_app_head.
    apply Permutation_app_comm. }
  rewrite HS. rewrite <- !(assoc_L (++)). apply Permutation_app_head.
  apply Permutation_app_comm.
Qed.

(** A step that invokes nothing, dequeues nothing and moves between two
    points with the same record in flight. *)
Lemma served_goto (c0 : list (taskFunc * ptr)) (s s' : state) (t : tid)
    (l l' : pc) :
  served c0 s → pcs s !! t = Some l → pcs s' = <[t := l']> (pcs s) →
  heap (mem s') = heap (mem s) →
  calls (trace (mem s')) = calls (trace (mem s)) →
  dequeued s' = dequeued s →
  inflight (heap (mem s)) l' = inflight (heap (mem s)) l →
  served c0 s'.
Proof.
  intros HS Hl Hpcs Hh Hc Hd Hi.
  eapply served_move; [exact HS|exact Hl|exact Hpcs| |].
  - intros i l1 _ _. by rewrite Hh.
  - by rewrite Hh, Hc, Hd, Hi.
Qed.

Lemma served_stay (c0 : list (taskFunc * ptr)) (s s' : state) :
  served c0 s → pcs s' = pcs s →
  (∀ i l, pcs s !! i = Some l →
          inflight (heap (mem s')) l = inflight (heap (mem s)) l) →
  calls (trace (mem s')) = calls (trace (mem s)) →
  dequeued s' = dequeued s →
  served c0 s'.
Proof.
  unfold served. intros HS Hpcs Hi Hc Hd.
  by rewrite Hpcs, Hc, Hd, (inflights_ext _ _ _ Hi).
Qed.

Lemma served_acquire (c0 : list (taskFunc * ptr)) (s s' : state) (t : tid)
    (l l' : pc) :
  served c0 s → pcs s !! t = Some l → acquire t l' s = Some s' →
  inflight (heap (mem s)) l' = inflight (heap (mem s)) l →
  served c0 s'.
Proof.
  intros HS Hl H Hi. unfold acquire in H. destruct (mutex s); [done|].
  apply (inj Some) in H. subst s'.
  eapply served_goto; [exact HS|exact Hl|done|done| |done|exact Hi].
  simpl. by apply calls_snoc_quiet.
Qed.

Lemma served_release (c0 : list (taskFunc * ptr)) (s : state) (t : tid)
    (l l' : pc) :
  served c0 s → pcs s !! t = Some l →
  inflight (heap (mem s)) l' = inflight (heap (mem s)) l →
  served c0 (release t l' s).
Proof.
  intros HS Hl Hi. unfold release. case_decide; [|exact HS].
  eapply served_goto; [exact HS|exact Hl|done|done| |done|exact Hi].
  simpl. by apply calls_snoc_quiet.
Qed.

(** Every step in which no wait fails keeps the account of invocations. *)
Lemma step_served (c0 : list (taskFunc * ptr)) (t : tid) (c : choice)
    (s s' : state) :
  Inv s → served c0 s → wait_ok (t, c) = true → step t c s = Some s' →
  served c0 s'.
Proof.
  intros HInv HS Hok H.
  destruct (step_inv _ _ _ _ HInv Hok H) as [(p1 & q1 & HI') Hal].
  destruct HInv as (p & q & HI).
  pose proof (lock_discipline_flows _ _ _ _ (step_flows _ _ _ _ H) Hok
                (inv_lock _ _ _ HI)) as Hld.
  pose proof (inv_pool _ _ _ HI) as Hp.
  assert (Hgp : get_pool (Some (pool s)) (mem s) = Ret p (mem s))
    by (by apply get_pool_at).
  step_cases H.
  - (* WEnter *)
    by eapply served_acquire.
  - (* WCheck *)
    apply (inj Some) in H. subst s'.
    rewrite (exec_Ret_same _ _ _ _ Hgp) in *.
    destruct (must_wait p).
    + by eapply served_release.
    + by eapply served_goto.
  - (* WSleep *)
    by eapply served_acquire.
  - done.
  - (* WReport: no thread is there *)
    by destruct (inv_lock _ _ _ HI t _ Heqo).
  - (* WExitTest *)
    apply (inj Some) in H. subst s'.
    rewrite (exec_Ret_same _ _ _ _ Hgp) in *.
    destruct (must_exit p); by eapply served_goto.
  - (* WExitLeave *)
    apply (inj Some) in H. subst s'. by eapply served_release.
  - (* WRead *)
    apply (inj Some) in H. subst s'.
    rewrite (exec_Ret_same _ _ _ _ (read_head_at _ _ _ Hp)) in *.
    by eapply served_goto.
  - (* WAdvance: the record is dequeued and is about to be invoked *)
    apply (inj Some) in H. subst s'.
    pose proof (inv_points _ _ _ HI t _ Heqo) as [Ehp Hne].
    simpl in Ehp, Hne.
    pose proof (inv_queue _ _ _ HI) as Hq.
    destruct (chain_cons_head _ _ _ (proj1 Hq)) as (hd & q' & -> & Ehd);
      [congruence|].
    destruct (advance_head_rep _ hd _ q' _ Hp Hq)
      as (t0 & Ht0 & _ & Hadv & _ & Hsl).
    rewrite (exec_Ret _ _ _ _ _ Hadv) in *.
    assert (Hk := same_but_links_keeps _ _ Hsl).
    subst headTask.
    eapply served_move; [exact HS|exact Heqo|done| |].
    + intros i l1 _ Hl1. by eapply inflight_keeps.
    + simpl. rewrite Ehd. simpl. rewrite (keeps_info _ _ _ _ Hk Ht0).
      unfold info. rewrite Ht0. simpl.
      rewrite fmap_app. simpl. apply Permutation_app_head.
      apply Permutation_cons_append.
  - (* WLeave *)
    apply (inj Some) in H. subst s'. by eapply served_release.
  - (* WCall: the record in flight is invoked *)
    apply (inj Some) in H. subst s'.
    pose proof (inv_points _ _ _ HI t _ Heqo) as Hne. simpl in Hne.
    destruct headTask as [x|]; [|done].
    destruct (proj1 (proj2 (inv_owned _ _ _ HI)) x) as [tx Htx].
    { apply elem_of_app. right. by eapply held_elem. }
    assert (Hc : call_task (Some x) (mem s)
                 = Ret tt (emit (EvCall (task tx) (taskArgs tx)) (mem s))).
    { unfold call_task.
      by rewrite (bind_Ret _ _ _ _ _ (get_task_at _ _ _ Htx)). }
    rewrite (exec_Ret _ _ _ _ _ Hc) in *.
    eapply served_move; [exact HS|exact Heqo|done|done|].
    simpl. rewrite calls_snoc. simpl. unfold info. rewrite Htx. simpl.
    by rewrite <- (assoc_L (++)).
  - (* WFree *)
    apply (inj Some) in H. subst s'. unfold exec in *.
    destruct (free_task headTask (mem s)) as [[] w'|w'|] eqn:Hf; [|done..].
    destruct (free_task_shrinks _ _ _ Hf) as [Hsub Htr].
    eapply served_move; [exact HS|exact Heqo|done| |].
    + intros i l1 Hi Hl1.
      eapply (inflight_shrink _ _ _ _ i); [exact HI'|exact Hsub|].
      simpl. by rewrite list_lookup_insert_ne.
    + simpl. by rewrite Htr.
  - (* CIdle, thread_pool_add_task is entered *)
    destruct (alloc_ok (heap (mem s)) r1 r2) eqn:Halloc; [|done].
    apply (inj Some) in H. subst s'.
    match goal with
    | |- context [build_task r1 r2 f ?a ?n] =>
        pose proof (build_task_outcome r1 r2 f a n (mem s) Halloc) as Hout;
        pose proof (Quiet_build_task r1 r2 f a n (mem s)) as Hqt
    end.
    unfold exec in *.
    destruct (build_task r1 r2 f _ _ (mem s)) as [temp w'|w'|];
      [| |exact HS].
    + destruct Hout as (Hsub & _).
      eapply served_move; [exact HS|exact Heqo|done| |].
      * intros i l1 _ Hl1.
        eapply inflight_keeps; [exact HI|by apply subseteq_keeps|exact Hl1].
      * simpl. by rewrite (Hqt w' eq_refl).
    + eapply served_stay; [exact HS|done| |by apply Hqt|done].
      intros i l1 Hl1.
      eapply inflight_keeps; [exact HI|by apply subseteq_keeps|exact Hl1].
  - (* CIdle, thread_pool_join_all is entered *)
    apply (inj Some) in H. subst s'.
    rewrite (exec_Ret_same _ _ _ _ Hgp) in *.
    destruct (running p =? 0); [done|]. by eapply served_goto.
  - (* CAddEnter *)
    by eapply served_acquire.
  - (* CAddLink *)
    apply (inj Some) in H. subst s'.
    pose proof (inv_points _ _ _ HI t _ Heqo) as (tk & Htk & Hnext).
    pose proof (inv_owned _ _ _ HI) as (Hnd & _).
    assert (Htq : temp ∉ q).
    { intros Hin. apply NoDup_app in Hnd as (_ & Hdisj & _).
      apply (Hdisj temp Hin). by eapply held_elem. }
    destruct (enqueue_rep _ temp _ tk q _ Hp (inv_queue _ _ _ HI) Htk Hnext
                Htq) as (w' & p' & Henq & _ & _ & Hsl & _ & Htr).
    rewrite (exec_Ret _ _ _ _ _ Henq) in *.
    assert (Hk := same_but_links_keeps _ _ Hsl).
    eapply served_move; [exact HS|exact Heqo|done| |].
    + intros i l1 _ Hl1. by eapply inflight_keeps.
    + simpl. by rewrite Htr.
  - (* CAddLeave *)
    apply (inj Some) in H. subst s'. by eapply served_release.
  - (* CAddWake *)
    apply (inj Some) in H. subst s'.
    eapply served_goto; [exact HS|exact Heqo|done|done| |done|done].
    simpl. by apply calls_snoc_quiet.
  - (* CJoinEnter *)
    by eapply served_acquire.
  - (* CJoinSet *)
    apply (inj Some) in H. subst s'.
    rewrite (exec_Ret _ _ _ _ _ (set_pool_at _ _ _ _ Hp)) in *.
    eapply served_move; [exact HS|exact Heqo|done| |done].
    intros i l1 _ Hl1. eapply inflight_keeps; [exact HI| |exact Hl1].
    simpl. apply keeps_insert. by rewrite Hp.
  - (* CJoinLeave *)
    apply (inj Some) in H. subst s'. by eapply served_release.
  - (* CJoinWake *)
    apply (inj Some) in H. subst s'.
    eapply served_goto; [exact HS|exact Heqo|done|done| |done|done].
    simpl. by apply calls_snoc_quiet.
  - (* CJoinWait *)
    destruct (workers_done (pcs s)); [|done].
    apply (inj Some) in H. subst s'.
    assert (Hw : (p0 ← get_pool (Some (pool s));
                  modify (emit (EvWaitAll (threadNum p0) (threads p0))))
                   (mem s)
                 = Ret tt (emit (EvWaitAll (threadNum p) (threads p)) (mem s)))
      by (by rewrite (bind_Ret _ _ _ _ _ Hgp)).
    rewrite (exec_Ret _ _ _ _ _ Hw) in *.
    eapply served_goto; [exact HS|exact Heqo|done|done| |done|done].
    simpl. by apply calls_snoc_quiet.
Qed.

Lemma run_served (c0 : list (taskFunc * ptr)) (ls : list (tid * choice)) :
  ∀ s s', Inv s → served c0 s → forallb wait_ok ls = true →
          run ls s = Some s' → served c0 s'.
Proof.
  induction ls as [|[t c] ls IH]; intros s s' HI HS Hok H; simpl in H.
  - by injection H as <-.
  - destruct (step t c s) as [s1|] eqn:E; [|done].
    simpl in Hok. apply andb_true_iff in Hok as [Hok1 Hok2].
    eapply IH; [| |done|exact H].
    + by eapply step_inv.
    + by eapply step_served.
Qed.

Lemma inflights_app (h : gmap addr obj) (ts1 ts2 : list pc) :
  inflights h (ts1 ++ ts2) = inflights h ts1 ++ inflights h ts2.
Proof. unfold inflights. apply omap_app. Qed.

Lemma inflights_replicate (h : gmap addr obj) (n : nat) (l : pc) :
  inflight h l = None → inflights h (replicate n l) = [].
Proof.
  intros H. unfold inflights. induction n as [|n IH]; [done|]. csimpl.
  by rewrite H.
Qed.

Lemma initial_served (s : state) :
  initial s → served (calls (trace (mem s))) s.
Proof.
  intros (r1 & r2 & spawn & fmt & n & w0 & w & a & nc & _ & ->).
  unfold served, boot. simpl.
  by rewrite inflights_app, !inflights_replicate.
Qed.

Lemma inflights_done (h : gmap addr obj) (ts : list pc) :
  workers_done ts = true → inflights h ts = [].
Proof.
  unfold workers_done, inflights. induction ts as [|l ts IH]; [done|].
  simpl. intros [Hl Hts]%andb_true_iff. specialize (IH Hts).
  by destruct l as [| | | | | | | |[y|]|[y|]| | | | | | | | | | | |].
Qed.

(** In every schedule from a created pool in which no wait fails,
    the callables invoked since the pool was created, together with those
    of the records that workers hold between lines 99 and 102, are (with
    their argument pointers, up to order) those of the records dequeued so
    far: a dequeued record is invoked once, with the argument stored in it,
    and nothing else is invoked. *)
Theorem dequeued_records_are_invoked_once (s0 s : state)
    (ls : list (tid * choice)) :
  initial s0 → run ls s0 = Some s → forallb wait_ok ls = true →
  calls (trace (mem s)) ++ inflights (heap (mem s)) (pcs s)
  ≡ₚ calls (trace (mem s0)) ++ (snd <$> dequeued s).
Proof.
  intros H0 Hrun Hok.
  exact (run_served _ ls s0 s (initial_inv _ H0) (initial_served _ H0) Hok
           Hrun).
Qed.

Lemma dequeued_records_are_invoked_once_witness :
  ∃ s, run (take 28 main_schedule) main_state = Some s ∧
       calls (trace (mem s)) = [(0%nat, NULL)] ∧
       inflights (heap (mem s)) (pcs s) = [(1%nat, Some 6%positive)] ∧
       calls (trace (mem s)) ++ inflights (heap (mem s)) (pcs s)
       ≡ₚ calls (trace (mem main_state)) ++ (snd <$> dequeued s).
Proof.
  destruct (run (take 28 main_schedule) main_state) as [s|] eqn:Hrun;
    [|vm_compute in Hrun; discriminate Hrun].
  exists s. split; [reflexivity|].
  split.
  { pose proof Hrun as Hr. vm_compute in Hr. injection Hr as <-.
    vm_compute. reflexivity. }
  split.
  { pose proof Hrun as Hr. vm_compute in Hr. injection Hr as <-.
    vm_compute. reflexivity. }
  exact (dequeued_records_are_invoked_once main_state s
           (take 28 main_schedule) initial_main_state Hrun eq_refl).
Defined.

(** Once every worker has returned and the queue is empty, the
    callables invoked since the pool was created are, with their argument
    pointers and up to order, exactly those of the records submitted: no
    submitted task is lost and none is run twice (no wait having failed). *)
Theorem drained_pool_invoked_every_submission (s0 s : state)
    (ls : list (tid * choice)) (p : ThreadPool) :
  initial s0 → run ls s0 = Some s → forallb wait_ok ls = true →
  workers_done (pcs s) = true →
  pool_of s = Some p → taskQueueHead p = NULL →
  calls (trace (mem s)) ≡ₚ calls (trace (mem s0)) ++ (snd <$> submitted s).
Proof.
  intros H0 Hrun Hok Hdone Hp Hhead.
  pose proof (run_served _ ls s0 s (initial_inv _ H0) (initial_served _ H0) Hok
                Hrun) as HS.
  destruct (reach_inv _ _ _ H0 Hrun Hok) as (p' & q & HI).
  unfold pool_of in Hp. rewrite (inv_pool _ _ _ HI) in Hp.
  injection Hp as ->.
  assert (q = []) as ->.
  { destruct q as [|x q]; [done|].
    destruct (inv_queue _ _ _ HI) as [[Hx _] _]. congruence. }
  rewrite <- (inv_fifo _ _ _ HI). unfold entries. csimpl.
  rewrite app_nil_r. unfold served in HS.
  by rewrite (inflights_done _ _ Hdone), app_nil_r in HS.
Qed.

Lemma drained_pool_invoked_every_submission_witness :
  ∃ s, run main_schedule main_state = Some s ∧
       (snd <$> submitted s) = [(0%nat, NULL); (1%nat, Some 6%positive)] ∧
       calls (trace (mem s))
       ≡ₚ calls (trace (mem main_state)) ++ (snd <$> submitted s).
Proof.
  destruct (run main_schedule main_state) as [s|] eqn:Hrun;
    [|vm_compute in Hrun; discriminate Hrun].
  destruct (pool_of s) as [p|] eqn:Hp.
  - exists s. split; [reflexivity|]. split.
    { pose proof Hrun as Hr. vm_compute in Hr. injection Hr as <-.
      vm_compute. reflexivity. }
    apply (drained_pool_invoked_every_submission main_state s
             main_schedule p initial_main_state Hrun eq_refl).
    + pose proof Hrun as Hr. vm_compute in Hr. injection Hr as <-.
      vm_compute. reflexivity.
    + exact Hp.
    + pose proof Hrun as Hr. vm_compute in Hr. injection Hr as <-.
      vm_compute in Hp. injection Hp as <-. vm_compute. reflexivity.
  - exfalso. vm_compute in Hrun. injection Hrun as <-.
    vm_compute in Hp. discriminate Hp.
Defined.

End Invoked.

(** * The critical section *)

Module Critical.
Import PoolFacts QueueFacts ChainFacts QueueRep HeadTail FlagFacts FlowFacts
  OwnFacts InvFacts RunningFacts Schedules.

Lemma exec_alive {A} (m : M A) (k : A → state → state) (s : state) :
  proc (exec m k s) = Alive →
  ∃ x w', m (mem s) = Ret x w' ∧ exec m k s = k x (with_mem w' s).
Proof.
  unfold exec. destruct (m (mem s)) as [x w'|w'|]; [eauto|done|].
  simpl. intros H. destruct s. simpl in *. by eauto.
Qed.

Local Ltac leaves :=
  left; unfold release; rewrite decide_True by done; done.

Local Ltac stays l' :=
  right; exists l'; simpl;
  split; [by eapply lookup_goto_eq|split; [done|lia]].

(** A thread inside the critical section can run its next statement, and
    that statement leaves the critical section or brings the thread closer
    to leaving it. *)
Lemma cs_step (s : state) (t : tid) (l : pc) :
  Inv s → proc s = Alive → pcs s !! t = Some l → in_cs l = true →
  ∃ s', step t Go s = Some s' ∧ Inv s' ∧ proc s' = Alive ∧
        (mutex s' = None ∨
         ∃ l', pcs s' !! t = Some l' ∧ in_cs l' = true ∧
               (cs_bound l' < cs_bound l)%nat).
Proof.
  intros HInv Hal Hl Hcs.
  assert (Hst : ∃ s', step t Go s = Some s').
  { unfold step. rewrite Hal, Hl. destruct l; try done; eauto. }
  destruct Hst as [s' Hst]. exists s'. split; [done|].
  destruct (step_inv t Go s s' HInv eq_refl Hst) as [HI' Hal'].
  split; [done|]. split; [done|].
  destruct HInv as (p & q & HI).
  assert (Hm : mutex s = Some t) by (by apply (inv_lock _ _ _ HI t l Hl)).
  pose proof (inv_pool _ _ _ HI) as Hp.
  assert (Hgp : get_pool (Some (pool s)) (mem s) = Ret p (mem s))
    by (by apply get_pool_at).
  unfold step in Hst. rewrite Hal, Hl in Hst.
  destruct l; try done; apply (inj Some) in Hst; subst s'.
  - (* WCheck *)
    rewrite (exec_Ret_same _ _ _ _ Hgp) in *.
    destruct (must_wait p); [leaves|stays WExitTest].
  - (* WReport *)
    by destruct (inv_lock _ _ _ HI t _ Hl).
  - (* WExitTest *)
    rewrite (exec_Ret_same _ _ _ _ Hgp) in *.
    destruct (must_exit p); [stays WExitLeave|stays WRead].
  - (* WExitLeave *)
    leaves.
  - (* WRead *)
    rewrite (exec_Ret_same _ _ _ _ (read_head_at _ _ _ Hp)) in *.
    stays (WAdvance (taskQueueHead p)).
  - (* WAdvance *)
    destruct (exec_alive _ _ _ Hal') as (x & w' & _ & ->).
    stays (WLeave headTask).
  - (* WLeave *)
    leaves.
  - (* CAddLink *)
    destruct (exec_alive _ _ _ Hal') as (x & w' & _ & ->).
    stays CAddLeave.
  - (* CAddLeave *)
    leaves.
  - (* CJoinSet *)
    destruct (exec_alive _ _ _ Hal') as (x & w' & _ & ->).
    stays CJoinLeave.
  - (* CJoinLeave *)
    leaves.
Qed.

Lemma cs_leaves (n : nat) : ∀ (s : state) (t : tid) (l : pc),
  Inv s → proc s = Alive → pcs s !! t = Some l → in_cs l = true →
  (cs_bound l ≤ n)%nat →
  ∃ k s', (1 ≤ k ≤ n)%nat ∧ run (replicate k (t, Go)) s = Some s' ∧
          mutex s' = None ∧ proc s' = Alive ∧ Inv s'.
Proof.
  induction n as [|n IH]; intros s t l HI Hal Hl Hcs Hb.
  - destruct l; simpl in *; try done; lia.
  - destruct (cs_step s t l HI Hal Hl Hcs)
      as (s1 & Hst & HI1 & Hal1 & [Hm|(l' & Hl' & Hcs' & Hlt)]).
    + exists 1%nat, s1. split; [lia|]. simpl. by rewrite Hst.
    + destruct (IH s1 t l' HI1 Hal1 Hl' Hcs') as (k & s' & Hk & Hrun & H');
        [lia|].
      exists (S k), s'. split; [lia|]. simpl. by rewrite Hst.
Qed.

(** A thread that is inside the critical section is never blocked there:
    its next statements can run, and after at most five of them it has
    left the critical section (the wait of line 83 leaves it, and lines 161
    and 164 come after line 158).  No wait has failed and the process has
    not been ended by [thread_pool_add_task]. *)
Theorem critical_section_is_left (s0 s : state) (ls : list (tid * choice))
    (t : tid) (l : pc) :
  initial s0 → run ls s0 = Some s → forallb wait_ok ls = true →
  proc s = Alive → pcs s !! t = Some l → in_cs l = true →
  mutex s = Some t ∧
  ∃ k s', (1 ≤ k ≤ 5)%nat ∧ run (replicate k (t, Go)) s = Some s' ∧
          mutex s' = None ∧ proc s' = Alive.
Proof.
  intros H0 Hrun Hok Hal Hl Hcs.
  pose proof (reach_inv _ _ _ H0 Hrun Hok) as HI. split.
  { destruct HI as (p & q & HI). by apply (inv_lock _ _ _ HI t l Hl). }
  destruct (cs_leaves 5 s t l HI Hal Hl Hcs) as (k & s' & Hk & Hr & Hm & Ha & _).
  { destruct l; simpl; lia. }
  by exists k, s'.
Qed.

Lemma critical_section_is_left_witness :
  ∃ s, run (take 11 main_schedule) main_state = Some s ∧
       pcs s !! 0%nat = Some WCheck ∧
       mutex s = Some 0%nat ∧
       ∃ k s', (1 ≤ k ≤ 5)%nat ∧ run (replicate k (0%nat, Go)) s = Some s' ∧
               mutex s' = None ∧ proc s' = Alive.
Proof.
  destruct (run (take 11 main_schedule) main_state) as [s|] eqn:Hrun;
    [|vm_compute in Hrun; discriminate Hrun].
  assert (Hl : pcs s !! 0%nat = Some WCheck).
  { pose proof Hrun as Hr. vm_compute in Hr. injection Hr as <-.
    vm_compute. reflexivity. }
  assert (Hal : proc s = Alive).
  { pose proof Hrun as Hr. vm_compute in Hr. injection Hr as <-.
    vm_compute. reflexivity. }
  exists s. split; [reflexivity|]. split; [exact Hl|].
  exact (critical_section_is_left main_state s (take 11 main_schedule)
           0%nat WCheck initial_main_state Hrun eq_refl Hal Hl eq_refl).
Defined.

End Critical.

(** * The blocks of the pool *)

Module Blocks.
Import PoolFacts QueueFacts ChainFacts QueueRep HeadTail FlagFacts FlowFacts
  OwnFacts InvFacts RunningFacts Schedules Critical.

(** Lines 191-203 write two fresh blocks and nothing else. *)
Lemma build_task_frame (r1 r2 : ptr) (f : taskFunc) (args : ptr) (n : N)
    (w : world) :
  alloc_ok (heap w) r1 r2 = true →
  match build_task r1 r2 f args n w with
  | Ret temp w' =>
      ∀ y, y ≠ temp → arg_of (heap w') temp ≠ Some y →
           heap w' !! y = heap w !! y
  | _ => True
  end.
Proof.
  intros Hok. unfold alloc_ok in Hok.
  apply andb_true_iff in Hok as [Hok H12].
  apply andb_true_iff in Hok as [H1 H2].
  destruct r1 as [temp|];
    [|unfold build_task, underlying_safe_malloc, malloc; mstep;
      reflexivity].
  apply bool_decide_eq_true in H1.
  destruct args as [src|].
  - destruct r2 as [b|].
    + apply bool_decide_eq_true in H2. apply bool_decide_eq_true in H12.
      unfold build_task, underlying_safe_malloc, malloc, memcpy. mstep.
      destruct (decide (src = b)) as [->|Hsb].
      { by rewrite lookup_insert_eq. }
      rewrite lookup_insert_ne by done.
      destruct (decide (src = temp)) as [->|Hst].
      { by rewrite lookup_insert_eq. }
      rewrite lookup_insert_ne by done.
      destruct (heap w !! src) as [[| | |bs|]|] eqn:Hsrc; simpl; try done.
      destruct (N.of_nat (length bs) <? n)%N; [done|].
      simpl. rewrite lookup_insert_eq. simpl.
      rewrite lookup_insert_ne by done. rewrite lookup_insert_ne by done.
      rewrite lookup_insert_eq. simpl.
      intros y Hy. unfold arg_of. rewrite lookup_insert_eq. simpl.
      intros Hyb. rewrite !lookup_insert_ne; [done|congruence..].
    + unfold build_task, underlying_safe_malloc, malloc. by mstep.
  - rewrite SubmitFacts.build_task_null. simpl.
    intros y Hy _. by rewrite !lookup_insert_ne.
Qed.

Lemma foot_perm h (L L' : list addr) : L ≡ₚ L' → foot h L ≡ₚ foot h L'.
Proof. intros HP. unfold foot, args_of. by rewrite HP. Qed.

Lemma foot_cons h (x : addr) (L : list addr) :
  foot h (x :: L) ≡ₚ (x :: option_list (arg_of h x)) ++ foot h L.
Proof.
  unfold foot. rewrite args_of_cons. simpl. constructor.
  rewrite !(assoc_L (++)). apply Permutation_app_tail.
  apply Permutation_app_comm.
Qed.

Lemma foot_alloc h (L : list addr) (y : addr) :
  owned h L → y ∈ foot h L → is_Some (h !! y).
Proof.
  intros (_ & Hal & _ & Hbytes) [Hy|Hy]%elem_of_app.
  - destruct (Hal y Hy) as [t ->]. eauto.
  - destruct (Hbytes y Hy) as [bs ->]. eauto.
Qed.

Lemma step_alive_before (t : tid) (c : choice) (s s' : state) :
  step t c s = Some s' → proc s = Alive.
Proof. unfold step. by destruct (proc s). Qed.

(** The queue of a state is determined by its heap. *)
Lemma queue_unique (s : state) (p p' : ThreadPool) (q q' : list addr) :
  InvAt s p q → heap (mem s) !! pool s = Some (OPool p') →
  queue_rep (heap (mem s)) p' q' → q = q'.
Proof.
  intros HI Hp' [Hq' _]. pose proof (inv_pool _ _ _ HI) as Hp.
  rewrite Hp in Hp'. injection Hp' as <-.
  destruct (inv_queue _ _ _ HI) as [Hq _].
  by eapply lseg_functional.
Qed.

(** A step that frees the blocks [gone], allocates the blocks [new] and
    otherwise writes only the pool struct and the blocks of records. *)
Lemma framed_step (h0 : gmap addr obj) (s s' : state) (p : ThreadPool)
    (q q' gone new keep : list addr) :
  InvAt s p q → framed h0 s q → pool s' = pool s →
  foot (heap (mem s)) (q ++ held (pcs s)) ≡ₚ gone ++ keep →
  foot (heap (mem s')) (q' ++ held (pcs s')) ≡ₚ new ++ keep →
  (∀ y, y ∈ gone → heap (mem s') !! y = None) →
  (∀ y, y ∈ new → heap (mem s) !! y = None) →
  (∀ y, y ∉ gone → y ∉ new → y ∉ keep → y ≠ pool s →
        heap (mem s') !! y = heap (mem s) !! y) →
  framed h0 s' q'.
Proof.
  intros HI [F2 F1] Hpool HF HF' Hgone Hnew Hfr.
  assert (Hal : ∀ y, y ∈ foot (heap (mem s)) (q ++ held (pcs s)) →
                     is_Some (heap (mem s) !! y)).
  { intros y. apply foot_alloc, HI. }
  split.
  - intros y Hy. rewrite HF' in Hy. apply elem_of_app in Hy as [Hy|Hy].
    + pose proof (Hnew y Hy) as Hn. rewrite <- F1; [done| |].
      * intros Hin. apply Hal in Hin as [o Ho]. congruence.
      * intros ->. rewrite (inv_pool _ _ _ HI) in Hn. done.
    + apply F2. rewrite HF. set_solver.
  - intros y Hy Hne. rewrite HF' in Hy. rewrite Hpool in Hne.
    destruct (decide (y ∈ gone)) as [Hg|Hg].
    + rewrite (Hgone y Hg). symmetry. apply F2. rewrite HF. set_solver.
    + rewrite Hfr; [|done|set_solver..|done].
      apply F1; [|done]. rewrite HF. set_solver.
Qed.

(** A step that allocates and frees nothing. *)
Lemma framed_perm (h0 : gmap addr obj) (s s' : state) (p : ThreadPool)
    (q q' : list addr) :
  InvAt s p q → framed h0 s q → pool s' = pool s →
  q' ++ held (pcs s') ≡ₚ q ++ held (pcs s) →
  keeps (heap (mem s)) (heap (mem s')) →
  (∀ y, y ∉ foot (heap (mem s)) (q ++ held (pcs s)) → y ≠ pool s →
        heap (mem s') !! y = heap (mem s) !! y) →
  framed h0 s' q'.
Proof.
  intros HI HF Hpool HP Hk Hfr.
  eapply (framed_step h0 s s' p q q' [] []
            (foot (heap (mem s)) (q ++ held (pcs s))));
    [exact HI|exact HF|exact Hpool|reflexivity| | | |].
  - simpl. rewrite (foot_perm _ _ _ HP). unfold foot.
    rewrite (keeps_args_of _ _ _ Hk); [done|].
    apply (inv_owned _ _ _ HI).
  - by intros y Hy%elem_of_nil.
  - by intros y Hy%elem_of_nil.
  - intros y _ _ Hy Hne. by apply Hfr.
Qed.

(** A step that leaves the heap alone and moves a thread between points
    with the same held record. *)
Lemma framed_goto (h0 : gmap addr obj) (s s' : state) (p p' : ThreadPool)
    (q q' : list addr) (t : tid) (l l' : pc) :
  InvAt s p q → framed h0 s q → InvAt s' p' q' →
  pool s' = pool s → heap (mem s') = heap (mem s) →
  pcs s !! t = Some l → pcs s' = <[t := l']> (pcs s) →
  held_rec l' = held_rec l →
  framed h0 s' q'.
Proof.
  intros HI HF HI' Hpool Hh Hl Hpcs Hheld.
  assert (q' = q) as ->.
  { eapply (queue_unique s'); [exact HI'| |].
    - rewrite Hpool, Hh. apply HI.
    - rewrite Hh. apply HI. }
  eapply framed_perm; [exact HI|exact HF|exact Hpool| | |].
  - by rewrite Hpcs, (held_goto_same _ _ _ _ Hl Hheld).
  - rewrite Hh. apply keeps_refl.
  - intros y _ _. by rewrite Hh.
Qed.

Lemma framed_acquire (h0 : gmap addr obj) (s s' : state) (p p' : ThreadPool)
    (q q' : list addr) (t : tid) (l l' : pc) :
  InvAt s p q → framed h0 s q → InvAt s' p' q' →
  pcs s !! t = Some l → acquire t l' s = Some s' →
  held_rec l' = held_rec l →
  framed h0 s' q'.
Proof.
  intros HI HF HI' Hl H Hheld. unfold acquire in H.
  destruct (mutex s); [done|]. apply (inj Some) in H. subst s'.
  by eapply (framed_goto h0 s _ p p' q q' t l l').
Qed.

Lemma framed_release (h0 : gmap addr obj) (s : state) (p p' : ThreadPool)
    (q q' : list addr) (t : tid) (l l' : pc) :
  InvAt s p q → framed h0 s q → InvAt (release t l' s) p' q' →
  proc (release t l' s) = Alive →
  pcs s !! t = Some l → held_rec l' = held_rec l →
  framed h0 (release t l' s) q'.
Proof.
  intros HI HF HI' Hal Hl Hheld. unfold release in *.
  case_decide; [|done].
  by eapply (framed_goto h0 s _ p p' q q' t l l').
Qed.

Lemma args_of_ext h h' (L : list addr) :
  (∀ y, y ∈ L → h' !! y = h !! y) → args_of h' L = args_of h L.
Proof.
  intros HL. unfold args_of. apply list_omap_ext.
  induction L as [|y L IH]; constructor.
  - unfold arg_of. rewrite HL; [done|by left].
  - apply IH. intros z Hz. apply HL. by right.
Qed.

(** Every step in which no wait fails keeps the account of blocks. *)
Lemma step_framed (h0 : gmap addr obj) (t : tid) (c : choice)
    (s s' : state) :
  Inv s → Framed h0 s → wait_ok (t, c) = true → step t c s = Some s' →
  Framed h0 s'.
Proof.
  intros HInv HFd Hok H.
  pose proof (step_alive_before _ _ _ _ H) as Hal.
  destruct HInv as (p & q & HI).
  pose proof (HFd Hal p q HI) as HF.
  intros Hal' p' q' HI'.
  pose proof (inv_pool _ _ _ HI) as Hp.
  assert (Hgp : get_pool (Some (pool s)) (mem s) = Ret p (mem s))
    by (by apply get_pool_at).
  step_cases H.
  - (* WEnter *)
    by eapply (framed_acquire h0 s s' p p' q q' t).
  - (* WCheck *)
    apply (inj Some) in H. subst s'.
    rewrite (exec_Ret_same _ _ _ _ Hgp) in *.
    destruct (must_wait p).
    + by eapply (framed_release h0 s p p' q q' t).
    + by eapply (framed_goto h0 s _ p p' q q' t).
  - (* WSleep *)
    by eapply (framed_acquire h0 s s' p p' q q' t).
  - done.
  - (* WReport: no thread is there *)
    by destruct (inv_lock _ _ _ HI t _ Heqo).
  - (* WExitTest *)
    apply (inj Some) in H. subst s'.
    rewrite (exec_Ret_same _ _ _ _ Hgp) in *.
    destruct (must_exit p); by eapply (framed_goto h0 s _ p p' q q' t).
  - (* WExitLeave *)
    apply (inj Some) in H. subst s'.
    by eapply (framed_release h0 s p p' q q' t).
  - (* WRead *)
    apply (inj Some) in H. subst s'.
    rewrite (exec_Ret_same _ _ _ _ (read_head_at _ _ _ Hp)) in *.
    by eapply (framed_goto h0 s _ p p' q q' t).
  - (* WAdvance *)
    apply (inj Some) in H. subst s'.
    pose proof (inv_points _ _ _ HI t _ Heqo) as [Ehp Hne].
    simpl in Ehp, Hne.
    pose proof (inv_queue _ _ _ HI) as Hq.
    destruct (chain_cons_head _ _ _ (proj1 Hq)) as (hd & q0 & -> & Ehd);
      [congruence|].
    destruct (advance_head_rep _ hd _ q0 _ Hp Hq)
      as (t0 & Ht0 & _ & Hadv & Hq0 & Hsl).
    rewrite (exec_Ret _ _ _ _ _ Hadv) in *.
    assert (q' = q0) as ->.
    { eapply (queue_unique _ _ _ _ _ HI'); simpl; [|exact Hq0].
      by rewrite lookup_insert_eq. }
    eapply framed_perm; [exact HI|exact HF|done| | |].
    + simpl.
      destruct (held_goto (pcs s) t _ (WLeave headTask) Heqo)
        as (rest & H1 & H2).
      rewrite H1, H2, Ehp, Ehd. simpl. by rewrite Permutation_middle.
    + exact (same_but_links_keeps _ _ Hsl).
    + intros y _ Hy. simpl. by rewrite lookup_insert_ne.
  - (* WLeave *)
    apply (inj Some) in H. subst s'.
    by eapply (framed_release h0 s p p' q q' t).
  - (* WCall *)
    apply (inj Some) in H. subst s'.
    destruct (exec_alive _ _ _ Hal') as ([] & w' & Hc & E).
    rewrite E in *. unfold call_task in Hc.
    apply bind_Ret_inv in Hc as (tk & w1 & Ht & Hc).
    apply get_task_inv in Ht as (-> & _). injection Hc as <-.
    by eapply (framed_goto h0 s _ p p' q q' t).
  - (* WFree *)
    apply (inj Some) in H. subst s'.
    pose proof (inv_points _ _ _ HI t _ Heqo) as Hne. simpl in Hne.
    destruct headTask as [x|]; [|done].
    pose proof (inv_owned _ _ _ HI) as Hown.
    destruct (held_goto (pcs s) t _ WEnter Heqo) as (rest & H1 & H2).
    simpl in H1, H2.
    assert (HP : q ++ held (pcs s) ≡ₚ x :: (q ++ rest)).
    { rewrite H1. by rewrite Permutation_middle. }
    apply (owned_perm _ _ _ HP) in Hown.
    destruct (proj1 (proj2 Hown) x) as [tx Htx]; [by left|].
    set (h' := delete x (match taskArgs tx with
                         | Some b => delete b (heap (mem s))
                         | None => heap (mem s)
                         end)).
    assert (Hb : ∀ b, taskArgs tx = Some b →
              ∃ bs, heap (mem s) !! b = Some (OBytes bs)).
    { intros b Eb. destruct Hown as (_ & _ & _ & Hbytes). apply Hbytes.
      rewrite args_of_cons. unfold arg_of. rewrite Htx, Eb. set_solver. }
    assert (Hfree : free_task (Some x) (mem s)
                    = Ret tt (set_heap (λ _, h') (mem s))).
    { unfold free_task. rewrite (bind_Ret _ _ _ _ _ (get_task_at _ _ _ Htx)).
      subst h'. destruct (taskArgs tx) as [b|] eqn:Eb.
      - destruct (Hb b eq_refl) as [bs Hbs].
        rewrite (bind_Ret _ _ _ _ _ (free_at _ _ _ Hbs)).
        erewrite free_at; [done|]. simpl.
        rewrite lookup_delete_ne; [done|congruence].
      - unfold mbind, M_bind, bind. simpl. rewrite Htx. done. }
    rewrite (exec_Ret _ _ _ _ _ Hfree) in *.
    assert (Hfr : ∀ y, y ≠ x → taskArgs tx ≠ Some y →
              h' !! y = heap (mem s) !! y).
    { intros y Hyx Hyb. subst h'. rewrite lookup_delete_ne by done.
      destruct (taskArgs tx) as [b|]; [|done].
      rewrite lookup_delete_ne; [done|congruence]. }
    destruct (owned_free _ h' _ _ _ Hown Htx Hfr) as [Hown' HL].
    assert (q' = q) as ->.
    { eapply (queue_unique _ _ _ _ _ HI'); simpl.
      - rewrite Hfr; [exact Hp| |].
        + intros E. rewrite E in Hp. congruence.
        + intros Eb. destruct (Hb _ Eb). congruence.
      - eapply queue_rep_frame_nodes; [|apply HI].
        intros y Hy. apply HL. set_solver. }
    eapply (framed_step h0 s _ p q q (x :: option_list (taskArgs tx)) []
              (foot (heap (mem s)) (q ++ rest)));
      [exact HI|exact HF|done| | | | |].
    + rewrite (foot_perm _ _ _ HP), foot_cons. unfold arg_of.
      by rewrite Htx.
    + simpl. rewrite (foot_perm _ _ (q ++ rest)) by (by rewrite H2).
      unfold foot. by rewrite (args_of_ext _ _ _ HL).
    + simpl. intros y [->|Hy]%elem_of_cons.
      * subst h'. by rewrite lookup_delete_eq.
      * destruct (taskArgs tx) as [b|] eqn:Eb; [|by apply elem_of_nil in Hy].
        apply list_elem_of_singleton in Hy as ->. subst h'.
        destruct (Hb b eq_refl) as [bs Hbs].
        rewrite lookup_delete_ne by congruence.
        by rewrite lookup_delete_eq.
    + by intros y Hy%elem_of_nil.
    + simpl. intros y Hy _ _ _. apply Hfr.
      * intros ->. apply Hy. by left.
      * intros Eb. apply Hy. rewrite Eb. set_solver.
  - (* CIdle, thread_pool_add_task is entered *)
    destruct (alloc_ok (heap (mem s)) r1 r2) eqn:Halloc; [|done].
    apply (inj Some) in H. subst s'.
    match goal with
    | |- context [build_task r1 r2 f ?a ?n] =>
        pose proof (build_task_outcome r1 r2 f a n (mem s) Halloc) as Hout;
        pose proof (build_task_frame r1 r2 f a n (mem s) Halloc) as Hbf
    end.
    unfold exec in *.
    destruct (build_task r1 r2 f _ _ (mem s)) as [temp w'|w'|];
      [|done..].
    destruct Hout as (Hsub & Htemp & args' & Htemp' & Hargs').
    pose proof (inv_owned _ _ _ HI) as Hown.
    destruct (held_goto (pcs s) t _ (CAddEnter temp) Heqo)
      as (rest & H1 & H2).
    simpl in H1, H2.
    assert (Htasks : ∀ y, y ∈ q ++ held (pcs s) →
              heap w' !! y = heap (mem s) !! y).
    { intros y Hy. destruct (proj1 (proj2 Hown) y Hy) as [ty Hty].
      rewrite Hty. by eapply lookup_weaken. }
    assert (q' = q) as ->.
    { eapply (queue_unique _ _ _ _ _ HI'); simpl.
      - eapply lookup_weaken; [exact Hp|done].
      - eapply queue_rep_frame_nodes; [|apply HI].
        intros y Hy. apply Htasks. set_solver. }
    eapply (framed_step h0 s _ p q q [] (temp :: option_list args')
              (foot (heap (mem s)) (q ++ held (pcs s))));
      [exact HI|exact HF|done|done| | | |].
    + simpl. rewrite (foot_perm _ _ (temp :: (q ++ held (pcs s)))).
      * rewrite foot_cons. unfold arg_of at 1. rewrite Htemp'. simpl.
        unfold foot. by rewrite (args_of_ext _ _ _ Htasks).
      * rewrite H2, H1. by rewrite Permutation_middle.
    + by intros y Hy%elem_of_nil.
    + intros y [->|Hy]%elem_of_cons; [done|].
      destruct args' as [b|]; [|by apply elem_of_nil in Hy].
      apply list_elem_of_singleton in Hy as ->.
      by destruct (Hargs' b eq_refl).
    + simpl. intros y _ Hy _ _. apply Hbf.
      * intros ->. apply Hy. by left.
      * unfold arg_of. rewrite Htemp'. simpl. intros ->.
        apply Hy. set_solver.
  - (* CIdle, thread_pool_join_all is entered *)
    apply (inj Some) in H. subst s'.
    rewrite (exec_Ret_same _ _ _ _ Hgp) in *.
    destruct (running p =? 0).
    + by rewrite (queue_unique _ _ _ _ _ HI' Hp (inv_queue _ _ _ HI)).
    + by eapply (framed_goto h0 s _ p p' q q' t).
  - (* CAddEnter *)
    by eapply (framed_acquire h0 s s' p p' q q' t).
  - (* CAddLink *)
    apply (inj Some) in H. subst s'.
    pose proof (inv_points _ _ _ HI t _ Heqo) as (tk & Htk & Hnext).
    pose proof (inv_owned _ _ _ HI) as (Hnd & _).
    assert (Htq : temp ∉ q).
    { intros Hin. apply NoDup_app in Hnd as (_ & Hdisj & _).
      apply (Hdisj temp Hin). by eapply held_elem. }
    destruct (enqueue_rep _ temp _ tk q _ Hp (inv_queue _ _ _ HI) Htk Hnext
                Htq) as (w' & p2 & Henq & Hp2 & Hq2 & Hsl & Hfr & _).
    rewrite (exec_Ret _ _ _ _ _ Henq) in *.
    assert (q' = q ++ [temp]) as ->
      by (by eapply (queue_unique _ _ _ _ _ HI')).
    eapply framed_perm; [exact HI|exact HF|done| | |].
    + simpl. destruct (held_goto (pcs s) t _ CAddLeave Heqo)
        as (rest & H1 & H2).
      simpl in H1, H2. rewrite H1, H2. by rewrite <- (assoc_L (++)).
    + exact (same_but_links_keeps _ _ Hsl).
    + simpl. intros y Hy Hne. apply Hfr; [done|].
      intros Hin. apply Hy. unfold foot. set_solver.
  - (* CAddLeave *)
    apply (inj Some) in H. subst s'.
    by eapply (framed_release h0 s p p' q q' t).
  - (* CAddWake *)
    apply (inj Some) in H. subst s'.
    by eapply (framed_goto h0 s _ p p' q q' t).
  - (* CJoinEnter *)
    by eapply (framed_acquire h0 s s' p p' q q' t).
  - (* CJoinSet *)
    apply (inj Some) in H. subst s'.
    rewrite (exec_Ret _ _ _ _ _ (set_pool_at _ _ _ _ Hp)) in *.
    assert (Hqa : ∀ y, y ∈ q → y ≠ pool s).
    { intros y Hy ->.
      destruct (chain_head_alloc _ _ _ _ (proj1 (inv_queue _ _ _ HI)) Hy).
      congruence. }
    assert (q' = q) as ->.
    { eapply (queue_unique _ _ _ _ _ HI'); simpl.
      - by rewrite lookup_insert_eq.
      - eapply (queue_rep_frame_nodes (heap (mem s))); [|apply HI].
        intros y Hy. rewrite lookup_insert_ne; [done|].
        intros E. by apply (Hqa y Hy). }
    eapply framed_perm; [exact HI|exact HF|done| | |].
    + simpl. by rewrite (held_goto_same _ _ _ CJoinLeave Heqo).
    + simpl. apply keeps_insert. by rewrite Hp.
    + simpl. intros y _ Hne. by rewrite lookup_insert_ne.
  - (* CJoinLeave *)
    apply (inj Some) in H. subst s'.
    by eapply (framed_release h0 s p p' q q' t).
  - (* CJoinWake *)
    apply (inj Some) in H. subst s'.
    by eapply (framed_goto h0 s _ p p' q q' t).
  - (* CJoinWait *)
    destruct (workers_done (pcs s)); [|done].
    apply (inj Some) in H. subst s'.
    assert (Hw : (p0 ← get_pool (Some (pool s));
                  modify (emit (EvWaitAll (threadNum p0) (threads p0))))
                   (mem s)
                 = Ret tt (emit (EvWaitAll (threadNum p) (threads p)) (mem s)))
      by (by rewrite (bind_Ret _ _ _ _ _ Hgp)).
    rewrite (exec_Ret _ _ _ _ _ Hw) in *.
    by eapply (framed_goto h0 s _ p p' q q' t).
Qed.

Lemma initial_framed (s : state) : initial s → Framed (heap (mem s)) s.
Proof.
  intros (r1 & r2 & spawn & fmt & n & w0 & w & a & nc & Hc & ->) _ p q HI.
  apply create_pool_shape in Hc as [arr Hc].
  pose proof (inv_pool _ _ _ HI) as Hp. simpl in Hp. rewrite Hc in Hp.
  injection Hp as <-.
  assert (q = []) as ->.
  { destruct q as [|x q]; [done|].
    by destruct (inv_queue _ _ _ HI) as [[Hx _] _]. }
  unfold framed. simpl. unfold held. rewrite omap_app.
  fold (held (replicate (Z.to_nat n) WEnter)) (held (replicate nc CIdle)).
  rewrite !held_replicate by done. simpl.
  split; [by intros y Hy%elem_of_nil|done].
Qed.

Lemma run_framed (h0 : gmap addr obj) (ls : list (tid * choice)) :
  ∀ s s', Inv s → Framed h0 s → forallb wait_ok ls = true →
          run ls s = Some s' → Framed h0 s'.
Proof.
  induction ls as [|[t c] ls IH]; intros s s' HI HF Hok H; simpl in H.
  - by injection H as <-.
  - destruct (step t c s) as [s1|] eqn:E; [|done].
    simpl in Hok. apply andb_true_iff in Hok as [Hok1 Hok2].
    eapply IH; [| |done|exact H].
    + by eapply step_inv.
    + by eapply step_framed.
Qed.

(** In every schedule from a created pool in which no wait fails, while
    the process runs: the blocks of the queued records and of the records
    that threads hold (each record and its argument buffer) are allocated
    and were not allocated when the pool was created; every other block
    but the pool struct is as it was then.  So the procedures write,
    allocate and free nothing but the pool struct and blocks made by
    [thread_pool_add_task], and a block freed in lines 105-106 is no longer
    allocated. *)
Theorem heap_is_creation_heap_plus_records (s0 s : state)
    (ls : list (tid * choice)) :
  initial s0 → run ls s0 = Some s → forallb wait_ok ls = true →
  proc s = Alive →
  ∃ p q,
    heap (mem s) !! pool s = Some (OPool p) ∧
    queue_rep (heap (mem s)) p q ∧
    (∀ y, y ∈ foot (heap (mem s)) (q ++ held (pcs s)) →
          heap (mem s0) !! y = None ∧ is_Some (heap (mem s) !! y)) ∧
    (∀ y, y ∉ foot (heap (mem s)) (q ++ held (pcs s)) → y ≠ pool s →
          heap (mem s) !! y = heap (mem s0) !! y).
Proof.
  intros H0 Hrun Hok Hal.
  destruct (reach_inv _ _ _ H0 Hrun Hok) as (p & q & HI).
  destruct (run_framed _ ls s0 s (initial_inv _ H0) (initial_framed _ H0)
              Hok Hrun Hal p q HI) as [F2 F1].
  exists p, q. split; [apply HI|]. split; [apply HI|]. split; [|exact F1].
  intros y Hy. split; [by apply F2|].
  eapply foot_alloc; [apply HI|done].
Qed.

Lemma heap_is_creation_heap_plus_records_witness :
  ∃ s p q,
    run (take 16 main_schedule) main_state = Some s ∧
    heap (mem s) !! pool s = Some (OPool p) ∧
    queue_rep (heap (mem s)) p q ∧
    (∀ y, y ∈ foot (heap (mem s)) (q ++ held (pcs s)) →
          heap (mem main_state) !! y = None ∧ is_Some (heap (mem s) !! y)) ∧
    (∀ y, y ∉ foot (heap (mem s)) (q ++ held (pcs s)) → y ≠ pool s →
          heap (mem s) !! y = heap (mem main_state) !! y).
Proof.
  destruct (run (take 16 main_schedule) main_state) as [s|] eqn:Hrun;
    [|vm_compute in Hrun; discriminate Hrun].
  assert (Hal : proc s = Alive).
  { pose proof Hrun as Hr. vm_compute in Hr. injection Hr as <-.
    vm_compute. reflexivity. }
  destruct (heap_is_creation_heap_plus_records main_state s
              (take 16 main_schedule) initial_main_state Hrun eq_refl Hal)
    as (p & q & Hp & Hq & H1 & H2).
  exists s, p, q. split; [reflexivity|]. split; [exact Hp|].
  split; [exact Hq|]. split; [exact H1|exact H2].
Defined.

(** When the queue is empty and no thread holds a record (no worker is
    between lines 96 and 106, no caller between lines 191 and 214), the
    heap is the heap in which the pool was created but for the fields of
    the pool struct: every record and every argument copy made by
    [thread_pool_add_task] has been freed, and nothing else has changed. *)
Theorem idle_pool_has_freed_every_record (s0 s : state)
    (ls : list (tid * choice)) (p : ThreadPool) :
  initial s0 → run ls s0 = Some s → forallb wait_ok ls = true →
  proc s = Alive → pool_of s = Some p → taskQueueHead p = NULL →
  held (pcs s) = [] →
  heap (mem s) = <[pool s := OPool p]> (heap (mem s0)).
Proof.
  intros H0 Hrun Hok Hal Hp Hhead Hheld.
  destruct (heap_is_creation_heap_plus_records s0 s ls H0 Hrun Hok Hal)
    as (p' & q & Hp' & Hq & _ & F1).
  unfold pool_of in Hp. rewrite Hp' in Hp. injection Hp as ->.
  assert (q = []) as ->.
  { destruct q as [|x q]; [done|]. destruct Hq as [[Hx _] _]. congruence. }
  rewrite Hheld in F1. apply map_eq. intros y.
  destruct (decide (y = pool s)) as [->|Hne].
  - by rewrite lookup_insert_eq.
  - rewrite lookup_insert_ne by done. apply F1; [|done].
    by intros Hy%elem_of_nil.
Qed.

Lemma idle_pool_has_freed_every_record_witness :
  ∃ s p, run main_schedule main_state = Some s ∧
         length (submitted s) = 2%nat ∧
         heap (mem s) = <[pool s := OPool p]> (heap (mem main_state)).
Proof.
  destruct (run main_schedule main_state) as [s|] eqn:Hrun;
    [|vm_compute in Hrun; discriminate Hrun].
  destruct (pool_of s) as [p|] eqn:Hp.
  - exists s, p. split; [reflexivity|]. split.
    { pose proof Hrun as Hr. vm_compute in Hr. injection Hr as <-.
      vm_compute. reflexivity. }
    apply (idle_pool_has_freed_every_record main_state s main_schedule p
             initial_main_state Hrun eq_refl).
    + pose proof Hrun as Hr. vm_compute in Hr. injection Hr as <-.
      vm_compute. reflexivity.
    + exact Hp.
    + pose proof Hrun as Hr. vm_compute in Hr. injection Hr as <-.
      vm_compute in Hp. injection Hp as <-. vm_compute. reflexivity.
    + pose proof Hrun as Hr. vm_compute in Hr. injection Hr as <-.
      vm_compute. reflexivity.
  - exfalso. vm_compute in Hrun. injection Hrun as <-.
    vm_compute in Hp. discriminate Hp.
Defined.

End Blocks.

(** * What [thread_pool_destroy] leaves behind *)

Module Leftover.
Import PoolFacts QueueFacts ChainFacts QueueRep HeadTail DestroyFacts
  RunningFacts.

(** [thread_pool_destroy] frees the queued records, their argument buffers
    and the pool struct, and never [pool->threads]: the handle array
    allocated in line 120 of [create_thread_pool] is still allocated when
    [thread_pool_destroy] has returned, and the pool struct that pointed to
    it is gone. *)
Theorem destroy_leaves_handle_array (wait_workers : Z → ptr → M unit)
    (a arr : addr) (p : ThreadPool) (q : list addr) (hs : list HANDLE)
    (w w1 : world) (n : nat) :
  thread_pool_join_all wait_workers (Some a) w = Ret tt w1 →
  heap w1 !! a = Some (OPool p) →
  queue_rep (heap w1) p q → owns_args (heap w1) q →
  (length q ≤ n)%nat →
  threads p = Some arr → heap w1 !! arr = Some (OHandles hs) →
  ∃ w3,
    thread_pool_destroy wait_workers n (Some a) w = Some (Ret tt w3) ∧
    heap w3 !! a = None ∧
    heap w3 !! arr = Some (OHandles hs).
Proof.
  intros Hjoin Hp [Hch _] Hown Hn _ Harr.
  destruct (drain_rep a q n p w1 Hp Hch Hown Hn)
    as (w2 & Hrun & _ & Hp2 & _ & Hkept).
  assert (Hne : arr ≠ a) by (intros ->; congruence).
  exists (set_heap (delete a) w2). split; [|split].
  - unfold thread_pool_destroy. rewrite Hjoin, Hrun.
    by rewrite (free_at _ _ _ Hp2).
  - simpl. by rewrite lookup_delete_eq.
  - simpl. rewrite lookup_delete_ne by done. rewrite Hkept; [done..| |].
    + intros Hin. destruct (chain_head_alloc _ _ _ _ Hch Hin). congruence.
    + intros Hin. destruct (proj2 Hown arr Hin). congruence.
Qed.

Lemma destroy_leaves_handle_array_witness :
  ∃ s w3,
    run main_schedule main_state = Some s ∧
    thread_pool_destroy (λ _ _, mret tt) 0 (Some 1%positive) (mem s)
    = Some (Ret tt w3) ∧
    heap w3 !! 1%positive = None ∧
    heap w3 !! 2%positive
    = Some (OHandles [100; 101; 102; 103]%positive).
Proof.
  destruct (run main_schedule main_state) as [s|] eqn:Hrun;
    [|vm_compute in Hrun; discriminate Hrun].
  set (p := {| running := 0; threadNum := 4; threads := Some 2%positive;
               taskQueueHead := NULL; taskQueueTail := Some 5%positive |}).
  destruct (destroy_leaves_handle_array (λ _ _, mret tt) 1%positive
              2%positive p [] [100; 101; 102; 103]%positive (mem s) (mem s)
              0) as (w3 & H1 & H2 & H3).
  - pose proof Hrun as Hr. vm_compute in Hr. injection Hr as <-.
    vm_compute. reflexivity.
  - pose proof Hrun as Hr. vm_compute in Hr. injection Hr as <-.
    vm_compute. reflexivity.
  - split; [reflexivity|]. intros Hq. exfalso. apply Hq. reflexivity.
  - split; [apply NoDup_nil_2|]. intros b Hb. exfalso.
    exact (proj1 (elem_of_nil b) Hb).
  - simpl. lia.
  - reflexivity.
  - pose proof Hrun as Hr. vm_compute in Hr. injection Hr as <-.
    vm_compute. reflexivity.
  - exists s, w3. split; [reflexivity|]. split; [exact H1|].
    split; [exact H2|exact H3].
Defined.

End Leftover.
